(** * A WASI host shim for an in-browser playground (try-watim)

    Shallow embedding of [src/compiler.ts]: the virtual file tree, the
    descriptor table, the system-call surface handed to a WASI binary and
    the driver [runWasi], together with the properties of the
    natural-language specification that concern them.

    Conventions of the embedding.
    - A JavaScript [number] that holds an offset, a length, a descriptor or
      an errno is a [Z].  Values that cross the WebAssembly boundary are
      signed 32-bit integers, so negative offsets and lengths do reach the
      host functions.
    - A [DataView] (and the [ArrayBuffer] under it) is a [list byte]; an
      access outside the view raises [RangeError], as in JavaScript.
    - A JavaScript string is the [string] of the bytes of its UTF-8 form
      (strings with unpaired surrogates are not represented).
      [TextEncoder.encode] gives these bytes; [TextDecoder.decode] decodes
      UTF-8 as the Encoding Standard prescribes, each ill-formed sequence
      becoming U+FFFD and a leading byte order mark being dropped.
    - A [Record<string, _>] whose entries are enumerated is the list of its
      entries, in [Object.entries] order.  Indexing it, [children[name]],
      finds the own property of that name and otherwise the property the
      record inherits from [Object.prototype], if [name] is one of those.
    - [Record<number, File>] (the descriptor table) is a [gmap].  The table
      is only ever indexed, and a key is a number, never the name of an
      inherited property: [openFds h !! fd = None] stands for
      [openFds[fd] === undefined], whether the key was never bound or is
      bound to [undefined].
    - Closures are defunctionalised: the variables a closure captures and
      mutates live in the host state.
    - A synchronous [throw] is the [Throw] result of the state-and-error
      monad [M]; a settled promise is an [option]. *)

From Stdlib Require Import ZArith List Strings.String Strings.Ascii Strings.Byte Lia.
From Equations Require Import Equations.
From Equations.Prop Require Import Logic.
From stdpp Require Import base option list gmap strings.

Local Open Scope Z_scope.
Set Warnings "-register-all".

(** ** Constants *)

Definition STDIN : Z := 0.
Definition STDOUT : Z := 1.
Definition STDERR : Z := 2.

Definition NOT_SUPPORTED : Z := 58.
Definition IS_A_DIRECTORY : Z := 31.
Definition NO_SUCH_FILE_OR_DIRECTORY : Z := 44.

(** ** Exceptions and results *)

Inductive Error :=
| RangeError                   (* a DataView access outside its bounds *)
| NotOpen (fd : Z)             (* [Error(`file descriptor ${fd} is not open`)] *)
| Exit (code : Z)              (* [Error(`EXIT ${code}`)] *)
| Rejected                     (* an awaited promise was rejected *)
| NoClosure.                   (* a [read] whose closure is not in the state:
                                  excluded by the invariant [host_ok] *)

Inductive Result (A : Type) :=
| Ok (a : A)
| Throw (e : Error).
Arguments Ok {A} a.
Arguments Throw {A} e.

(** ** DataView *)

Abbreviation DataView := (list byte).

Definition byteLength (v : DataView) : Z := Z.of_nat (length v).

Definition in_bounds (v : DataView) (off size : Z) : bool :=
  (0 <=? off) && (off + size <=? byteLength v).

Definition toUint8 (x : Z) : byte :=
  default "000"%byte (Byte.of_N (Z.to_N (x mod 256))).

Definition ofUint8 (b : byte) : Z := Z.of_N (Byte.to_N b).

(** [splice v off bs] overwrites [v] from index [off] on with [bs]. *)
Definition splice (v : DataView) (off : nat) (bs : list byte) : DataView :=
  take off v ++ bs ++ drop (off + length bs) v.

Definition getUint8 (v : DataView) (off : Z) : option Z :=
  if in_bounds v off 1 then ofUint8 <$> v !! Z.to_nat off else None.

Definition setUint8 (v : DataView) (off x : Z) : option DataView :=
  if in_bounds v off 1 then Some (<[Z.to_nat off := toUint8 x]> v) else None.

(** Little-endian 32-bit accesses ([littleEndian = true] throughout). *)
Definition le_bytes (x : Z) : list byte :=
  [toUint8 x; toUint8 (x / 2 ^ 8); toUint8 (x / 2 ^ 16); toUint8 (x / 2 ^ 24)].

Fixpoint le_value (bs : list byte) : Z :=
  match bs with
  | [] => 0
  | b :: bs' => ofUint8 b + 256 * le_value bs'
  end.

Definition getUint32 (v : DataView) (off : Z) : option Z :=
  if in_bounds v off 4
  then Some (le_value (take 4 (drop (Z.to_nat off) v)))
  else None.

Definition setUint32 (v : DataView) (off x : Z) : option DataView :=
  if in_bounds v off 4 then Some (splice v (Z.to_nat off) (le_bytes x)) else None.

(** [ArrayBuffer.prototype.slice(begin, end)]: negative indices count from
    the end, both are clamped to the buffer. *)
Definition clamp_index (len k : Z) : Z :=
  if k <? 0 then Z.max (len + k) 0 else Z.min k len.

Definition slice (buf : list byte) (b e : Z) : list byte :=
  let first := clamp_index (byteLength buf) b in
  let final := clamp_index (byteLength buf) e in
  take (Z.to_nat (Z.max (final - first) 0)) (drop (Z.to_nat first) buf).

(** ** The byte-copy primitive

    [[
    const copy = (srcBuf, dstBuf, src, dst, len) => {
        for (let i = 0; i < len; i++) {
            if (src + i >= srcBuf.byteLength) return i
            if (dst + i >= dstBuf.byteLength) return i
            dstBuf.setUint8(dst + i, srcBuf.getUint8(src + i))
        }
        return len
    }
    ]]
    [iters] is the number of times the loop test [i < len] still succeeds;
    the function returns what [copy] returns (or raises) and the
    destination as the loop left it. *)

Fixpoint copy_loop (iters : nat) (srcBuf dstBuf : DataView) (src dst len i : Z)
  : Result Z * DataView :=
  match iters with
  | O => (Ok len, dstBuf)
  | S iters' =>
      if src + i >=? byteLength srcBuf then (Ok i, dstBuf)
      else if dst + i >=? byteLength dstBuf then (Ok i, dstBuf)
      else match getUint8 srcBuf (src + i) with
           | None => (Throw RangeError, dstBuf)
           | Some x =>
               match setUint8 dstBuf (dst + i) x with
               | None => (Throw RangeError, dstBuf)
               | Some dstBuf' => copy_loop iters' srcBuf dstBuf' src dst len (i + 1)
               end
           end
  end.

Definition copy (srcBuf dstBuf : DataView) (src dst len : Z) : Result Z * DataView :=
  copy_loop (Z.to_nat len) srcBuf dstBuf src dst len 0.

(** The number of bytes the specification promises. *)
Definition copy_count (srcBuf dstBuf : DataView) (src dst len : Z) : Z :=
  Z.max 0 (Z.min len (Z.min (byteLength srcBuf - src) (byteLength dstBuf - dst))).

(** ** The virtual file tree

    [FileEntry<T> | Directory<T>]; [children] lists the entries of the
    record in [Object.entries] order (the keys of a record are distinct). *)

Inductive FileSystemNode (T : Type) : Type :=
| FileEntry (file : T)
| Directory (children : list (string * FileSystemNode T)).
Arguments FileEntry {T} file.
Arguments Directory {T} children.

(** The own property [name] of the record [children], if it has one. *)
Fixpoint children_get {T} (children : list (string * FileSystemNode T)) (name : string)
  : option (FileSystemNode T) :=
  match children with
  | [] => None
  | (k, node) :: children' =>
      if String.eqb k name then Some node else children_get children' name
  end.

(** The properties every object inherits from [Object.prototype]: those of
    ECMAScript and the legacy ones of its Annex B, which browsers have.
    Each is a function, except [__proto__], an accessor that gives
    [Object.prototype] itself.  None of these values is [undefined], and
    none has a property [type] or [file]. *)
Definition inherited_names : list string :=
  ["constructor"; "__defineGetter__"; "__defineSetter__"; "hasOwnProperty";
   "__lookupGetter__"; "__lookupSetter__"; "isPrototypeOf"; "propertyIsEnumerable";
   "toString"; "valueOf"; "__proto__"; "toLocaleString"]%string.

Definition inherited (name : string) : bool :=
  existsb (String.eqb name) inherited_names.

(** The value of [children[name]] for a record made by an object literal
    or by [Object.fromEntries]: a node of the tree, a value inherited from
    [Object.prototype], or [undefined]. *)
Inductive Entry (T : Type) : Type :=
| OwnEntry (node : FileSystemNode T)
| InheritedEntry
| NoEntry.
Arguments OwnEntry {T} node.
Arguments InheritedEntry {T}.
Arguments NoEntry {T}.

Definition children_index {T} (children : list (string * FileSystemNode T)) (name : string)
  : Entry T :=
  match children_get children name with
  | Some node => OwnEntry node
  | None => if inherited name then InheritedEntry else NoEntry
  end.

(** [mapFileSystemNode], with [mapFileEntry] and [mapDirectory] inlined:
    [Object.fromEntries(Object.entries(dir.children).map(([k, v]) => [k, map(v)]))]. *)
Fixpoint mapFileSystemNode {A B} (f : A -> B) (entry : FileSystemNode A) : FileSystemNode B :=
  match entry with
  | FileEntry file => FileEntry (f file)
  | Directory children =>
      Directory (map (fun '(k, v) => (k, mapFileSystemNode f v)) children)
  end.

(** A loader resolves with the text of the file or rejects. *)
Definition FileLoader := string -> option string.

(** [cached(f)]: the wrapper keeps what [f] resolved with, by path.  A
    request is answered from the cache if it can be; otherwise [f] is
    called and, if it resolves, the cache remembers the text.  The result
    is the answer, the cache afterwards and the calls made to [f]. *)
Definition cached (f : FileLoader) (i : string) (cache : gmap string string)
  : option string * gmap string string * list string :=
  match cache !! i with
  | Some v => (Some v, cache, [])
  | None =>
      match f i with
      | Some nv => (Some nv, <[i := nv]> cache, [i])
      | None => (None, cache, [i])
      end
  end.

(** ** Files and the host state

    [type File = { read, write, prestatName? }].  The [read] of a file made
    by [createFile] closes over [data] and the mutable [cursor]: that
    closure environment is a [Cell] of the host state, and the function
    value names the cell. *)

Inductive ReadFn :=
| readNotSupported
| readCell (cell : nat).

Inductive WriteFn :=
| writeNotSupported
| writeSink (fd : Z).

Record File := {
  read : ReadFn;
  write : WriteFn;
  prestatName : option string
}.

Record Cell := {
  data : DataView;
  cursor : Z
}.

(** The calls the guest can make through the import object. *)
Inductive Syscall :=
| call_fd_read (fd iovsPtr iovsLen readPtr : Z)
| call_fd_write (fd iovsPtr iovsLen writtenPtr : Z)
| call_proc_exit (code : Z)
| call_args_sizes_get (number sizePtr : Z)
| call_args_get (argv argv_buf : Z)
| call_fd_prestat_get (fd prestat : Z)
| call_fd_prestat_dir_name (fd ptr len : Z)
| call_path_open (parentFd dirflags pathPtr pathLen oflags
                  fsRightsBase fsRightsInheriting fdFlags resPtr : Z).

(** What happened during a run, in order: loader invocations, steps of
    guest code and import calls.  The trace is not in the source; it is
    kept to state when things happen. *)
Inductive Event :=
| EvLoad (path : string)
| EvCompute
| EvCall (c : Syscall).

Record Host := {
  memory : DataView;                      (* [getMemory()] *)
  cells : list Cell;                      (* environments of [createFile] closures *)
  openFds : gmap Z File;
  next_fd : Z;                            (* the [i] of [nextFd] *)
  output : list (Z * string);             (* calls of [writeOutput] *)
  promise : option (option Z);            (* the promise [runWasi] returns:
                                             pending, or resolved with a
                                             code or with [undefined] *)
  trace : list Event
}.

Definition host0 : Host :=
  {| memory := []; cells := []; openFds := ∅; next_fd := 0;
     output := []; promise := None; trace := [] |}.

Definition with_memory (m : DataView) (h : Host) : Host :=
  {| memory := m; cells := cells h; openFds := openFds h; next_fd := next_fd h;
     output := output h; promise := promise h; trace := trace h |}.
Definition with_cells (c : list Cell) (h : Host) : Host :=
  {| memory := memory h; cells := c; openFds := openFds h; next_fd := next_fd h;
     output := output h; promise := promise h; trace := trace h |}.
Definition with_openFds (t : gmap Z File) (h : Host) : Host :=
  {| memory := memory h; cells := cells h; openFds := t; next_fd := next_fd h;
     output := output h; promise := promise h; trace := trace h |}.
Definition with_next_fd (i : Z) (h : Host) : Host :=
  {| memory := memory h; cells := cells h; openFds := openFds h; next_fd := i;
     output := output h; promise := promise h; trace := trace h |}.
Definition with_output (o : list (Z * string)) (h : Host) : Host :=
  {| memory := memory h; cells := cells h; openFds := openFds h; next_fd := next_fd h;
     output := o; promise := promise h; trace := trace h |}.
Definition with_promise (p : option (option Z)) (h : Host) : Host :=
  {| memory := memory h; cells := cells h; openFds := openFds h; next_fd := next_fd h;
     output := output h; promise := p; trace := trace h |}.
Definition with_trace (t : list Event) (h : Host) : Host :=
  {| memory := memory h; cells := cells h; openFds := openFds h; next_fd := next_fd h;
     output := output h; promise := promise h; trace := t |}.

(** ** The monad of host code *)

Definition M (A : Type) : Type := Host -> Result A * Host.

Definition ret {A} (a : A) : M A := fun h => (Ok a, h).

Definition bind {A B} (m : M A) (k : A -> M B) : M B :=
  fun h => match m h with
           | (Ok a, h') => k a h'
           | (Throw e, h') => (Throw e, h')
           end.

Definition throw {A} (e : Error) : M A := fun h => (Throw e, h).

Declare Scope host_scope.
Delimit Scope host_scope with host.
Notation "x <- m ;; k" := (bind m (fun x => k))
  (at level 100, m at next level, right associativity) : host_scope.
Notation "m ;; k" := (bind m (fun _ => k))
  (at level 100, right associativity) : host_scope.
Local Open Scope host_scope.

Definition gets {A} (f : Host -> A) : M A := fun h => (Ok (f h), h).
Definition modify (f : Host -> Host) : M unit := fun h => (Ok tt, f h).

(** An [option] that is [None] when JavaScript raises [e]. *)
Definition orThrow {A} (e : Error) (o : option A) : M A :=
  match o with
  | Some a => ret a
  | None => throw e
  end.

Definition getMemory : M DataView := gets memory.

Definition mem_getUint32 (off : Z) : M Z :=
  m <- getMemory;; orThrow RangeError (getUint32 m off).

Definition mem_setUint32 (off x : Z) : M unit :=
  m <- getMemory;;
  m' <- orThrow RangeError (setUint32 m off x);;
  modify (with_memory m').

Definition mem_setUint8 (off x : Z) : M unit :=
  m <- getMemory;;
  m' <- orThrow RangeError (setUint8 m off x);;
  modify (with_memory m').

(** [copy(srcBuf, memory, src, dst, len)]: what the loop wrote stays
    written when an access raises. *)
Definition mem_copy (srcBuf : DataView) (src dst len : Z) : M Z :=
  fun h => let '(r, m') := copy srcBuf (memory h) src dst len in
           (r, with_memory m' h).

Definition writeOutput (fd : Z) (s : string) : M unit :=
  modify (fun h => with_output (output h ++ [(fd, s)]) h).

Definition log (e : Event) : M unit :=
  modify (fun h => with_trace (trace h ++ [e]) h).

(** [resolve(v)] of the promise: only the first call settles it. *)
Definition resolve (v : option Z) : M unit :=
  modify (fun h => match promise h with
                   | None => with_promise (Some v) h
                   | Some _ => h
                   end).

(** [() => i++] *)
Definition nextFd : M Z :=
  fun h => (Ok (next_fd h), with_next_fd (next_fd h + 1) h).

(** [new TextEncoder().encode(s)] *)
Definition encode (s : string) : DataView := list_byte_of_string s.

(** [new TextDecoder().decode(b)]: the UTF-8 decoder of the Encoding
    Standard, in replacement mode.  [pending] holds the bytes of the
    sequence being read, [needed] the number of continuation bytes still
    expected, [lower] and [upper] the range allowed for the next one. *)
Record Utf8 := {
  pending : list byte;
  needed : nat;
  lower : Z;
  upper : Z
}.

Definition utf8_idle : Utf8 :=
  {| pending := []; needed := 0; lower := 128; upper := 191 |}.

(** U+FFFD in UTF-8. *)
Definition replacement : list byte := ["239"; "191"; "189"]%byte.

(** A byte met when no sequence is being read. *)
Definition utf8_lead (b : byte) : Utf8 * list byte :=
  let x := ofUint8 b in
  if x <=? 127 then (utf8_idle, [b])
  else if (194 <=? x) && (x <=? 223)
  then ({| pending := [b]; needed := 1; lower := 128; upper := 191 |}, [])
  else if (224 <=? x) && (x <=? 239)
  then ({| pending := [b]; needed := 2;
           lower := if x =? 224 then 160 else 128;
           upper := if x =? 237 then 159 else 191 |}, [])
  else if (240 <=? x) && (x <=? 244)
  then ({| pending := [b]; needed := 3;
           lower := if x =? 240 then 144 else 128;
           upper := if x =? 244 then 143 else 191 |}, [])
  else (utf8_idle, replacement).

(** One byte: a continuation byte in range extends the sequence and ends
    it when it was the last one expected; any other byte ends the sequence
    with an error and is read again as a first byte. *)
Definition utf8_step (st : Utf8) (b : byte) : Utf8 * list byte :=
  match needed st with
  | O => utf8_lead b
  | S n =>
      if (lower st <=? ofUint8 b) && (ofUint8 b <=? upper st)
      then match n with
           | O => (utf8_idle, pending st ++ [b])
           | S _ => ({| pending := pending st ++ [b]; needed := n;
                        lower := 128; upper := 191 |}, [])
           end
      else let '(st', out) := utf8_lead b in (st', replacement ++ out)
  end.

(** The bytes of the decoded text; a sequence cut by the end of the input
    is an error. *)
Fixpoint utf8_decode (st : Utf8) (bs : list byte) : list byte :=
  match bs with
  | [] => match needed st with O => [] | S _ => replacement end
  | b :: bs' => let '(st', out) := utf8_step st b in out ++ utf8_decode st' bs'
  end.

(** [ignoreBOM] is false: a byte order mark at the start is dropped. *)
Definition strip_bom (bs : list byte) : list byte :=
  match bs with
  | "239"%byte :: "187"%byte :: "191"%byte :: bs' => bs'
  | _ => bs
  end.

Definition decode (b : list byte) : string :=
  string_of_list_byte (strip_bom (utf8_decode utf8_idle b)).

(** [createFile(data)]: a new closure environment with [cursor = 0]. *)
Definition createFile (d : DataView) : M File :=
  fun h => (Ok {| read := readCell (length (cells h));
                  write := writeNotSupported;
                  prestatName := None |},
            with_cells (cells h ++ [{| data := d; cursor := 0 |}]) h).

(** Calling a [read] function value. *)
Definition call_read (f : ReadFn) (ptr len : Z) : M (Z * Z) :=
  match f with
  | readNotSupported => ret (0, NOT_SUPPORTED)
  | readCell c =>
      cell <- (fun h => orThrow NoClosure (cells h !! c) h);;
      n <- mem_copy (data cell) (cursor cell) ptr len;;
      modify (fun h => with_cells
                (<[c := {| data := data cell; cursor := cursor cell + n |}]> (cells h)) h);;
      ret (n, 0)
  end.

(** Calling a [write] function value. *)
Definition call_write (f : WriteFn) (d : DataView) : M (Z * Z) :=
  match f with
  | writeNotSupported => ret (0, NOT_SUPPORTED)
  | writeSink fd => writeOutput fd (decode d);; ret (byteLength d, 0)
  end.

(** ** Paths: [split('/')], [slice(1).join('/')] *)

Fixpoint split (sep : ascii) (s : string) : list string :=
  match s with
  | EmptyString => [EmptyString]
  | String c s' =>
      if Ascii.eqb c sep then EmptyString :: split sep s'
      else match split sep s' with
           | [] => [String c EmptyString]
           | seg :: segs => String c seg :: segs
           end
  end.

Fixpoint join (sep : ascii) (l : list string) : string :=
  match l with
  | [] => EmptyString
  | [s] => s
  | s :: l' => (s ++ String sep (join sep l'))%string
  end.

(** [path.length === 0 ? [] : path.split('/')] *)
Definition splits_of (path : string) : list string :=
  if Nat.eqb (String.length path) 0 then [] else split "/" path.

(** ** Opening a path

    [[
    const openFile = (path, fileSystem) => {
        let splits = path.length === 0 ? [] : path.split('/')
        if (splits.length === 0) {
            if (fileSystem.type === "directory") return [0, IS_A_DIRECTORY]
            const fd = nextFd()
            openFds[fd] = fileSystem.file
            return [fd, 0]
        }
        if (fileSystem.type !== "directory") return [0, NO_SUCH_FILE_OR_DIRECTORY]
        const entry = fileSystem.children[splits[0]]
        if (entry === undefined) return [0, NO_SUCH_FILE_OR_DIRECTORY]
        return openFile(splits.slice(1).join('/'), entry)
    }
    ]]
    The recursive call is on a strictly shorter path. *)

(** [openFds[fd] = file] *)
Definition bindFd (fd : Z) (file : File) : M unit :=
  modify (fun h => with_openFds (<[fd := file]> (openFds h)) h).

(** [openFds[fd] = undefined] *)
Definition unbindFd (fd : Z) : M unit :=
  modify (fun h => with_openFds (delete fd (openFds h)) h).

(** [openFile(path, entry)] for an [entry] inherited from
    [Object.prototype]: [entry.type] is [undefined], so it is neither
    ["directory"] in the first test nor in the second, and [entry.file] is
    [undefined]. *)
Definition openFile_inherited (path : string) : M (Z * Z) :=
  match splits_of path with
  | [] =>
      fd <- nextFd;;
      unbindFd fd;;
      ret (fd, 0)
  | _ :: _ => ret (0, NO_SUCH_FILE_OR_DIRECTORY)
  end.

Equations openFile (path : string) (fileSystem : FileSystemNode File) : M (Z * Z)
  by wf (String.length path) lt :=
  openFile path fileSystem with inspect (splits_of path) := {
    | exist _ [] _ with fileSystem := {
        | Directory _ => ret (0, IS_A_DIRECTORY)
        | FileEntry file =>
            fd <- nextFd;;
            bindFd fd file;;
            ret (fd, 0) }
    | exist _ (s :: rest) Hsplits with fileSystem := {
        | FileEntry _ => ret (0, NO_SUCH_FILE_OR_DIRECTORY)
        | Directory children with children_index children s := {
            | NoEntry => ret (0, NO_SUCH_FILE_OR_DIRECTORY)
            | InheritedEntry => openFile_inherited (join "/" rest)
            | OwnEntry entry => openFile (join "/" rest) entry } } }.
Next Obligation.
  intros path s rest Hsplits **. revert Hsplits. unfold splits_of.
  destruct (Nat.eqb (String.length path) 0) eqn:E; [discriminate|].
  apply Nat.eqb_neq in E. intros H.
  assert (L : forall s1 s2 : string,
             String.length (s1 ++ s2) = (String.length s1 + String.length s2)%nat).
  { induction s1 as [|c s1 IH]; intros s2; simpl; [reflexivity | now rewrite IH]. }
  assert (J : forall p : string, split "/" p <> [] /\ join "/" (split "/" p) = p).
  { induction p as [|c p [Hne IH]]; simpl; [split; [discriminate | reflexivity]|].
    destruct (Ascii.eqb c "/") eqn:Ec.
    - apply Ascii.eqb_eq in Ec. subst c. split; [discriminate|].
      destruct (split "/" p) as [|x r]; [contradiction|].
      simpl in *. now rewrite IH.
    - destruct (split "/" p) as [|x r]; [contradiction|]. split; [discriminate|].
      destruct r; simpl in *; now rewrite <- IH. }
  destruct (J path) as [_ Jp]. rewrite H in Jp.
  apply (f_equal String.length) in Jp.
  destruct rest as [|y r]; [simpl; lia|].
  change (join "/" (s :: y :: r)) with (s ++ String "/" (join "/" (y :: r)))%string in Jp.
  rewrite L in Jp. simpl in *. lia.
Qed.


(** ** The system-call surface

    The import functions close over [args], [fileSystem] and [onExit]. *)

Section Imports.

Variable args : list DataView.
Variable fileSystem : FileSystemNode File.
Variable onExit : option (Z -> M unit).

(** The body of the loop of [fd_read], [iters] iterations before the
    test [i < iovsLen] fails: [inl code] is [return code], [inr read]
    leaves the loop (by the test or by [break]). *)
Fixpoint fd_read_loop (iters : nat) (readFn : ReadFn) (iovsPtr i read : Z) : M (Z + Z) :=
  match iters with
  | O => ret (inr read)
  | S iters' =>
      let iovPtr := iovsPtr + 8 * i in
      ptr <- mem_getUint32 iovPtr;;
      len <- mem_getUint32 (iovPtr + 4);;
      r <- call_read readFn ptr len;;
      let '(readThisTime, code) := r in
      if negb (code =? 0) then ret (inl code)
      else
        let read := read + readThisTime in
        if readThisTime <? len then ret (inr read)
        else fd_read_loop iters' readFn iovsPtr (i + 1) read
  end.

Definition fd_read (fd iovsPtr iovsLen readPtr : Z) : M Z :=
  file <- gets (fun h => openFds h !! fd);;
  match file with
  | None => throw (NotOpen fd)
  | Some file =>
      r <- fd_read_loop (Z.to_nat iovsLen) (read file) iovsPtr 0 0;;
      match r with
      | inl code => ret code
      | inr read => mem_setUint32 readPtr read;; ret 0
      end
  end.

Fixpoint fd_write_loop (iters : nat) (writeFn : WriteFn) (iovsPtr i written : Z) : M (Z + Z) :=
  match iters with
  | O => ret (inr written)
  | S iters' =>
      let iovPtr := iovsPtr + 8 * i in
      ptr <- mem_getUint32 iovPtr;;
      len <- mem_getUint32 (iovPtr + 4);;
      memory <- getMemory;;
      r <- call_write writeFn (slice memory ptr (ptr + len));;
      let '(writ, code) := r in
      if negb (code =? 0) then ret (inl code)
      else fd_write_loop iters' writeFn iovsPtr (i + 1) (written + writ)
  end.

Definition fd_write (fd iovsPtr iovsLen writtenPtr : Z) : M Z :=
  file <- gets (fun h => openFds h !! fd);;
  match file with
  | None => throw (NotOpen fd)
  | Some file =>
      r <- fd_write_loop (Z.to_nat iovsLen) (write file) iovsPtr 0 0;;
      match r with
      | inl code => ret code
      | inr written => mem_setUint32 writtenPtr written;; ret 0
      end
  end.

(** [args.map(s => s.byteLength + 1).reduce((a, b) => a + b, 0)] *)
Definition args_size (l : list DataView) : Z :=
  fold_left Z.add (map (fun s => byteLength s + 1) l) 0.

Definition args_sizes_get (number sizePtr : Z) : M Z :=
  mem_setUint32 number (Z.of_nat (length args));;
  mem_setUint32 sizePtr (args_size args);;
  ret 0.

(** The loop of [args_get] over [args[i]], [args[i+1]], ... *)
Fixpoint args_get_loop (rest : list DataView) (argv i ptr : Z) : M unit :=
  match rest with
  | [] => ret tt
  | arg :: rest' =>
      mem_setUint32 (argv + 4 * i) ptr;;
      mem_copy arg 0 ptr (byteLength arg);;
      mem_setUint8 (ptr + byteLength arg) 0;;
      args_get_loop rest' argv (i + 1) (ptr + byteLength arg)
  end.

Definition args_get (argv argv_buf : Z) : M Z :=
  args_get_loop args argv 0 argv_buf;;
  ret 0.

Definition fd_prestat_get (fd prestat : Z) : M Z :=
  file <- gets (fun h => openFds h !! fd);;
  match file with
  | None => ret 8
  | Some file =>
      match prestatName file with
      | None => ret 8
      | Some name =>
          let pathBytes := encode name in
          let kind := 0 in
          mem_setUint32 prestat kind;;
          mem_setUint32 (prestat + 4) (byteLength pathBytes);;
          ret 0
      end
  end.

Definition proc_exit (code : Z) : M Z :=
  match onExit with
  | Some callback => callback code
  | None => ret tt
  end;;
  throw (Exit code).

Definition fd_prestat_dir_name (fd ptr len : Z) : M Z :=
  file <- gets (fun h => openFds h !! fd);;
  match file with
  | None => ret 8
  | Some file =>
      match prestatName file with
      | None => ret 8
      | Some name =>
          mem_copy (encode name) 0 ptr len;;
          ret 0
      end
  end.

Definition path_open (_parentFd _dirflags pathPtr pathLen _oflags
    _fsRightsBase _fsRightsInheriting _fdFlags resPtr : Z) : M Z :=
  memory <- getMemory;;
  let path := decode (slice memory pathPtr (pathPtr + pathLen)) in
  r <- openFile path fileSystem;;
  let '(fd, code) := r in
  mem_setUint32 resPtr fd;;
  ret code.

(** The import object [wasi_unstable]. *)
Definition wasi_unstable (c : Syscall) : M Z :=
  match c with
  | call_fd_read fd iovsPtr iovsLen readPtr => fd_read fd iovsPtr iovsLen readPtr
  | call_fd_write fd iovsPtr iovsLen writtenPtr => fd_write fd iovsPtr iovsLen writtenPtr
  | call_proc_exit code => proc_exit code
  | call_args_sizes_get number sizePtr => args_sizes_get number sizePtr
  | call_args_get argv argv_buf => args_get argv argv_buf
  | call_fd_prestat_get fd prestat => fd_prestat_get fd prestat
  | call_fd_prestat_dir_name fd ptr len => fd_prestat_dir_name fd ptr len
  | call_path_open parentFd dirflags pathPtr pathLen oflags
                   fsRightsBase fsRightsInheriting fdFlags resPtr =>
      path_open parentFd dirflags pathPtr pathLen oflags
                fsRightsBase fsRightsInheriting fdFlags resPtr
  end.

End Imports.

(** ** The guest

    A WebAssembly instance is known to the host through what its entry
    point does: it rewrites its linear memory and calls imports, resuming
    with the value an import returns.  An exception raised by an import
    unwinds the guest. *)

Inductive Guest :=
| Return
| Compute (f : DataView -> DataView) (k : Guest)
| Call (c : Syscall) (k : Z -> DataView -> Guest).

Record Imports := {
  imp_args : list DataView;
  imp_fileSystem : FileSystemNode File;
  imp_onExit : option (Z -> M unit)
}.

Definition import_call (imports : Imports) (c : Syscall) : M Z :=
  log (EvCall c);;
  wasi_unstable (imp_args imports) (imp_fileSystem imports) (imp_onExit imports) c.

(** [startExport()] *)
Fixpoint exec (imports : Imports) (g : Guest) : M unit :=
  match g with
  | Return => ret tt
  | Compute f k =>
      log EvCompute;;
      modify (fun h => with_memory (f (memory h)) h);;
      exec imports k
  | Call c k =>
      r <- import_call imports c;;
      memory <- getMemory;;
      exec imports (k r memory)
  end.

Record Instance := {
  memExport : option DataView;       (* [exports["memory"] instanceof WebAssembly.Memory] *)
  startExport : option Guest         (* [exports["_start"] instanceof Function] *)
}.

(** ** Setup: [prepareWasi] *)

(** Calling the loader of a leaf. *)
Definition invoke (file : FileLoader) (path : string) : M (option string) :=
  log (EvLoad path);;
  ret (file path).

(** [Promise.all]: fulfilled when every element is. *)
Fixpoint all_fulfilled {A} (l : list (string * option A)) : option (list (string * A)) :=
  match l with
  | [] => Some []
  | (k, None) :: _ => None
  | (k, Some a) :: l' =>
      match all_fulfilled l' with
      | None => None
      | Some r => Some ((k, a) :: r)
      end
  end.

(** [entries.map(async ([k, v]) => [k, await f(k, v)])], the calls being
    made in order. *)
Definition map_entries {A B} (f : string -> A -> M B)
  : list (string * A) -> M (list (string * B)) :=
  fix go (entries : list (string * A)) : M (list (string * B)) :=
    match entries with
    | [] => ret []
    | (k, v) :: entries' =>
        r <- f k v;;
        rs <- go entries';;
        ret ((k, r) :: rs)
    end.

(** Every loader is called when the tree is mapped; a file is created for
    each text that arrives. *)
Fixpoint loadFileSystem (path : string) (fileSystem : FileSystemNode FileLoader)
  : M (option (FileSystemNode File)) :=
  match fileSystem with
  | FileEntry file =>
      text <- invoke file path;;
      match text with
      | None => ret None
      | Some text =>
          file <- createFile (encode text);;
          ret (Some (FileEntry file))
      end
  | Directory children =>
      loaded <- map_entries
                  (fun childPath node => loadFileSystem (path ++ "/" ++ childPath) node)
                  children;;
      ret (option_map Directory (all_fulfilled loaded))
  end.

Definition readNotSupportedFile (name : option string) : File :=
  {| read := readNotSupported; write := writeNotSupported; prestatName := name |}.

Definition sinkFile (fd : Z) : File :=
  {| read := readNotSupported; write := writeSink fd; prestatName := None |}.

(** [await] of a settled promise. *)
Definition await {A} (p : option A) : M A := orThrow Rejected p.

Definition prepareWasi (wasmPath : string) (argStrings : list string)
    (fs : FileSystemNode FileLoader) (onExit : option (Z -> M unit)) : M Imports :=
  let args := map encode (wasmPath :: argStrings) in
  loaded <- loadFileSystem "." fs;;
  root <- await loaded;;
  let fileSystem := Directory [("."%string, root)] in
  modify (with_next_fd 0);;                                   (* [let i = 0] *)
  fd0 <- nextFd;;
  fd1 <- nextFd;;
  fd2 <- nextFd;;
  fd3 <- nextFd;;
  modify (with_openFds
            (<[fd3 := readNotSupportedFile (Some "."%string)]>
               (<[fd2 := sinkFile STDERR]>
                  (<[fd1 := sinkFile STDOUT]>
                     (<[fd0 := readNotSupportedFile None]> ∅)))));;
  ret {| imp_args := args; imp_fileSystem := fileSystem; imp_onExit := onExit |}.

(** [resolve], as the [onExit] callback [runWasi] gives to [prepareWasi]. *)
Definition onExit_resolve : option (Z -> M unit) :=
  Some (fun code => resolve (Some code)).

(** ** The driver: the executor of the promise [runWasi] returns

    [[
    return new Promise(async resolve => {
        const wasi = prepareWasi(binaryPath, args, fs, writeOutput, resolve)
        const imports = await wasi(() => getMemory())
        const { instance } = await loadWasm(imports)
        ...
        startExport()
        resolve(0)
    })
    ]]
    The result of [runWasi] at [host0] is what became of the executor (it
    completed or threw, which rejects the promise of the [async] function
    itself) and the final state, which holds the promise handed to the
    caller. *)

Definition runWasi (loadWasm : Imports -> option Instance)
    (binaryPath : string) (args : list string) (fs : FileSystemNode FileLoader) : M unit :=
  imports <- prepareWasi binaryPath args fs onExit_resolve;;
  instance <- await (loadWasm imports);;
  match memExport instance with
  | None => resolve None
  | Some mem =>
      modify (with_memory mem);;
      match startExport instance with
      | None => resolve None
      | Some start =>
          exec imports start;;
          resolve (Some 0)
      end
  end.

(** ** Notions used to state the properties *)

(** The result of resolving a path: an errno, the file to bind, or, at a
    name inherited from [Object.prototype], [undefined] to bind. *)
Inductive Outcome :=
| Failed (errno : Z)
| Opened (file : File)
| OpenedUndefined.

(** What [openFile] does with an outcome: on failure it returns
    [[0, errno]]; otherwise it draws the next descriptor from the counter,
    binds it to the file, or to [undefined], and returns [[fd, 0]]. *)
Definition commit (o : Outcome) (h : Host) : Result (Z * Z) * Host :=
  match o with
  | Failed errno => (Ok (0, errno), h)
  | Opened file =>
      (Ok (next_fd h, 0),
       with_openFds (<[next_fd h := file]> (openFds h)) (with_next_fd (next_fd h + 1) h))
  | OpenedUndefined =>
      (Ok (next_fd h, 0),
       with_openFds (delete (next_fd h) (openFds h)) (with_next_fd (next_fd h + 1) h))
  end.

(** The next segment of a path: what precedes its first slash. *)
Fixpoint first_segment (path : string) : string :=
  match path with
  | EmptyString => EmptyString
  | String c path' =>
      if Ascii.eqb c "/" then EmptyString else String c (first_segment path')
  end.

(** The remaining path: what follows the first slash. *)
Fixpoint after_first_segment (path : string) : string :=
  match path with
  | EmptyString => EmptyString
  | String c path' =>
      if Ascii.eqb c "/" then path' else after_first_segment path'
  end.

(** The descent of a path, one segment at a time; the path is exhausted
    when nothing of it remains.  The first five rules are those of the
    specification, a child being an entry of the directory; the last two
    are what the code does in addition, at a segment that is not a child
    but the name of an inherited property. *)
Inductive resolves : string -> FileSystemNode File -> Outcome -> Prop :=
| resolves_directory children :
    resolves EmptyString (Directory children) (Failed IS_A_DIRECTORY)
| resolves_file file :
    resolves EmptyString (FileEntry file) (Opened file)
| resolves_past_file path file :
    path <> EmptyString ->
    resolves path (FileEntry file) (Failed NO_SUCH_FILE_OR_DIRECTORY)
| resolves_no_child path children :
    path <> EmptyString ->
    children_get children (first_segment path) = None ->
    inherited (first_segment path) = false ->
    resolves path (Directory children) (Failed NO_SUCH_FILE_OR_DIRECTORY)
| resolves_child path children entry o :
    path <> EmptyString ->
    children_get children (first_segment path) = Some entry ->
    resolves (after_first_segment path) entry o ->
    resolves path (Directory children) o
| resolves_inherited path children :
    path <> EmptyString ->
    children_get children (first_segment path) = None ->
    inherited (first_segment path) = true ->
    after_first_segment path = EmptyString ->
    resolves path (Directory children) OpenedUndefined
| resolves_past_inherited path children :
    path <> EmptyString ->
    children_get children (first_segment path) = None ->
    inherited (first_segment path) = true ->
    after_first_segment path <> EmptyString ->
    resolves path (Directory children) (Failed NO_SUCH_FILE_OR_DIRECTORY).

(** The node found by following names from a node down the tree. *)
Fixpoint node_at (names : list string) (node : FileSystemNode File)
  : option (FileSystemNode File) :=
  match names with
  | [] => Some node
  | name :: names' =>
      match node with
      | FileEntry _ => None
      | Directory children =>
          match children_get children name with
          | None => None
          | Some entry => node_at names' entry
          end
      end
  end.

(** Every descriptor of the table was drawn from the counter. *)
Definition fds_below (h : Host) : Prop :=
  map_Forall (fun fd _ => fd < next_fd h) (openFds h).


(** [m] leaves the observation [f] of the state as it found it, whether it
    returns or raises. *)
Definition preserves {A B : Type} (f : Host -> B) (m : M A) : Prop :=
  forall h, f (snd (m h)) = f h.

(** The leaves of a tree, each with the path its loader is called with. *)
Fixpoint leaves {T} (path : string) (fileSystem : FileSystemNode T) : list (string * T) :=
  match fileSystem with
  | FileEntry file => [(path, file)]
  | Directory children =>
      flat_map (fun '(childPath, node) => leaves (path ++ "/" ++ childPath) node) children
  end.

(** The text a leaf resolves with, if it does. *)
Definition leaf_text (leaf : string * FileLoader) : option string := leaf.2 leaf.1.

(** The events of a running guest. *)
Definition guest_event (e : Event) : Prop :=
  match e with
  | EvLoad _ => False
  | EvCompute | EvCall _ => True
  end.

(** The loader calls of setup: one for each leaf, in order. *)
Definition loads (path : string) (fs : FileSystemNode FileLoader) : list Event :=
  map (fun leaf => EvLoad leaf.1) (leaves path fs).

(** The closure environments setup creates: one for each text loaded. *)
Definition created (path : string) (fs : FileSystemNode FileLoader) : list Cell :=
  map (fun text => {| data := encode text; cursor := 0 |})
      (omap leaf_text (leaves path fs)).

(** Every loader of the tree resolves. *)
Definition all_resolve (path : string) (fs : FileSystemNode FileLoader) : Prop :=
  Forall (fun leaf => is_Some (leaf_text leaf)) (leaves path fs).

(** The byte buffers of the files created so far. *)
Definition buffers (h : Host) : list DataView := map data (cells h).

(** What the imports other than [proc_exit] never touch: the promise, the
    trace and the buffers. *)
Definition view (h : Host) : option (option Z) * list Event * list DataView :=
  (promise h, trace h, buffers h).


(** ** Invariants of a run *)

(** A cursor lies within its buffer. *)
Definition cell_ok (cell : Cell) : Prop :=
  0 <= cursor cell <= byteLength (data cell).

(** The closure a [read] function names exists. *)
Definition file_ok (h : Host) (file : File) : Prop :=
  match read file with
  | readNotSupported => True
  | readCell c => (c < length (cells h))%nat
  end.

(** The state of a run over the tree [fileSystem]: descriptors come from
    the counter, cursors lie within their buffers, and the files of the
    table and of the tree have their closures. *)
Definition host_ok (fileSystem : FileSystemNode File) (h : Host) : Prop :=
  fds_below h
  /\ Forall cell_ok (cells h)
  /\ map_Forall (fun _ file => file_ok h file) (openFds h)
  /\ Forall (fun leaf => file_ok h leaf.2) (leaves EmptyString fileSystem).

(** Table, counter and closures. *)
Definition table (h : Host) : gmap Z File * Z * list Cell :=
  (openFds h, next_fd h, cells h).

(** [h'] has the table and the counter of [h] and as many closures, with
    cursors within their buffers if those of [h] were. *)
Definition steady (h h' : Host) : Prop :=
  openFds h' = openFds h
  /\ next_fd h' = next_fd h
  /\ length (cells h') = length (cells h)
  /\ (Forall cell_ok (cells h) -> Forall cell_ok (cells h')).

(** ** The caller ([compile] of the page) and sample runs *)

(** [C.mapFileSystemNode(v => path => v === null ? fetchFile(path)
    : Promise.resolve(v))(files)] *)
Definition loaders_of (fetchFile : FileLoader) (files : FileSystemNode (option string))
  : FileSystemNode FileLoader :=
  mapFileSystemNode
    (fun v path => match v with
                   | None => fetchFile path
                   | Some text => Some text
                   end)
    files.

(** The tree [{ "main": "fn", "lib": { "a": "abc" } }]. *)
Definition sample_fs : FileSystemNode FileLoader :=
  loaders_of (fun _ => None)
    (Directory [("main"%string, FileEntry (Some "fn"%string));
                ("lib"%string, Directory [("a"%string, FileEntry (Some "abc"%string))])]).

(** An instance with 64 bytes of zeroed memory whose entry point is [g]. *)
Definition instance_of (g : Guest) : Instance :=
  {| memExport := Some (repeat "000"%byte 64); startExport := Some g |}.

(** Storing bytes in linear memory, as guest code does. *)
Definition poke (off : nat) (bs : list byte) (k : Guest) : Guest :=
  Compute (fun m => splice m off bs) k.

(** A guest that calls [proc_exit(42)] and would go on to write. *)
Definition guest_exit : Guest :=
  Call (call_proc_exit 42)
       (fun _ _ => Call (call_fd_write 1 0 0 0) (fun _ _ => Return)).


(** A guest that asks for the sizes of the arguments, then for the
    arguments: the pointer array at offset 32, the buffer at offset 0. *)
Definition guest_args : Guest :=
  Call (call_args_sizes_get 48 52)
       (fun _ _ => Call (call_args_get 32 0) (fun _ _ => Return)).


(** Setup for the sample tree, and the state in which the guest starts. *)
Definition sample_setup : Result Imports * Host :=
  prepareWasi "watim.wasm" ["./test.watim"%string] sample_fs onExit_resolve host0.

Definition sample_imports : Imports :=
  match fst sample_setup with
  | Ok imports => imports
  | Throw _ => {| imp_args := []; imp_fileSystem := Directory []; imp_onExit := None |}
  end.

Definition sample_children : list (string * FileSystemNode File) :=
  match imp_fileSystem sample_imports with
  | Directory children => children
  | FileEntry _ => []
  end.

Definition sample_host : Host :=
  with_memory (repeat "000"%byte 64) (snd sample_setup).

(** A guest that opens ["./lib/a"], a file of three bytes, and asks for
    five bytes to offset 32; and the state before its read. *)
Definition guest_read (k : Guest) : Guest :=
  poke 0 (encode "./lib/a")
    (poke 8 (le_bytes 32 ++ le_bytes 5)
       (Call (call_path_open 3 0 0 7 0 0 0 0 16) (fun _ _ => k))).

Definition sample_opened : Host :=
  snd (exec sample_imports (guest_read Return) sample_host).


(** ** Further notions used to state properties *)

(** The [n] iovecs [(ptr, len)] that the loops of [fd_read] and [fd_write]
    fetch from [iovsPtr + 8 * i] on, if every one lies in the view. *)
Fixpoint iovecs_at (m : DataView) (iovsPtr i : Z) (n : nat) : option (list (Z * Z)) :=
  match n with
  | O => Some []
  | S n' =>
      match getUint32 m (iovsPtr + 8 * i), getUint32 m (iovsPtr + 8 * i + 4) with
      | Some ptr, Some len =>
          match iovecs_at m iovsPtr (i + 1) n' with
          | Some rest => Some ((ptr, len) :: rest)
          | None => None
          end
      | _, _ => None
      end
  end.

(** What [fd_write] hands to a [write] function for an iovec. *)
Definition iovec_data (m : DataView) (iov : Z * Z) : DataView :=
  slice m iov.1 (iov.1 + iov.2).

(** The sum of a list of numbers. *)
Definition total (l : list Z) : Z := fold_right Z.add 0 l.

(** What the buffers of a request take of [bytes], in order: each buffer
    takes as many of the bytes left by those before as it is long. *)
Fixpoint chunks (l : list (Z * Z)) (bytes : list byte) : list (Z * list byte) :=
  match l with
  | [] => []
  | (ptr, len) :: l' =>
      (ptr, take (Z.to_nat len) bytes) :: chunks l' (drop (Z.to_nat len) bytes)
  end.

(** Writing chunks to a view, in order. *)
Definition scatter (m : DataView) (cs : list (Z * list byte)) : DataView :=
  fold_left (fun m c => splice m (Z.to_nat c.1) c.2) cs m.

(** A chunk fits: it is empty, or it lies in the view and off the array of
    [n] iovecs at [iovsPtr]. *)
Definition chunk_ok (m : DataView) (iovsPtr n : Z) (c : Z * list byte) : Prop :=
  c.2 = []
  \/ (c.1 + byteLength c.2 <= byteLength m
      /\ (c.1 + byteLength c.2 <= iovsPtr \/ iovsPtr + 8 * n <= c.1)).

(** [transform] of the page: a plain object is a directory, a string is
    a file with that text, [undefined] a file to fetch ([node ?? null]). *)
Inductive Node :=
| NodeDir (entries : list (string * Node))
| NodeFile (text : option string).

Fixpoint transform (node : Node) : FileSystemNode (option string) :=
  match node with
  | NodeDir entries => Directory (map (fun '(k, v) => (k, transform v)) entries)
  | NodeFile text => FileEntry text
  end.

(** The file [createFile] returns for the closure [c]. *)
Definition created_file (c : nat) : File :=
  {| read := readCell c; write := writeNotSupported; prestatName := None |}.

(** The files a descriptor can be bound to in a run: the four that setup
    installs, each under its number, and files of the tree from 4 on. *)
Definition std_binding (fd : Z) (file : File) : Prop :=
  (fd = 0 /\ file = readNotSupportedFile None)
  \/ (fd = 1 /\ file = sinkFile STDOUT)
  \/ (fd = 2 /\ file = sinkFile STDERR)
  \/ (fd = 3 /\ file = readNotSupportedFile (Some "."%string))
  \/ (4 <= fd /\ exists c, file = created_file c).

(** The table of a run over [fileSystem]: every binding is one of those,
    and the leaves of the tree are files made by [createFile]. *)
Definition table_ok (fileSystem : FileSystemNode File) (h : Host) : Prop :=
  map_Forall std_binding (openFds h)
  /\ 4 <= next_fd h
  /\ Forall (fun leaf => exists c, leaf.2 = created_file c) (leaves EmptyString fileSystem).

(** Every call of [writeOutput] so far was tagged 1 or 2. *)
Definition output_ok (h : Host) : Prop :=
  Forall (fun entry => entry.1 = STDOUT \/ entry.1 = STDERR) (output h).


(** Requests made one after the other of the function [cached(f)]
    returns, each awaited before the next is made: the answers, the cache
    afterwards and the calls made to [f]. *)
Fixpoint cached_all (f : FileLoader) (requests : list string) (cache : gmap string string)
  : list (option string) * gmap string string * list string :=
  match requests with
  | [] => ([], cache, [])
  | i :: rest =>
      let '(answer, cache1, calls1) := cached f i cache in
      let '(answers, cache2, calls2) := cached_all f rest cache1 in
      (answer :: answers, cache2, calls1 ++ calls2)
  end.

(** The loader the page gives a file of its tree: the text it holds, or
    [fetchFile] at the path the loader is called with. *)
Definition page_text (fetchFile : FileLoader) (leaf : string * option string) : option string :=
  match leaf.2 with
  | None => fetchFile leaf.1
  | Some text => Some text
  end.

(** ** Sample states for the further properties *)

(** The state in which the sample guest starts, with the text ["hi!"] at
    offset 0 of the memory, two iovecs at offset 8 (three bytes from 0, two
    bytes from 1) and one in the last eight bytes of the memory (three
    bytes from 0). *)
Definition sample_write : Host :=
  with_memory
    (splice
       (splice (splice (repeat "000"%byte 64) 0 (encode "hi!"))
          8 (le_bytes 0 ++ le_bytes 3 ++ le_bytes 1 ++ le_bytes 2))
       56 (le_bytes 0 ++ le_bytes 3))
    (snd sample_setup).


(** The state in which the sample guest starts, with the path ["./lib/a"]
    at offset 0 of the memory. *)
Definition sample_path : Host :=
  with_memory (splice (repeat "000"%byte 64) 0 (encode "./lib/a")) (snd sample_setup).

(** A tree of the page with a file to fetch:
    [{ "test.watim": "fn", "std": { "io.watim": undefined } }]. *)
Definition sample_page : Node :=
  NodeDir [("test.watim"%string, NodeFile (Some "fn"%string));
           ("std"%string, NodeDir [("io.watim"%string, NodeFile None)])].

(** A server that has [./std/io.watim] only. *)
Definition sample_fetch : FileLoader :=
  fun path => if String.eqb path "./std/io.watim" then Some "io"%string else None.

(** A guest that reads through a descriptor that is not open. *)
Definition guest_bad : Guest :=
  Call (call_fd_read 9 8 1 20) (fun _ _ => Return).




(** A guest that opens ["./toString"] and reads through the descriptor
    it is given. *)
Definition guest_inherited : Guest :=
  poke 0 (encode "./toString")
    (Call (call_path_open 3 0 0 10 0 0 0 0 16)
       (fun _ m =>
          Call (call_fd_read (le_value (take 4 (drop 16 m))) 8 1 20)
            (fun _ _ => Return))).

(** The state after the open of [guest_read], with two iovecs at offset
    8 that ask for no more than the file holds: two bytes to offset 32, one
    byte to offset 40. *)
Definition sample_exact : Host :=
  with_memory
    (splice (memory sample_opened) 8 (le_bytes 32 ++ le_bytes 2 ++ le_bytes 40 ++ le_bytes 1))
    sample_opened.

(** * Properties *)

(** ** Strings and paths *)

Lemma split_nonempty (sep : ascii) (p : string) : split sep p <> [].
Proof.
  destruct p as [|c p]; simpl; [discriminate|].
  destruct (Ascii.eqb c sep); [discriminate|].
  destruct (split sep p); discriminate.
Qed.

Lemma join_split (sep : ascii) (p : string) : join sep (split sep p) = p.
Proof.
  induction p as [|c p IH]; simpl; [reflexivity|].
  pose proof (split_nonempty sep p) as Hne.
  destruct (Ascii.eqb c sep) eqn:E.
  - apply Ascii.eqb_eq in E. subst c.
    destruct (split sep p) as [|x r]; [contradiction|].
    simpl in *. now rewrite IH.
  - destruct (split sep p) as [|x r]; [contradiction|].
    destruct r; simpl in *; now rewrite <- IH.
Qed.

(** A path that was fetched once is served from the cache: the loader
    is not called again. *)
Lemma cached_memo (f : FileLoader) (i : string) (cache cache' : gmap string string)
    (v : string) (calls : list string) :
  cached f i cache = (Some v, cache', calls) ->
  cached f i cache' = (Some v, cache', []).
Proof.
  unfold cached. destruct (cache !! i) as [w|] eqn:E.
  - intros [= -> <- _]. now rewrite E.
  - destruct (f i) as [nv|]; [|discriminate].
    intros [= -> <- _]. now rewrite lookup_insert_eq.
Qed.

(** ** Bytes and views *)

Lemma toUint8_ofUint8 (b : byte) : toUint8 (ofUint8 b) = b.
Proof.
  unfold toUint8, ofUint8.
  pose proof (Byte.to_N_bounded b) as Hb.
  rewrite Z.mod_small by lia.
  rewrite N2Z.id, Byte.of_to_N. reflexivity.
Qed.

Lemma ofUint8_range (b : byte) : 0 <= ofUint8 b < 256.
Proof. unfold ofUint8. pose proof (Byte.to_N_bounded b). lia. Qed.

Lemma ofUint8_toUint8 (x : Z) : ofUint8 (toUint8 x) = x mod 256.
Proof.
  unfold toUint8, ofUint8.
  pose proof (Z.mod_pos_bound x 256 ltac:(lia)) as Hx.
  destruct (Byte.of_N (Z.to_N (x mod 256))) as [b|] eqn:E; simpl.
  - apply Byte.to_of_N in E. rewrite E. lia.
  - apply Byte.of_N_None_iff in E. lia.
Qed.

Lemma byteLength_nonneg (v : DataView) : 0 <= byteLength v.
Proof. unfold byteLength. lia. Qed.

Lemma splice_nil (v : DataView) (off : nat) : splice v off [] = v.
Proof. unfold splice. simpl. rewrite Nat.add_0_r. apply take_drop. Qed.

Lemma length_splice (v : DataView) (off : nat) (bs : list byte) :
  (off + length bs <= length v)%nat -> length (splice v off bs) = length v.
Proof.
  intros H. unfold splice. rewrite !length_app, length_take, length_drop. lia.
Qed.

Lemma splice_insert (v : DataView) (d : nat) (b : byte) (bs : list byte) :
  (d < length v)%nat ->
  splice (<[d := b]> v) (S d) bs = splice v d (b :: bs).
Proof.
  intros H. unfold splice.
  rewrite (take_S_r _ d b) by (now apply list_lookup_insert_eq).
  rewrite take_insert_ge by lia.
  rewrite drop_insert_lt by lia.
  rewrite <- app_assoc. simpl.
  replace (d + S (length bs))%nat with (S (d + length bs)) by lia. reflexivity.
Qed.

Lemma copy_loop_spec (srcBuf : DataView) (src dst len : Z) (iters : nat) :
  0 <= src -> 0 <= dst ->
  forall (i : Z) (dstBuf : DataView),
    0 <= i <= len -> iters = Z.to_nat (len - i) ->
    let k := Z.max 0 (Z.min (len - i)
                        (Z.min (byteLength srcBuf - (src + i)) (byteLength dstBuf - (dst + i)))) in
    copy_loop iters srcBuf dstBuf src dst len i =
      (Ok (i + k),
       splice dstBuf (Z.to_nat (dst + i)) (take (Z.to_nat k) (drop (Z.to_nat (src + i)) srcBuf))).
Proof.
  intros Hsrc Hdst. induction iters as [|n IH]; intros i dstBuf Hi Hn k; simpl.
  - assert (k = 0) by lia. replace (Z.to_nat k) with O by lia.
    rewrite take_0, splice_nil. do 2 f_equal. lia.
  - pose proof (byteLength_nonneg srcBuf). pose proof (byteLength_nonneg dstBuf).
    destruct (Z.geb_spec (src + i) (byteLength srcBuf)) as [Hs|Hs].
    { assert (k = 0) by lia. replace (Z.to_nat k) with O by lia.
      rewrite take_0, splice_nil. do 2 f_equal. lia. }
    destruct (Z.geb_spec (dst + i) (byteLength dstBuf)) as [Hd|Hd].
    { assert (k = 0) by lia. replace (Z.to_nat k) with O by lia.
      rewrite take_0, splice_nil. do 2 f_equal. lia. }
    unfold byteLength in *.
    destruct (lookup_lt_is_Some_2 srcBuf (Z.to_nat (src + i)) ltac:(lia)) as [b Hb].
    unfold getUint8, setUint8, in_bounds, byteLength.
    rewrite (proj2 (Z.leb_le 0 (src + i))) by lia.
    rewrite (proj2 (Z.leb_le (src + i + 1) _)) by lia.
    rewrite (proj2 (Z.leb_le 0 (dst + i))) by lia.
    rewrite (proj2 (Z.leb_le (dst + i + 1) _)) by lia.
    simpl. rewrite Hb. simpl. rewrite toUint8_ofUint8.
    rewrite IH by lia. unfold byteLength. rewrite length_insert.
    set (k' := Z.max 0 _).
    assert (Hk : k = k' + 1) by (unfold k, k', byteLength; lia).
    assert (0 <= k') by (unfold k'; lia).
    replace (Z.to_nat (dst + (i + 1))) with (S (Z.to_nat (dst + i))) by lia.
    replace (Z.to_nat (src + (i + 1))) with (S (Z.to_nat (src + i))) by lia.
    rewrite splice_insert by lia.
    rewrite (drop_S _ _ _ Hb).
    replace (Z.to_nat k) with (S (Z.to_nat k')) by lia.
    simpl. do 2 f_equal. lia.
Qed.

(** What [copy] returns and writes. *)
Lemma copy_exact (srcBuf dstBuf : DataView) (src dst len : Z) :
  0 <= src -> 0 <= dst ->
  (0 <= len ->
   let n := copy_count srcBuf dstBuf src dst len in
   copy srcBuf dstBuf src dst len =
     (Ok n, splice dstBuf (Z.to_nat dst) (take (Z.to_nat n) (drop (Z.to_nat src) srcBuf)))
   /\ length (take (Z.to_nat n) (drop (Z.to_nat src) srcBuf)) = Z.to_nat n
   /\ length (snd (copy srcBuf dstBuf src dst len)) = length dstBuf)
  /\ (len < 0 -> copy srcBuf dstBuf src dst len = (Ok len, dstBuf)).
Proof.
  intros Hsrc Hdst. split.
  - intros Hlen n.
    pose proof (byteLength_nonneg srcBuf). pose proof (byteLength_nonneg dstBuf).
    assert (E : copy srcBuf dstBuf src dst len =
      (Ok n, splice dstBuf (Z.to_nat dst) (take (Z.to_nat n) (drop (Z.to_nat src) srcBuf)))).
    { unfold copy.
      rewrite (copy_loop_spec srcBuf src dst len (Z.to_nat len) Hsrc Hdst 0 dstBuf)
        by (try split; try f_equal; lia).
      rewrite !Z.add_0_r, !Z.sub_0_r, Z.add_0_l. reflexivity. }
    assert (L : length (take (Z.to_nat n) (drop (Z.to_nat src) srcBuf)) = Z.to_nat n).
    { rewrite length_take, length_drop. unfold n, copy_count, byteLength in *. lia. }
    split; [exact E|]. split; [exact L|].
    rewrite E. simpl. destruct (Z.eq_dec n 0) as [Hn|Hn].
    + rewrite Hn. simpl. now rewrite splice_nil.
    + apply length_splice. rewrite L. unfold n, copy_count, byteLength in *. lia.
  - intros Hlen. unfold copy. replace (Z.to_nat len) with O by lia. reflexivity.
Qed.

(** C8 (as amended).  For offsets [src], [dst] that are not negative
    (they may lie beyond either buffer) and a length [len] that is not
    negative, [copy] raises nothing, which is to say it makes no access
    outside either buffer, copies exactly
    [max(0, min(len, srcLen - src, dstLen - dst))] bytes, the destination
    being otherwise unchanged, and returns that count.  For a negative
    [len] it copies nothing and returns [len] itself. *)
Theorem copy_spec (srcBuf dstBuf : DataView) (src dst len : Z) :
  0 <= src -> 0 <= dst ->
  (0 <= len ->
   let n := copy_count srcBuf dstBuf src dst len in
   copy srcBuf dstBuf src dst len =
     (Ok n, splice dstBuf (Z.to_nat dst) (take (Z.to_nat n) (drop (Z.to_nat src) srcBuf)))
   /\ length (take (Z.to_nat n) (drop (Z.to_nat src) srcBuf)) = Z.to_nat n
   /\ length (snd (copy srcBuf dstBuf src dst len)) = length dstBuf)
  /\ (len < 0 -> copy srcBuf dstBuf src dst len = (Ok len, dstBuf)).
Proof.
  intros Hsrc Hdst. split.
  - intros Hlen n.
    pose proof (byteLength_nonneg srcBuf). pose proof (byteLength_nonneg dstBuf).
    assert (E : copy srcBuf dstBuf src dst len =
      (Ok n, splice dstBuf (Z.to_nat dst) (take (Z.to_nat n) (drop (Z.to_nat src) srcBuf)))).
    { unfold copy.
      rewrite (copy_loop_spec srcBuf src dst len (Z.to_nat len) Hsrc Hdst 0 dstBuf)
        by (try split; try f_equal; lia).
      rewrite !Z.add_0_r, !Z.sub_0_r, Z.add_0_l. reflexivity. }
    assert (L : length (take (Z.to_nat n) (drop (Z.to_nat src) srcBuf)) = Z.to_nat n).
    { rewrite length_take, length_drop. unfold n, copy_count, byteLength in *. lia. }
    split; [exact E|]. split; [exact L|].
    rewrite E. simpl. destruct (Z.eq_dec n 0) as [Hn|Hn].
    + rewrite Hn. simpl. now rewrite splice_nil.
    + apply length_splice. rewrite L. unfold n, copy_count, byteLength in *. lia.
  - intros Hlen. unfold copy. replace (Z.to_nat len) with O by lia. reflexivity.
Qed.

Lemma copy_spec_witness :
  copy ["097"; "098"; "099"]%byte ["000"; "000"; "000"; "000"]%byte 1 2 5 =
    (Ok 2, ["000"; "000"; "098"; "099"]%byte).
Proof.
  destruct (copy_spec ["097"; "098"; "099"]%byte ["000"; "000"; "000"; "000"]%byte 1 2 5
              ltac:(lia) ltac:(lia)) as [H _].
  destruct (H ltac:(lia)) as [E _]. exact E.
Defined.

(** C8 as stated fails for a negative length: no byte is copied, and the
    value returned is [len], not the number of bytes copied.  It also fails
    for a negative offset, where the access raises [RangeError]. *)
Lemma copy_counterexample :
  fst (copy ["001"]%byte ["000"]%byte 0 0 (-1)) = Ok (-1)
  /\ fst (copy ["001"]%byte ["000"]%byte 0 0 (-1))
     <> Ok (copy_count ["001"]%byte ["000"]%byte 0 0 (-1))
  /\ fst (copy ["001"]%byte ["000"]%byte 0 (-1) 1) = Throw RangeError
  /\ copy_count ["001"]%byte ["000"]%byte 0 (-1) 1 = 1.
Proof. repeat split. discriminate. Qed.

(** ** Opening a path *)

Lemma openFile_body (path : string) (fileSystem : FileSystemNode File) :
  openFile path fileSystem =
    match splits_of path with
    | [] =>
        match fileSystem with
        | Directory _ => ret (0, IS_A_DIRECTORY)
        | FileEntry file => fd <- nextFd;; bindFd fd file;; ret (fd, 0)
        end
    | s :: rest =>
        match fileSystem with
        | FileEntry _ => ret (0, NO_SUCH_FILE_OR_DIRECTORY)
        | Directory children =>
            match children_index children s with
            | NoEntry => ret (0, NO_SUCH_FILE_OR_DIRECTORY)
            | InheritedEntry => openFile_inherited (join "/" rest)
            | OwnEntry entry => openFile (join "/" rest) entry
            end
        end
    end.
Proof.
  funelim (openFile path fileSystem).
  all: try rewrite <- Heqcall.
  all: match goal with E : splits_of _ = _ |- _ => rewrite E end.
  all: try match goal with E : children_index _ _ = _ |- _ => rewrite E end.
  all: reflexivity.
Qed.


Lemma splits_of_nonempty (path : string) :
  path <> EmptyString -> splits_of path = split "/" path.
Proof. destruct path; [congruence | reflexivity]. Qed.

Lemma split_first_segment (path : string) :
  exists rest, split "/" path = first_segment path :: rest
               /\ join "/" rest = after_first_segment path.
Proof.
  induction path as [|c path [rest [Hs Hj]]]; simpl.
  - exists []. split; reflexivity.
  - destruct (Ascii.eqb c "/").
    + exists (split "/" path). split; [reflexivity | apply join_split].
    + rewrite Hs. exists rest. split; [reflexivity | exact Hj].
Qed.

Lemma after_first_segment_shorter (path : string) :
  path <> EmptyString ->
  (String.length (after_first_segment path) < String.length path)%nat.
Proof.
  induction path as [|c path IH]; [congruence|]. intros _. simpl.
  destruct (Ascii.eqb c "/"); [lia|].
  destruct path; [simpl; lia|]. specialize (IH ltac:(discriminate)). lia.
Qed.

(** One step of [openFile] on a path of which something remains. *)
Lemma openFile_step (path : string) (fileSystem : FileSystemNode File) :
  path <> EmptyString ->
  openFile path fileSystem =
    match fileSystem with
    | FileEntry _ => ret (0, NO_SUCH_FILE_OR_DIRECTORY)
    | Directory children =>
        match children_index children (first_segment path) with
        | NoEntry => ret (0, NO_SUCH_FILE_OR_DIRECTORY)
        | InheritedEntry => openFile_inherited (after_first_segment path)
        | OwnEntry entry => openFile (after_first_segment path) entry
        end
    end.
Proof.
  intros Hne. rewrite openFile_body, splits_of_nonempty by exact Hne.
  destruct (split_first_segment path) as [rest [-> <-]]. reflexivity.
Qed.

(** [openFile] at an inherited value. *)
Lemma openFile_inherited_spec (path : string) (h : Host) :
  openFile_inherited path h =
    commit (if decide (path = EmptyString) then OpenedUndefined
            else Failed NO_SUCH_FILE_OR_DIRECTORY) h.
Proof.
  unfold openFile_inherited. destruct path as [|c path]; [reflexivity|].
  rewrite splits_of_nonempty by discriminate.
  pose proof (split_nonempty "/" (String c path)) as Hne.
  destruct (split "/" (String c path)); [contradiction | reflexivity].
Qed.

Lemma inherited_In (name : string) : inherited name = true <-> In name inherited_names.
Proof.
  unfold inherited. rewrite existsb_exists. split.
  - intros [x [Hin E]]. apply String.eqb_eq in E. now subst x.
  - intros Hin. exists name. split; [exact Hin | apply String.eqb_refl].
Qed.

Lemma not_inherited (name : string) : ~ In name inherited_names -> inherited name = false.
Proof.
  intros Hin. destruct (inherited name) eqn:E; [|reflexivity].
  now apply inherited_In in E.
Qed.

(** [children[name]] by cases. *)
Lemma children_index_cases {T} (children : list (string * FileSystemNode T)) (name : string) :
  (exists node, children_get children name = Some node
                /\ children_index children name = OwnEntry node)
  \/ (children_get children name = None /\ inherited name = true
      /\ children_index children name = InheritedEntry)
  \/ (children_get children name = None /\ inherited name = false
      /\ children_index children name = NoEntry).
Proof.
  unfold children_index. destruct (children_get children name) as [node|].
  - left. now exists node.
  - destruct (inherited name); [right; left | right; right]; repeat split.
Qed.

Lemma openFile_exhausted (fileSystem : FileSystemNode File) (h : Host) :
  openFile EmptyString fileSystem h =
    commit match fileSystem with
           | FileEntry file => Opened file
           | Directory _ => Failed IS_A_DIRECTORY
           end h.
Proof. rewrite openFile_body. destruct fileSystem; reflexivity. Qed.

Lemma openFile_resolves (path : string) :
  forall (fileSystem : FileSystemNode File) (h : Host),
  exists o, resolves path fileSystem o /\ openFile path fileSystem h = commit o h.
Proof.
  remember (String.length path) as n eqn:Hn. revert path Hn.
  induction n as [n IH] using lt_wf_ind. intros path Hn fileSystem h.
  destruct (string_dec path EmptyString) as [->|Hne].
  - rewrite openFile_exhausted. destruct fileSystem; eexists; split; try reflexivity; constructor.
  - rewrite (openFile_step path fileSystem Hne).
    destruct fileSystem as [file|children].
    + exists (Failed NO_SUCH_FILE_OR_DIRECTORY). split; [now constructor | reflexivity].
    + destruct (children_index_cases children (first_segment path))
        as [[entry [E ->]] | [[E [Hi ->]] | [E [Hi ->]]]].
      * pose proof (after_first_segment_shorter path Hne) as Hlt.
        destruct (IH _ ltac:(subst n; exact Hlt) _ eq_refl entry h) as [o [Hr Ho]].
        exists o. split; [|exact Ho]. eapply resolves_child; eassumption.
      * rewrite openFile_inherited_spec. eexists. split; [|reflexivity].
        case_decide; [now apply resolves_inherited | now apply resolves_past_inherited].
      * exists (Failed NO_SUCH_FILE_OR_DIRECTORY).
        split; [now apply resolves_no_child | reflexivity].
Qed.

Lemma fds_below_fresh (h : Host) : fds_below h -> openFds h !! next_fd h = None.
Proof.
  intros Hb. destruct (openFds h !! next_fd h) as [f|] eqn:E; [|reflexivity].
  apply Hb in E. lia.
Qed.

Lemma fds_below_commit (o : Outcome) (h : Host) :
  fds_below h -> fds_below (snd (commit o h)).
Proof.
  intros Hb. destruct o as [errno|file|]; simpl; [exact Hb| |].
  - unfold fds_below. simpl. apply map_Forall_insert_2; [lia|].
    intros fd f Hf. apply Hb in Hf. simpl in Hf. lia.
  - unfold fds_below. simpl. apply map_Forall_delete.
    intros fd f Hf. apply Hb in Hf. simpl in Hf. lia.
Qed.

Lemma resolves_deterministic (path : string) (fileSystem : FileSystemNode File) (o1 o2 : Outcome) :
  resolves path fileSystem o1 -> resolves path fileSystem o2 -> o1 = o2.
Proof.
  intros Hres1. revert o2.
  induction Hres1; intros o2 Hres2; inversion Hres2; subst; try congruence.
  apply IHHres1. congruence.
Qed.

(** X24.  Whatever the tree and the path, [openFile] returns what the
    descent of the path gives, and the descent gives one outcome only:
    errno 44 when the next segment is neither a child of the current
    directory nor an inherited name, when something of the path remains at
    a file, or when something remains after an inherited name; errno 31
    when the path is exhausted at a directory; and errno 0 with the next
    descriptor of the counter, which is not in the table yet, when it is
    exhausted at a file, to which the descriptor is bound, or at an
    inherited name. *)
Theorem openFile_spec (path : string) (fileSystem : FileSystemNode File) (h : Host) :
  fds_below h ->
  (exists o, resolves path fileSystem o)
  /\ (forall o, resolves path fileSystem o -> openFile path fileSystem h = commit o h)
  /\ openFds h !! next_fd h = None
  /\ fds_below (snd (openFile path fileSystem h)).
Proof.
  intros Hb. destruct (openFile_resolves path fileSystem h) as [o [Hr Ho]].
  split; [now exists o|]. split; [|split].
  - intros o' Hr'. now rewrite (resolves_deterministic _ _ _ _ Hr' Hr).
  - now apply fds_below_fresh.
  - rewrite Ho. now apply fds_below_commit.
Qed.

(** A path either has no slash, and is its own first segment, or splits at
    its first slash. *)
Lemma split_cases (p : string) :
  (split "/" p = [p]
   /\ forall t, first_segment (p ++ String "/" t) = p
                /\ after_first_segment (p ++ String "/" t) = t)
  \/ (split "/" p = first_segment p :: split "/" (after_first_segment p)
      /\ (String.length (after_first_segment p) < String.length p)%nat
      /\ forall t, first_segment (p ++ t) = first_segment p
                   /\ after_first_segment (p ++ t) = (after_first_segment p ++ t)%string).
Proof.
  induction p as [|c p IH]; simpl.
  - left. split; [reflexivity|]. intros t. split; reflexivity.
  - destruct (Ascii.eqb c "/") eqn:E.
    + right. split; [reflexivity|]. split; [lia|]. intros t. split; reflexivity.
    + destruct IH as [[Hs Ht] | [Hs [Hl Ht]]].
      * left. rewrite Hs. split; [reflexivity|]. intros t.
        destruct (Ht t) as [-> ->]. split; reflexivity.
      * right. rewrite Hs. split; [reflexivity|]. split; [lia|]. intros t.
        destruct (Ht t) as [-> ->]. split; reflexivity.
Qed.

(** A path that has a slash is its first segment, a slash, and the rest. *)
Lemma first_slash_after (p : string) :
  split "/" p = first_segment p :: split "/" (after_first_segment p) ->
  p = (first_segment p ++ String "/" (after_first_segment p))%string.
Proof.
  intros Hs. pose proof (join_split "/" p) as J. rewrite Hs in J.
  pose proof (split_nonempty "/" (after_first_segment p)) as Hne.
  destruct (split "/" (after_first_segment p)) as [|y r] eqn:E; [contradiction|].
  change (join "/" (first_segment p :: y :: r))
    with (first_segment p ++ String "/" (join "/" (y :: r)))%string in J.
  rewrite <- E, join_split in J. now symmetry.
Qed.

Lemma append_slash_nonempty (p t : string) : (p ++ String "/" t)%string <> EmptyString.
Proof. destruct p; discriminate. Qed.

Lemma children_index_own {T} (children : list (string * FileSystemNode T))
    (name : string) (node : FileSystemNode T) :
  children_get children name = Some node -> children_index children name = OwnEntry node.
Proof. unfold children_index. now intros ->. Qed.

(** Descending along the entries named by [p]. *)
Lemma openFile_under (p : string) :
  forall (node node' : FileSystemNode File) (t : string) (h : Host),
    node_at (split "/" p) node = Some node' ->
    openFile (p ++ String "/" t) node h = openFile t node' h.
Proof.
  remember (String.length p) as n eqn:Hn. revert p Hn.
  induction n as [n IH] using lt_wf_ind. intros p Hn node node' t h Hat.
  rewrite (openFile_step _ node (append_slash_nonempty p t)).
  destruct (split_cases p) as [[Hs Ht] | [Hs [Hl Ht]]].
  - rewrite Hs in Hat. destruct (Ht t) as [-> ->]. simpl in Hat.
    destruct node as [|children]; [discriminate|].
    destruct (children_get children p) as [entry|] eqn:E; [|discriminate].
    injection Hat as ->. now rewrite (children_index_own _ _ _ E).
  - rewrite Hs in Hat. destruct (Ht (String "/" t)) as [-> ->]. simpl in Hat.
    destruct node as [|children]; [discriminate|].
    destruct (children_get children (first_segment p)) as [entry|] eqn:E; [|discriminate].
    rewrite (children_index_own _ _ _ E).
    apply (IH (String.length (after_first_segment p)) ltac:(lia) _ eq_refl). exact Hat.
Qed.

Lemma openFile_past_leaf (p : string) :
  forall (node : FileSystemNode File) (file : File) (t : string) (h : Host),
    node_at (split "/" p) node = Some (FileEntry file) ->
    openFile (p ++ String "/" t) node h =
      if decide (t = EmptyString) then commit (Opened file) h
      else (Ok (0, NO_SUCH_FILE_OR_DIRECTORY), h).
Proof.
  intros node file t h Hat. rewrite (openFile_under p node _ t h Hat).
  case_decide as Et.
  - subst t. apply openFile_exhausted.
  - rewrite (openFile_step t _ Et). reflexivity.
Qed.

Lemma children_get_None {T} (children : list (string * FileSystemNode T)) (name : string) :
  (forall node, ~ In (name, node) children) -> children_get children name = None.
Proof.
  induction children as [|[k n] children IH]; intros Hnot; [reflexivity|].
  simpl. destruct (String.eqb_spec k name) as [->|_].
  - exfalso. apply (Hnot n). now left.
  - apply IH. intros node Hin. apply (Hnot node). now right.
Qed.

Lemma inherited_no_slash (name : string) :
  In name inherited_names ->
  name <> EmptyString /\ first_segment name = name /\ after_first_segment name = EmptyString.
Proof.
  unfold inherited_names. simpl.
  intros H. repeat (destruct H as [<-|H]; [repeat split; discriminate|]). destruct H.
Qed.

(** C3.  The claim fails at a segment that is not among the children of
    the current directory but is the name of a property that every
    JavaScript object inherits ([toString], [constructor], [__proto__],
    ...): [children[name]] is not [undefined] there, and [openFile],
    instead of returning errno 44, draws the next descriptor, binds it to
    [undefined] and returns errno 0, at a directory of any depth and with
    or without a slash after the name.  A read or a write through that
    descriptor then raises. *)
Theorem openFile_inherited_name (children : list (string * FileSystemNode File))
    (name : string) (h : Host) :
  In name inherited_names ->
  (forall node, ~ In (name, node) children) ->
  let opened :=
    with_openFds (delete (next_fd h) (openFds h)) (with_next_fd (next_fd h + 1) h) in
  openFile name (Directory children) h = (Ok (next_fd h, 0), opened)
  /\ openFile (name ++ "/") (Directory children) h = (Ok (next_fd h, 0), opened)
  /\ (forall (p : string) (root : FileSystemNode File),
        node_at (split "/" p) root = Some (Directory children) ->
        openFile (p ++ "/" ++ name) root h = (Ok (next_fd h, 0), opened))
  /\ (forall iovsPtr iovsLen outPtr,
        fd_read (next_fd h) iovsPtr iovsLen outPtr opened = (Throw (NotOpen (next_fd h)), opened)
        /\ fd_write (next_fd h) iovsPtr iovsLen outPtr opened
           = (Throw (NotOpen (next_fd h)), opened)).
Proof.
  intros Hin Hnot opened.
  destruct (inherited_no_slash name Hin) as [Hne [Hf Ha]].
  pose proof (proj2 (inherited_In name) Hin) as Hi.
  pose proof (children_get_None children name Hnot) as Hget.
  assert (E : openFile name (Directory children) h = (Ok (next_fd h, 0), opened)).
  { rewrite (openFile_step name _ Hne), Hf, Ha. unfold children_index.
    rewrite Hget, Hi. reflexivity. }
  split; [exact E|]. split; [|split].
  - rewrite (openFile_step _ _ (append_slash_nonempty name EmptyString)).
    destruct (split_cases name) as [[_ Ht] | [Hs _]].
    + destruct (Ht EmptyString) as [-> ->]. unfold children_index.
      rewrite Hget, Hi. reflexivity.
    + exfalso. pose proof (first_slash_after name Hs) as Hp. rewrite Hf, Ha in Hp.
      clear -Hp. induction name as [|x name IH]; [discriminate Hp|].
      injection Hp as Hp. exact (IH Hp).
  - intros p root Hat.
    change (p ++ "/" ++ name)%string with (p ++ String "/" name)%string.
    rewrite (openFile_under p root _ name h Hat). exact E.
  - intros iovsPtr iovsLen outPtr. unfold fd_read, fd_write, bind, gets, throw.
    unfold opened. cbn [openFds with_openFds with_next_fd]. rewrite lookup_delete_eq.
    split; reflexivity.
Qed.

Lemma openFile_inherited_name_witness :
  let children := [("main"%string, FileEntry (created_file 0));
                   ("lib"%string, Directory [("a"%string, FileEntry (created_file 1))])] in
  let opened := snd (openFile "./toString" (imp_fileSystem sample_imports) sample_host) in
  imp_fileSystem sample_imports = Directory [("."%string, Directory children)]
  /\ openFile "./toString" (imp_fileSystem sample_imports) sample_host = (Ok (4, 0), opened)
  /\ openFds opened !! 4 = None
  /\ next_fd opened = 5
  /\ fd_read 4 8 1 20 opened = (Throw (NotOpen 4), opened)
  /\ openFile "./nowhere" (imp_fileSystem sample_imports) sample_host
     = (Ok (0, NO_SUCH_FILE_OR_DIRECTORY), sample_host).
Proof.
  intros children opened.
  destruct (openFile_inherited_name children "toString" sample_host)
    as [_ [_ [Hdeep Hread]]].
  - simpl. tauto.
  - intros node [H|[H|[]]]; discriminate H.
  - assert (Ef : imp_fileSystem sample_imports = Directory [("."%string, Directory children)])
      by (vm_compute; reflexivity).
    pose proof (Hdeep "." (Directory [("."%string, Directory children)]) eq_refl) as Hd.
    change ("." ++ "/" ++ "toString")%string with "./toString"%string in Hd.
    rewrite <- Ef in Hd.
    assert (Es : opened = with_openFds (delete (next_fd sample_host) (openFds sample_host))
                            (with_next_fd (next_fd sample_host + 1) sample_host))
      by (unfold opened; now rewrite Hd).
    split; [exact Ef|]. split; [rewrite Hd, Es; reflexivity|].
    split; [rewrite Es; vm_compute; reflexivity|].
    split; [rewrite Es; vm_compute; reflexivity|].
    split.
    + rewrite Es. exact (proj1 (Hread 8 1 20)).
    + vm_compute. reflexivity.
Defined.

(** C3 in a run.  The guest opens ["./toString"] in the sample tree,
    which has no such file: [path_open] returns errno 0, not 44, and stores
    the descriptor 4; the read the guest then makes through descriptor 4
    raises, which ends the run with the promise still pending. *)
Lemma inherited_name_counterexample :
  let run := runWasi (fun _ => Some (instance_of guest_inherited))
               "watim.wasm" ["./test.watim"%string] sample_fs host0 in
  let h := with_memory (splice (repeat "000"%byte 64) 0 (encode "./toString"))
             (snd sample_setup) in
  fst (path_open (imp_fileSystem sample_imports) 3 0 0 10 0 0 0 0 16 h) = Ok 0
  /\ fst (path_open (imp_fileSystem sample_imports) 3 0 0 10 0 0 0 0 16 h)
     <> Ok NO_SUCH_FILE_OR_DIRECTORY
  /\ trace (snd run) =
       [EvLoad "./main"; EvLoad "./lib/a"; EvCompute;
        EvCall (call_path_open 3 0 0 10 0 0 0 0 16); EvCall (call_fd_read 4 8 1 20)]
  /\ fst run = Throw (NotOpen 4)
  /\ promise (snd run) = None.
Proof. vm_compute. repeat split. discriminate. Qed.

(** C10.  When the names of the path [p] lead from the root to a file,
    opening [p] followed by one slash succeeds and binds the next
    descriptor to that file; opening [p] extended by a slash and anything
    that is not empty fails with errno 44; and opening the empty path at
    the root, a directory, fails with errno 31. *)
Theorem openFile_trailing_slash (children : list (string * FileSystemNode File))
    (p : string) (file : File) (h : Host) :
  node_at (split "/" p) (Directory children) = Some (FileEntry file) ->
  openFile (p ++ "/") (Directory children) h = commit (Opened file) h
  /\ (forall s, s <> EmptyString ->
        openFile (p ++ "/" ++ s) (Directory children) h
        = (Ok (0, NO_SUCH_FILE_OR_DIRECTORY), h))
  /\ openFile EmptyString (Directory children) h = (Ok (0, IS_A_DIRECTORY), h).
Proof.
  intros Hat. split; [|split].
  - rewrite (openFile_past_leaf p _ file EmptyString h Hat). reflexivity.
  - intros s Hs. change (p ++ "/" ++ s)%string with (p ++ String "/" s)%string.
    rewrite (openFile_past_leaf p _ file s h Hat). now case_decide.
  - apply openFile_exhausted.
Qed.

(** ** What the host functions leave alone *)

Section Preserves.

Context {B : Type} (f : Host -> B).

Lemma preserves_ret {A} (a : A) : preserves f (ret a).
Proof. intros h. reflexivity. Qed.

Lemma preserves_throw {A} (e : Error) : preserves f (@throw A e).
Proof. intros h. reflexivity. Qed.

Lemma preserves_gets {A} (g : Host -> A) : preserves f (gets g).
Proof. intros h. reflexivity. Qed.

Lemma preserves_orThrow {A} (e : Error) (o : option A) : preserves f (orThrow e o).
Proof. destruct o; intros h; reflexivity. Qed.

Lemma preserves_bind {A C} (m : M A) (k : A -> M C) :
  preserves f m -> (forall a, preserves f (k a)) -> preserves f (bind m k).
Proof.
  intros Hm Hk h. unfold bind. specialize (Hm h).
  destruct (m h) as [[a|e] h']; simpl in *; [|exact Hm].
  rewrite (Hk a h'). exact Hm.
Qed.

Lemma preserves_modify (g : Host -> Host) :
  (forall h, f (g h) = f h) -> preserves f (modify g).
Proof. intros Hg h. apply Hg. Qed.

(** An observation that depends neither on guest memory nor on the output
    is left alone by every import that only reads and writes those. *)
Hypothesis f_memory : forall m h, f (with_memory m h) = f h.
Hypothesis f_output : forall o h, f (with_output o h) = f h.

Lemma preserves_mem_getUint32 (off : Z) : preserves f (mem_getUint32 off).
Proof.
  unfold mem_getUint32, getMemory.
  apply preserves_bind; [apply preserves_gets | intros; apply preserves_orThrow].
Qed.

Lemma preserves_mem_setUint32 (off x : Z) : preserves f (mem_setUint32 off x).
Proof.
  unfold mem_setUint32, getMemory.
  apply preserves_bind; [apply preserves_gets | intros m].
  apply preserves_bind; [apply preserves_orThrow | intros m'].
  apply preserves_modify. apply f_memory.
Qed.

Lemma preserves_mem_setUint8 (off x : Z) : preserves f (mem_setUint8 off x).
Proof.
  unfold mem_setUint8, getMemory.
  apply preserves_bind; [apply preserves_gets | intros m].
  apply preserves_bind; [apply preserves_orThrow | intros m'].
  apply preserves_modify. apply f_memory.
Qed.

Lemma preserves_mem_copy (srcBuf : DataView) (src dst len : Z) :
  preserves f (mem_copy srcBuf src dst len).
Proof. intros h. unfold mem_copy. destruct (copy _ _ _ _ _). apply f_memory. Qed.

Lemma preserves_call_write (writeFn : WriteFn) (d : DataView) :
  preserves f (call_write writeFn d).
Proof.
  destruct writeFn; simpl; [apply preserves_ret|].
  apply preserves_bind; [|intros; apply preserves_ret].
  apply preserves_modify. intros h. apply f_output.
Qed.

Lemma preserves_fd_read_loop (iters : nat) (readFn : ReadFn) (iovsPtr : Z) :
  (forall ptr len, preserves f (call_read readFn ptr len)) ->
  forall i read, preserves f (fd_read_loop iters readFn iovsPtr i read).
Proof.
  intros Hread.
  induction iters as [|n IH]; intros i read; simpl; [apply preserves_ret|].
  apply preserves_bind; [apply preserves_mem_getUint32|]. intros ptr.
  apply preserves_bind; [apply preserves_mem_getUint32|]. intros len.
  apply preserves_bind; [apply Hread|]. intros [readThisTime code].
  destruct (negb (code =? 0)); [apply preserves_ret|].
  destruct (readThisTime <? len); [apply preserves_ret | apply IH].
Qed.

Lemma preserves_fd_read (fd iovsPtr iovsLen readPtr : Z) :
  (forall readFn ptr len, preserves f (call_read readFn ptr len)) ->
  preserves f (fd_read fd iovsPtr iovsLen readPtr).
Proof.
  intros Hread.
  unfold fd_read. apply preserves_bind; [apply preserves_gets|]. intros [file|].
  - apply preserves_bind; [apply preserves_fd_read_loop, Hread|]. intros [code|read].
    + apply preserves_ret.
    + apply preserves_bind; [apply preserves_mem_setUint32 | intros; apply preserves_ret].
  - apply preserves_throw.
Qed.

Lemma preserves_fd_write_loop (iters : nat) (writeFn : WriteFn) (iovsPtr : Z) :
  forall i written, preserves f (fd_write_loop iters writeFn iovsPtr i written).
Proof.
  induction iters as [|n IH]; intros i written; simpl; [apply preserves_ret|].
  apply preserves_bind; [apply preserves_mem_getUint32|]. intros ptr.
  apply preserves_bind; [apply preserves_mem_getUint32|]. intros len.
  apply preserves_bind; [apply preserves_gets|]. intros memory.
  apply preserves_bind; [apply preserves_call_write|]. intros [writ code].
  destruct (negb (code =? 0)); [apply preserves_ret | apply IH].
Qed.

Lemma preserves_fd_write (fd iovsPtr iovsLen writtenPtr : Z) :
  preserves f (fd_write fd iovsPtr iovsLen writtenPtr).
Proof.
  unfold fd_write. apply preserves_bind; [apply preserves_gets|]. intros [file|].
  - apply preserves_bind; [apply preserves_fd_write_loop|]. intros [code|written].
    + apply preserves_ret.
    + apply preserves_bind; [apply preserves_mem_setUint32 | intros; apply preserves_ret].
  - apply preserves_throw.
Qed.

Lemma preserves_args_sizes_get (args : list DataView) (number sizePtr : Z) :
  preserves f (args_sizes_get args number sizePtr).
Proof.
  unfold args_sizes_get.
  repeat (apply preserves_bind; [apply preserves_mem_setUint32 | intros ?]).
  apply preserves_ret.
Qed.

Lemma preserves_args_get_loop (rest : list DataView) (argv : Z) :
  forall i ptr, preserves f (args_get_loop rest argv i ptr).
Proof.
  induction rest as [|arg rest IH]; intros i ptr; simpl; [apply preserves_ret|].
  apply preserves_bind; [apply preserves_mem_setUint32 | intros ?].
  apply preserves_bind; [apply preserves_mem_copy | intros ?].
  apply preserves_bind; [apply preserves_mem_setUint8 | intros ?].
  apply IH.
Qed.

Lemma preserves_args_get (args : list DataView) (argv argv_buf : Z) :
  preserves f (args_get args argv argv_buf).
Proof.
  unfold args_get. apply preserves_bind; [apply preserves_args_get_loop|].
  intros ?. apply preserves_ret.
Qed.

Lemma preserves_fd_prestat_get (fd prestat : Z) : preserves f (fd_prestat_get fd prestat).
Proof.
  unfold fd_prestat_get. apply preserves_bind; [apply preserves_gets|]. intros [file|].
  - destruct (prestatName file); [|apply preserves_ret].
    repeat (apply preserves_bind; [apply preserves_mem_setUint32 | intros ?]).
    apply preserves_ret.
  - apply preserves_ret.
Qed.

Lemma preserves_fd_prestat_dir_name (fd ptr len : Z) :
  preserves f (fd_prestat_dir_name fd ptr len).
Proof.
  unfold fd_prestat_dir_name. apply preserves_bind; [apply preserves_gets|]. intros [file|].
  - destruct (prestatName file); [|apply preserves_ret].
    apply preserves_bind; [apply preserves_mem_copy | intros ?; apply preserves_ret].
  - apply preserves_ret.
Qed.

Lemma preserves_path_open (fileSystem : FileSystemNode File)
    (parentFd dirflags pathPtr pathLen oflags rb ri fdFlags resPtr : Z) :
  (forall path, preserves f (openFile path fileSystem)) ->
  preserves f
    (path_open fileSystem parentFd dirflags pathPtr pathLen oflags rb ri fdFlags resPtr).
Proof.
  intros Hopen.
  unfold path_open. apply preserves_bind; [apply preserves_gets|]. intros memory.
  apply preserves_bind; [apply Hopen|]. intros [fd code].
  apply preserves_bind; [apply preserves_mem_setUint32 | intros ?; apply preserves_ret].
Qed.

End Preserves.

(** The promise, the trace and the buffers. *)

Lemma view_memory (m : DataView) (h : Host) : view (with_memory m h) = view h.
Proof. reflexivity. Qed.

Lemma view_output (o : list (Z * string)) (h : Host) : view (with_output o h) = view h.
Proof. reflexivity. Qed.

Lemma view_call_read (readFn : ReadFn) (ptr len : Z) :
  preserves view (call_read readFn ptr len).
Proof.
  destruct readFn as [|c]; simpl; [apply preserves_ret|].
  intros h. unfold bind, mem_copy, modify, orThrow, ret, throw.
  destruct (cells h !! c) as [cell|] eqn:E; [|reflexivity].
  destruct (copy _ _ _ _ _) as [[n|e] m']; [|reflexivity].
  unfold view, buffers. simpl. f_equal.
  rewrite list_fmap_insert. simpl. apply list_insert_id.
  rewrite list_lookup_fmap, E. reflexivity.
Qed.

Lemma view_openFile (path : string) (fileSystem : FileSystemNode File) :
  preserves view (openFile path fileSystem).
Proof.
  intros h. destruct (openFile_resolves path fileSystem h) as [o [_ ->]].
  destruct o; reflexivity.
Qed.

(** Every import but [proc_exit] leaves the promise, the trace and the
    buffers alone. *)
Lemma preserves_wasi_unstable (args : list DataView) (fileSystem : FileSystemNode File)
    (onExit : option (Z -> M unit)) (c : Syscall) :
  (forall code, c <> call_proc_exit code) ->
  preserves view (wasi_unstable args fileSystem onExit c).
Proof.
  intros Hc. destruct c; simpl.
  - apply preserves_fd_read; [apply view_memory | apply view_call_read].
  - apply preserves_fd_write; [apply view_memory | apply view_output].
  - exfalso. now apply (Hc code).
  - apply preserves_args_sizes_get, view_memory.
  - apply preserves_args_get, view_memory.
  - apply preserves_fd_prestat_get, view_memory.
  - apply preserves_fd_prestat_dir_name, view_memory.
  - apply preserves_path_open; [apply view_memory | intros; apply view_openFile].
Qed.

(** ** Setup *)

Lemma FileSystemNode_ind_nested {T} (P : FileSystemNode T -> Prop) :
  (forall file, P (FileEntry file)) ->
  (forall children, Forall (fun entry => P entry.2) children -> P (Directory children)) ->
  forall node, P node.
Proof.
  intros Hfile Hdir. fix IH 1. intros [file|children].
  - apply Hfile.
  - apply Hdir. induction children as [|[k node] children IHc]; constructor.
    + apply IH.
    + exact IHc.
Qed.

(** The state setup leaves after loading [fs] from [h]. *)
Lemma loadFileSystem_spec (fs : FileSystemNode FileLoader) :
  forall (path : string) (h : Host),
  exists r,
    loadFileSystem path fs h =
      (Ok r, with_trace (trace h ++ loads path fs)
               (with_cells (cells h ++ created path fs) h))
    /\ (all_resolve path fs -> is_Some r).
Proof.
  induction fs as [file|children IH] using FileSystemNode_ind_nested; intros path h.
  - unfold loads, created, all_resolve, leaf_text. simpl.
    unfold bind, invoke, log, modify, ret, createFile. simpl.
    destruct (file path) as [text|] eqn:E; simpl.
    + eexists. split; [reflexivity|]. intros _. eexists; reflexivity.
    + eexists. split.
      * rewrite app_nil_r. reflexivity.
      * intros Hall. apply Forall_inv in Hall. simpl in Hall. rewrite E in Hall.
        destruct Hall as [x Hx]. discriminate.
  - assert (C : forall h, exists rs,
        map_entries (fun childPath node => loadFileSystem (path ++ "/" ++ childPath) node)
          children h =
          (Ok rs, with_trace (trace h ++ loads path (Directory children))
                    (with_cells (cells h ++ created path (Directory children)) h))
        /\ (all_resolve path (Directory children) -> is_Some (all_fulfilled rs))).
    { clear h. induction children as [|[k node] children IHc]; intros h.
      - exists []. unfold loads, created. simpl. rewrite !app_nil_r.
        split; [destruct h; reflexivity | intros _; eexists; reflexivity].
      - apply Forall_cons_1 in IH. destruct IH as [IHnode IHrest].
        specialize (IHc IHrest). simpl in IHnode.
        destruct (IHnode (path ++ "/" ++ k)%string h) as [r [Hr Hsome]].
        simpl. unfold bind at 1. rewrite Hr.
        match goal with |- context [bind _ _ ?h1] => destruct (IHc h1) as [rs [Hrs Hall]] end.
        unfold bind at 1. rewrite Hrs. unfold ret.
        eexists. split.
        + f_equal. unfold loads, created, with_trace, with_cells. simpl.
          rewrite !map_app, omap_app, !map_app, !app_assoc. reflexivity.
        + unfold all_resolve in *. simpl. rewrite Forall_app. intros [H1 H2].
          destruct (Hsome H1) as [x ->]. destruct (Hall H2) as [y ->].
          eexists; reflexivity. }
    destruct (C h) as [rs [Hrs Hall]].
    simpl. unfold bind. rewrite Hrs. unfold ret.
    eexists. split; [reflexivity|].
    intros Hres. destruct (Hall Hres) as [y ->]. eexists; reflexivity.
Qed.

(** The table [prepareWasi] installs: descriptors 0 to 3. *)
Lemma prepareWasi_spec (wasmPath : string) (argStrings : list string)
    (fs : FileSystemNode FileLoader) (onExit : option (Z -> M unit)) (h : Host) :
  let loaded := with_trace (trace h ++ loads "." fs)
                  (with_cells (cells h ++ created "." fs) h) in
  (all_resolve "." fs ->
   exists root,
     prepareWasi wasmPath argStrings fs onExit h =
       (Ok {| imp_args := map encode (wasmPath :: argStrings);
              imp_fileSystem := Directory [("."%string, root)];
              imp_onExit := onExit |},
        with_openFds
          (<[3 := readNotSupportedFile (Some "."%string)]>
             (<[2 := sinkFile STDERR]>
                (<[1 := sinkFile STDOUT]>
                   (<[0 := readNotSupportedFile None]> ∅))))
          (with_next_fd 4 loaded)))
  /\ (forall imports h',
        prepareWasi wasmPath argStrings fs onExit h = (Ok imports, h') ->
        imp_onExit imports = onExit
        /\ imp_args imports = map encode (wasmPath :: argStrings)
        /\ view h' = view loaded)
  /\ (forall e h',
        prepareWasi wasmPath argStrings fs onExit h = (Throw e, h') ->
        h' = loaded).
Proof.
  intros loaded.
  destruct (loadFileSystem_spec fs "." h) as [r [Hr Hsome]]. fold loaded in Hr.
  split; [|split].
  - intros Hall. destruct (Hsome Hall) as [root ->]. exists root.
    cbv [prepareWasi bind]. rewrite Hr. reflexivity.
  - intros imports h' H. cbv [prepareWasi bind] in H. rewrite Hr in H.
    destruct r as [root|]; simpl in H; [|discriminate H].
    injection H as <- <-. repeat split.
  - intros e h' H. cbv [prepareWasi bind] in H. rewrite Hr in H.
    destruct r as [root|]; simpl in H; [discriminate H|].
    injection H as _ <-. reflexivity.
Qed.

(** ** The guest and the driver *)

(** C7.  When [fd] is not in the table, [fd_read] and [fd_write] raise
    the error "file descriptor fd is not open" and leave the whole state,
    guest memory included, as it was; the guest that made the call is
    unwound with that error, whatever it meant to do next, instead of
    being handed an errno. *)
Theorem fd_not_open (fd iovsPtr iovsLen outPtr : Z) (h : Host) :
  openFds h !! fd = None ->
  fd_read fd iovsPtr iovsLen outPtr h = (Throw (NotOpen fd), h)
  /\ fd_write fd iovsPtr iovsLen outPtr h = (Throw (NotOpen fd), h)
  /\ forall imports k,
       let aborted c := (Throw (NotOpen fd), with_trace (trace h ++ [EvCall c]) h) in
       exec imports (Call (call_fd_read fd iovsPtr iovsLen outPtr) k) h
         = aborted (call_fd_read fd iovsPtr iovsLen outPtr)
       /\ exec imports (Call (call_fd_write fd iovsPtr iovsLen outPtr) k) h
         = aborted (call_fd_write fd iovsPtr iovsLen outPtr).
Proof.
  intros Hfd.
  assert (R : forall h', openFds h' !! fd = None ->
                fd_read fd iovsPtr iovsLen outPtr h' = (Throw (NotOpen fd), h')).
  { intros h' H'. unfold fd_read, bind, gets. rewrite H'. reflexivity. }
  assert (W : forall h', openFds h' !! fd = None ->
                fd_write fd iovsPtr iovsLen outPtr h' = (Throw (NotOpen fd), h')).
  { intros h' H'. unfold fd_write, bind, gets. rewrite H'. reflexivity. }
  split; [now apply R|]. split; [now apply W|].
  intros imports k aborted. subst aborted. cbn [exec import_call wasi_unstable].
  unfold import_call, bind, log, modify. cbn [wasi_unstable].
  rewrite R, W by exact Hfd. split; reflexivity.
Qed.

(** A call of [proc_exit] settles the pending promise and unwinds. *)
Lemma import_call_proc_exit (imports : Imports) (code : Z) (h : Host) :
  imp_onExit imports = onExit_resolve ->
  promise h = None ->
  import_call imports (call_proc_exit code) h =
    (Throw (Exit code),
     with_promise (Some (Some code))
       (with_trace (trace h ++ [EvCall (call_proc_exit code)]) h)).
Proof.
  intros Hon Hp. unfold import_call, bind, log, modify. simpl.
  unfold proc_exit. rewrite Hon. unfold bind, resolve, modify. simpl. rewrite Hp.
  reflexivity.
Qed.

Lemma import_call_other (imports : Imports) (c : Syscall) (h : Host) :
  (forall code, c <> call_proc_exit code) ->
  view (snd (import_call imports c h)) = view (with_trace (trace h ++ [EvCall c]) h).
Proof.
  intros Hc. unfold import_call, bind, log, modify. simpl.
  pose proof (preserves_wasi_unstable (imp_args imports) (imp_fileSystem imports)
                (imp_onExit imports) c Hc (with_trace (trace h ++ [EvCall c]) h)) as P.
  destruct (wasi_unstable _ _ _ c _) as [[r|e] h']; exact P.
Qed.

Lemma syscall_eq_dec_exit (c : Syscall) :
  {code | c = call_proc_exit code} + {forall code, c <> call_proc_exit code}.
Proof. destruct c; try (right; discriminate). left. eexists; reflexivity. Qed.

(** The course of the entry point from a state where the promise is
    pending and [proc_exit] has not been called. *)
Lemma exec_course (imports : Imports) :
  imp_onExit imports = onExit_resolve ->
  forall (g : Guest) (h : Host),
    promise h = None ->
    (forall code, ~ In (EvCall (call_proc_exit code)) (trace h)) ->
    let r := exec imports g h in
    (exists events, trace (snd r) = trace h ++ events /\ Forall guest_event events)
    /\ buffers (snd r) = buffers h
    /\ ((promise (snd r) = None
         /\ forall code, ~ In (EvCall (call_proc_exit code)) (trace (snd r)))
        \/ (exists code before,
              fst r = Throw (Exit code)
              /\ promise (snd r) = Some (Some code)
              /\ trace (snd r) = before ++ [EvCall (call_proc_exit code)]
              /\ forall code', ~ In (EvCall (call_proc_exit code')) before)).
Proof.
  intros Hon. induction g as [|f k IH|c k IH]; intros h Hp Hno.
  - simpl. split; [exists []; split; [now rewrite app_nil_r | constructor]|].
    split; [reflexivity|]. left. split; assumption.
  - simpl. unfold bind, log, modify. simpl.
    set (h1 := with_memory _ _).
    assert (Hno1 : forall code, ~ In (EvCall (call_proc_exit code)) (trace h1)).
    { intros code. simpl. rewrite in_app_iff. simpl.
      intros [Hin|[Heq|[]]]; [now apply (Hno code) | discriminate Heq]. }
    destruct (IH h1 Hp Hno1) as [[events [Ht He]] [Hb Hc]].
    split; [|split; [exact Hb | exact Hc]].
    exists (EvCompute :: events). split; [|constructor; [exact I | exact He]].
    rewrite Ht. simpl. now rewrite <- app_assoc.
  - assert (E : exec imports (Call c k) h =
                 match import_call imports c h with
                 | (Ok r, h1) => exec imports (k r (memory h1)) h1
                 | (Throw e, h1) => (Throw e, h1)
                 end).
    { cbn [exec]. unfold bind. destruct (import_call imports c h) as [[r|e] h1]; reflexivity. }
    cbn zeta. rewrite E. clear E.
    destruct (syscall_eq_dec_exit c) as [[code ->]|Hc].
    + rewrite (import_call_proc_exit imports code h Hon Hp). simpl.
      split; [exists [EvCall (call_proc_exit code)]; split; [reflexivity | repeat constructor]|].
      split; [reflexivity|].
      right. exists code, (trace h). repeat split. exact Hno.
    + pose proof (import_call_other imports c h Hc) as V.
      destruct (import_call imports c h) as [[r|e] h1] eqn:Ec;
        simpl in V; unfold view in V; simpl in V; injection V as Vp Vt Vb.
      * assert (Hno1 : forall code, ~ In (EvCall (call_proc_exit code)) (trace h1)).
        { intros code. rewrite Vt, in_app_iff. simpl.
          intros [Hin|[Heq|[]]]; [now apply (Hno code)|]. injection Heq as ->.
          now apply (Hc code). }
        destruct (IH r (memory h1) h1 ltac:(congruence) Hno1)
          as [[events [Ht He]] [Hb Hc']].
        split; [|split; [rewrite Hb; exact Vb | exact Hc']].
        exists (EvCall c :: events). split; [|constructor; [exact I | exact He]].
        rewrite Ht, Vt. simpl. now rewrite <- app_assoc.
      * simpl. split; [exists [EvCall c]; split; [exact Vt | repeat constructor]|].
        split; [exact Vb|].
        left. split; [congruence|].
        intros code. rewrite Vt, in_app_iff. simpl.
        intros [Hin|[Heq|[]]]; [now apply (Hno code)|]. injection Heq as ->.
        now apply (Hc code).
Qed.

(** The executor, once setup has produced the import object. *)
Lemma runWasi_after_setup (loadWasm : Imports -> option Instance)
    (binaryPath : string) (args : list string) (fs : FileSystemNode FileLoader)
    (imports : Imports) (h1 : Host) :
  prepareWasi binaryPath args fs onExit_resolve host0 = (Ok imports, h1) ->
  runWasi loadWasm binaryPath args fs host0 =
    match loadWasm imports with
    | None => (Throw Rejected, h1)
    | Some instance =>
        match memExport instance with
        | None => resolve None h1
        | Some mem =>
            match startExport instance with
            | None => resolve None (with_memory mem h1)
            | Some start =>
                match exec imports start (with_memory mem h1) with
                | (Ok _, h2) => resolve (Some 0) h2
                | (Throw e, h2) => (Throw e, h2)
                end
            end
        end
    end.
Proof.
  intros Hsetup. unfold runWasi. unfold bind at 1. rewrite Hsetup.
  destruct (loadWasm imports) as [instance|]; [|reflexivity].
  cbv [bind await orThrow ret].
  destruct (memExport instance) as [mem|]; [|reflexivity].
  cbv [modify].
  destruct (startExport instance) as [start|]; [|reflexivity].
  destruct (exec imports start (with_memory mem h1)) as [[[]|e] h2]; reflexivity.
Qed.

Lemma runWasi_setup_failed (loadWasm : Imports -> option Instance)
    (binaryPath : string) (args : list string) (fs : FileSystemNode FileLoader)
    (e : Error) (h1 : Host) :
  prepareWasi binaryPath args fs onExit_resolve host0 = (Throw e, h1) ->
  runWasi loadWasm binaryPath args fs host0 = (Throw e, h1).
Proof. intros Hsetup. unfold runWasi. unfold bind at 1. now rewrite Hsetup. Qed.

(** After setup the promise is pending, the trace holds the loader calls
    and nothing else, and the callback is [resolve]. *)
Lemma setup_view (binaryPath : string) (args : list string)
    (fs : FileSystemNode FileLoader) (imports : Imports) (h1 : Host) :
  prepareWasi binaryPath args fs onExit_resolve host0 = (Ok imports, h1) ->
  imp_onExit imports = onExit_resolve
  /\ promise h1 = None
  /\ trace h1 = loads "." fs
  /\ buffers h1 = map data (created "." fs)
  /\ forall code, ~ In (EvCall (call_proc_exit code)) (trace h1).
Proof.
  intros Hsetup.
  destruct (prepareWasi_spec binaryPath args fs onExit_resolve host0) as [_ [Hok _]].
  destruct (Hok imports h1 Hsetup) as [Hon [_ V]].
  unfold view in V. simpl in V. injection V as Vp Vt Vb.
  repeat split; try assumption.
  intros code. rewrite Vt. unfold loads. rewrite in_map_iff.
  intros [leaf [Heq _]]. discriminate.
Qed.

Lemma resolve_spec (v : option Z) (h : Host) :
  fst (resolve v h) = Ok tt
  /\ trace (snd (resolve v h)) = trace h
  /\ buffers (snd (resolve v h)) = buffers h
  /\ promise (snd (resolve v h)) = Some (default v (promise h)).
Proof.
  unfold resolve, modify. cbn [fst snd].
  destruct (promise h) as [p|] eqn:E; cbn; rewrite ?E; repeat split; reflexivity.
Qed.

(** C6.  Once the module is instantiated, the executor completes without
    raising and the promise is resolved with [undefined] when the instance
    has no memory export or no [_start] function, and with 0 when the
    entry point returns; in that last case [proc_exit] was not called. *)
Theorem runWasi_resolution (loadWasm : Imports -> option Instance)
    (binaryPath : string) (args : list string) (fs : FileSystemNode FileLoader)
    (imports : Imports) (instance : Instance) :
  let setup := prepareWasi binaryPath args fs onExit_resolve host0 in
  let run := runWasi loadWasm binaryPath args fs host0 in
  fst setup = Ok imports ->
  loadWasm imports = Some instance ->
  match memExport instance, startExport instance with
  | Some mem, Some start =>
      fst (exec imports start (with_memory mem (snd setup))) = Ok tt ->
      fst run = Ok tt
      /\ promise (snd run) = Some (Some 0)
      /\ forall code, ~ In (EvCall (call_proc_exit code)) (trace (snd run))
  | _, _ => fst run = Ok tt /\ promise (snd run) = Some None
  end.
Proof.
  intros setup run Hsetup Hload. subst run.
  destruct setup as [r h1] eqn:Es. simpl in Hsetup. subst r.
  rewrite (runWasi_after_setup _ _ _ _ _ _ Es), Hload.
  destruct (setup_view _ _ _ _ _ Es) as [Hon [Hp [Ht [_ Hno]]]].
  destruct (memExport instance) as [mem|].
  - destruct (startExport instance) as [start|].
    + simpl. intros Hret.
      destruct (exec_course imports Hon start (with_memory mem h1) Hp Hno)
        as [_ [_ [[Hp2 Hno2]|[code [before [Hthrow _]]]]]].
      * destruct (exec imports start (with_memory mem h1)) as [[[]|e] h2];
          [|discriminate Hret].
        simpl in *. unfold resolve, modify. simpl. rewrite Hp2. repeat split. exact Hno2.
      * rewrite Hret in Hthrow. discriminate Hthrow.
    + unfold resolve, modify. simpl. rewrite Hp. split; reflexivity.
  - unfold resolve, modify. simpl. rewrite Hp. split; reflexivity.
Qed.

(** C5 (as amended).  When the guest calls [proc_exit(code)], the promise
    of the run is resolved with [code] by the completion callback and the
    call is the last event of the run: no guest code runs after it.  The
    unwind is not caught by the driver: it leaves the executor, whose own
    promise it rejects, and [resolve(0)] is skipped. *)
Theorem proc_exit_resolves (loadWasm : Imports -> option Instance)
    (binaryPath : string) (args : list string) (fs : FileSystemNode FileLoader)
    (code : Z) :
  let run := runWasi loadWasm binaryPath args fs host0 in
  In (EvCall (call_proc_exit code)) (trace (snd run)) ->
  promise (snd run) = Some (Some code)
  /\ (exists before, trace (snd run) = before ++ [EvCall (call_proc_exit code)]
                     /\ forall code', ~ In (EvCall (call_proc_exit code')) before)
  /\ fst run = Throw (Exit code).
Proof.
  intros run. subst run.
  destruct (prepareWasi binaryPath args fs onExit_resolve host0) as [[imports|e] h1] eqn:Es.
  - rewrite (runWasi_after_setup _ _ _ _ _ _ Es).
    destruct (setup_view _ _ _ _ _ Es) as [Hon [Hp [Ht [_ Hno]]]].
    destruct (loadWasm imports) as [instance|]; [|intros Hin; now apply Hno in Hin].
    destruct (memExport instance) as [mem|].
    2: { destruct (resolve_spec None h1) as [_ [-> _]]. intros Hin. now apply Hno in Hin. }
    destruct (startExport instance) as [start|].
    2: { destruct (resolve_spec None (with_memory mem h1)) as [_ [-> _]].
         intros Hin. now apply Hno in Hin. }
    destruct (exec_course imports Hon start (with_memory mem h1) Hp Hno)
      as [_ [_ [[Hp2 Hno2]|[c [before [Hthrow [Hp2 [Ht2 Hb]]]]]]]].
    + destruct (exec imports start (with_memory mem h1)) as [[[]|e] h2]; cbn [fst snd] in *.
      * destruct (resolve_spec (Some 0) h2) as [_ [-> _]].
        intros Hin. now apply Hno2 in Hin.
      * intros Hin. now apply Hno2 in Hin.
    + destruct (exec imports start (with_memory mem h1)) as [r h2]; simpl in *.
      subst r. simpl. rewrite Ht2, in_app_iff. simpl.
      intros [Hin|[Heq|[]]]; [now apply Hb in Hin|]. injection Heq as ->.
      split; [exact Hp2|]. split; [|reflexivity]. exists before. split; [reflexivity | exact Hb].
  - rewrite (runWasi_setup_failed _ _ _ _ _ _ Es). simpl.
    destruct (prepareWasi_spec binaryPath args fs onExit_resolve host0) as [_ [_ Hfail]].
    rewrite (Hfail e h1 Es). simpl. unfold loads. rewrite in_map_iff.
    intros [leaf [Heq _]]. discriminate.
Qed.


(** ** Reading *)

Lemma le_value_bound (bs : list byte) : 0 <= le_value bs < 256 ^ Z.of_nat (length bs).
Proof.
  induction bs as [|b bs IH]; simpl le_value; [simpl; lia|].
  pose proof (ofUint8_range b).
  replace (Z.of_nat (length (b :: bs))) with (Z.succ (Z.of_nat (length bs)))
    by (simpl length; lia).
  rewrite Z.pow_succ_r by lia. lia.
Qed.

Lemma getUint32_range (v : DataView) (off x : Z) :
  getUint32 v off = Some x -> 0 <= x < 2 ^ 32.
Proof.
  unfold getUint32. destruct (in_bounds v off 4) eqn:B; [|discriminate].
  intros [= <-].
  pose proof (le_value_bound (take 4 (drop (Z.to_nat off) v))) as H.
  assert (L : (length (take 4 (drop (Z.to_nat off) v)) <= 4)%nat)
    by (rewrite length_take; lia).
  assert (256 ^ Z.of_nat (length (take 4 (drop (Z.to_nat off) v))) <= 256 ^ 4)
    by (apply Z.pow_le_mono_r; lia).
  change (2 ^ 32) with (256 ^ 4). lia.
Qed.

Lemma le_value_le_bytes (x : Z) : le_value (le_bytes x) = x mod 2 ^ 32.
Proof.
  unfold le_bytes, le_value. rewrite !ofUint8_toUint8.
  change (2 ^ 8) with 256. change (2 ^ 16) with (256 * 256).
  change (2 ^ 24) with (256 * 256 * 256). change (2 ^ 32) with (256 * (256 * (256 * 256))).
  rewrite <- !Z.div_div by lia.
  rewrite !Z.rem_mul_r by lia. lia.
Qed.

Lemma in_bounds_spec (v : DataView) (off size : Z) :
  in_bounds v off size = true <-> 0 <= off /\ off + size <= byteLength v.
Proof. unfold in_bounds. rewrite andb_true_iff, !Z.leb_le. reflexivity. Qed.

Lemma getUint32_setUint32 (v v' : DataView) (off x : Z) :
  setUint32 v off x = Some v' -> getUint32 v' off = Some (x mod 2 ^ 32).
Proof.
  unfold setUint32, getUint32. destruct (in_bounds v off 4) eqn:B; [|discriminate].
  intros [= <-]. apply in_bounds_spec in B. unfold byteLength in B.
  assert (L : length (splice v (Z.to_nat off) (le_bytes x)) = length v)
    by (apply length_splice; simpl; lia).
  assert (B' : in_bounds (splice v (Z.to_nat off) (le_bytes x)) off 4 = true)
    by (apply in_bounds_spec; unfold byteLength; rewrite L; lia).
  rewrite B'. f_equal. rewrite <- le_value_le_bytes. f_equal.
  unfold splice. rewrite drop_app_length' by (rewrite length_take; lia).
  rewrite take_app_length' by reflexivity. reflexivity.
Qed.

Lemma splice_lookup_other (v : DataView) (off : nat) (bs : list byte) (i : nat) :
  (off + length bs <= length v)%nat ->
  (i < off \/ off + length bs <= i)%nat ->
  splice v off bs !! i = v !! i.
Proof.
  intros Hlen Hi. unfold splice. destruct Hi as [Hi|Hi].
  - rewrite lookup_app_l by (rewrite length_take; lia).
    now rewrite lookup_take_lt.
  - rewrite lookup_app_r by (rewrite length_take; lia).
    rewrite lookup_app_r by (rewrite length_take; lia).
    rewrite lookup_drop, length_take. f_equal. lia.
Qed.

Lemma getUint32_splice_other (v : DataView) (off off' : Z) (bs : list byte) :
  in_bounds v off (Z.of_nat (length bs)) = true ->
  off' + 4 <= off \/ off + Z.of_nat (length bs) <= off' ->
  getUint32 (splice v (Z.to_nat off) bs) off' = getUint32 v off'.
Proof.
  intros B D. apply in_bounds_spec in B. unfold byteLength in B.
  assert (L : length (splice v (Z.to_nat off) bs) = length v)
    by (apply length_splice; lia).
  unfold getUint32, in_bounds, byteLength. rewrite L.
  destruct ((0 <=? off') && (off' + 4 <=? Z.of_nat (length v))) eqn:B'; [|reflexivity].
  apply andb_true_iff in B'. rewrite !Z.leb_le in B'.
  do 2 f_equal. apply list_eq. intros i.
  destruct (decide (i < 4)%nat) as [Hi|Hi].
  - rewrite !lookup_take_lt, !lookup_drop by exact Hi.
    apply splice_lookup_other; lia.
  - rewrite !lookup_take_ge by lia. reflexivity.
Qed.

(** A read through a file made by [createFile]. *)
Lemma call_read_cell (c : nat) (cell : Cell) (ptr len : Z) (h : Host) :
  cells h !! c = Some cell ->
  0 <= cursor cell -> 0 <= ptr -> 0 <= len ->
  let n := copy_count (data cell) (memory h) (cursor cell) ptr len in
  call_read (readCell c) ptr len h =
    (Ok (n, 0),
     with_cells (<[c := {| data := data cell; cursor := cursor cell + n |}]> (cells h))
       (with_memory
          (splice (memory h) (Z.to_nat ptr)
             (take (Z.to_nat n) (drop (Z.to_nat (cursor cell)) (data cell)))) h)).
Proof.
  intros Hc Hcur Hptr Hlen n.
  destruct (copy_exact (data cell) (memory h) (cursor cell) ptr len Hcur Hptr) as [Hcopy _].
  destruct (Hcopy Hlen) as [E _]. fold n in E.
  unfold call_read, bind, orThrow, mem_copy, modify, ret. rewrite Hc. simpl.
  rewrite E. reflexivity.
Qed.

(** ** Reading into several buffers *)

Lemma iovecs_at_range (m : DataView) (iovsPtr : Z) (n : nat) :
  forall (i : Z) (l : list (Z * Z)),
    iovecs_at m iovsPtr i n = Some l ->
    length l = n /\ Forall (fun iov => 0 <= iov.1 /\ 0 <= iov.2) l.
Proof.
  induction n as [|n IH]; intros i l Hl.
  - injection Hl as <-. split; [reflexivity | constructor].
  - cbn [iovecs_at] in Hl.
    destruct (getUint32 m (iovsPtr + 8 * i)) as [ptr|] eqn:Ep; [|discriminate Hl].
    destruct (getUint32 m (iovsPtr + 8 * i + 4)) as [len|] eqn:El; [|discriminate Hl].
    destruct (iovecs_at m iovsPtr (i + 1) n) as [rest|] eqn:Er; [|discriminate Hl].
    injection Hl as <-. destruct (IH _ _ Er) as [L F].
    pose proof (getUint32_range _ _ _ Ep). pose proof (getUint32_range _ _ _ El).
    split; [simpl; now rewrite L|]. constructor; [simpl; lia | exact F].
Qed.

Lemma total_nonneg (l : list (Z * Z)) :
  Forall (fun iov => 0 <= iov.1 /\ 0 <= iov.2) l -> 0 <= total (map snd l).
Proof.
  induction 1 as [|iov l [_ H] _ IH]; unfold total in *; simpl; lia.
Qed.

(** The iovecs still to be read are not touched by a write off the
    array. *)
Lemma iovecs_at_splice (m : DataView) (iovsPtr ntotal ptr : Z) (bs : list byte) (n : nat) :
  in_bounds m ptr (Z.of_nat (length bs)) = true ->
  ptr + Z.of_nat (length bs) <= iovsPtr \/ iovsPtr + 8 * ntotal <= ptr ->
  forall i, 0 <= i -> i + Z.of_nat n <= ntotal ->
    iovecs_at (splice m (Z.to_nat ptr) bs) iovsPtr i n = iovecs_at m iovsPtr i n.
Proof.
  intros B D. induction n as [|n IH]; intros i Hi Hn; [reflexivity|].
  cbn [iovecs_at].
  rewrite !(getUint32_splice_other m ptr _ bs B) by lia.
  rewrite IH by lia. reflexivity.
Qed.

Lemma scatter_empty (m : DataView) (l : list (Z * Z)) : scatter m (chunks l []) = m.
Proof.
  revert m. induction l as [|[ptr len] l IH]; intros m; [reflexivity|].
  cbn [chunks]. rewrite take_nil, drop_nil. unfold scatter in *. cbn [fold_left fst snd].
  rewrite splice_nil. apply IH.
Qed.

Lemma length_scatter (m : DataView) (iovsPtr n : Z) (cs : list (Z * list byte)) :
  Forall (fun c => 0 <= c.1) cs ->
  Forall (chunk_ok m iovsPtr n) cs ->
  length (scatter m cs) = length m.
Proof.
  intros Hpos Hok. revert m Hok.
  induction Hpos as [|c cs Hc _ IH]; intros m Hok; [reflexivity|].
  apply Forall_cons_1 in Hok. destruct Hok as [Hk Hrest].
  unfold scatter in *. cbn [fold_left].
  assert (L : length (splice m (Z.to_nat c.1) c.2) = length m).
  { destruct Hk as [->|[Hin _]]; [now rewrite splice_nil|].
    apply length_splice. unfold byteLength in Hin. lia. }
  rewrite IH.
  - exact L.
  - eapply Forall_impl; [exact Hrest|]. intros c'.
    unfold chunk_ok, byteLength. now rewrite L.
Qed.

Lemma chunks_ptrs (l : list (Z * Z)) :
  Forall (fun iov => 0 <= iov.1 /\ 0 <= iov.2) l ->
  forall bytes, Forall (fun c => 0 <= c.1) (chunks l bytes).
Proof.
  induction 1 as [|[ptr len] l [Hp _] _ IH]; intros bytes; [constructor|].
  cbn [chunks]. constructor; [exact Hp | apply IH].
Qed.

(** The chunks of a request are consecutive parts of the bytes: together
    they are the first [min N M] of the [M] bytes, [N] being the sum of the
    lengths of the buffers. *)
Lemma concat_chunks (l : list (Z * Z)) :
  Forall (fun iov => 0 <= iov.1 /\ 0 <= iov.2) l ->
  forall bytes,
    concat (map snd (chunks l bytes))
    = take (Z.to_nat (Z.min (total (map snd l)) (byteLength bytes))) bytes.
Proof.
  induction 1 as [|[ptr len] l [_ Hlen] Hrest IH]; intros bytes.
  - cbn [chunks map concat]. unfold total. cbn [map fold_right].
    rewrite Z.min_l by (unfold byteLength; lia). reflexivity.
  - cbn [chunks map concat snd]. rewrite IH. cbn [snd] in Hlen.
    pose proof (total_nonneg l Hrest) as Ht.
    unfold total in *. cbn [map fold_right snd]. unfold byteLength.
    rewrite length_drop.
    destruct (Z_le_gt_dec len (Z.of_nat (length bytes))) as [Hle|Hgt].
    + rewrite take_take_drop. f_equal. lia.
    + rewrite (drop_ge bytes) by lia. rewrite take_nil, app_nil_r.
      rewrite !take_ge by lia. reflexivity.
Qed.

(** The loop of [fd_read] over a file made by [createFile]: the buffers
    take consecutive parts of what is left of the content, and the loop
    goes on as long as buffers are filled. *)
Lemma fd_read_loop_gather (c : nat) (d : DataView) (iovsPtr ntotal : Z) :
  forall (l : list (Z * Z)) (i read cur : Z) (h : Host),
    cells h !! c = Some {| data := d; cursor := cur |} ->
    0 <= cur <= byteLength d ->
    0 <= i -> i + Z.of_nat (length l) <= ntotal ->
    iovecs_at (memory h) iovsPtr i (length l) = Some l ->
    Forall (chunk_ok (memory h) iovsPtr ntotal) (chunks l (drop (Z.to_nat cur) d)) ->
    let K := Z.min (total (map snd l)) (byteLength d - cur) in
    fd_read_loop (length l) (readCell c) iovsPtr i read h =
      (Ok (inr (read + K)),
       with_cells (<[c := {| data := d; cursor := cur + K |}]> (cells h))
         (with_memory (scatter (memory h) (chunks l (drop (Z.to_nat cur) d))) h)).
Proof.
  induction l as [|[ptr len] l IH]; intros i read cur h Hc Hcur Hi Hn Hl Hok K.
  - subst K. unfold total. cbn [map fold_right]. rewrite Z.min_l by lia.
    rewrite !Z.add_0_r. cbn [length fd_read_loop chunks]. unfold ret, scatter. cbn [fold_left].
    rewrite list_insert_id by exact Hc. destruct h; reflexivity.
  - destruct (iovecs_at_range _ _ _ _ _ Hl) as [_ Hr].
    apply Forall_cons_1 in Hr. destruct Hr as [[Hptr Hlen] Hr]. cbn [fst snd] in Hptr, Hlen.
    pose proof (total_nonneg l Hr) as Ht.
    cbn [length iovecs_at] in Hl.
    destruct (getUint32 (memory h) (iovsPtr + 8 * i)) as [ptr'|] eqn:Ep; [|discriminate Hl].
    destruct (getUint32 (memory h) (iovsPtr + 8 * i + 4)) as [len'|] eqn:El;
      [|discriminate Hl].
    destruct (iovecs_at (memory h) iovsPtr (i + 1) (length l)) as [rest|] eqn:Er;
      [|discriminate Hl].
    injection Hl as -> -> ->.
    cbn [chunks] in Hok. apply Forall_cons_1 in Hok. destruct Hok as [Hk Hok].
    set (left := drop (Z.to_nat cur) d) in *.
    set (chunk := take (Z.to_nat len) left) in *.
    assert (Lleft : Z.of_nat (length left) = byteLength d - cur)
      by (unfold left, byteLength; rewrite length_drop; unfold byteLength in Hcur; lia).
    assert (Lchunk : Z.of_nat (length chunk) = Z.min len (byteLength d - cur))
      by (unfold chunk; rewrite length_take; lia).
    set (n := copy_count d (memory h) cur ptr len).
    assert (Hn' : n = Z.min len (byteLength d - cur)).
    { unfold n, copy_count. destruct Hk as [E|[Hin _]]; cbn [fst snd] in *.
      - rewrite E in Lchunk. simpl in Lchunk. lia.
      - unfold byteLength in Hin at 1. lia. }
    assert (Hchunk : take (Z.to_nat n) left = chunk).
    { unfold chunk. rewrite Hn'.
      destruct (Z_le_gt_dec len (byteLength d - cur)) as [Hle|Hgt].
      - now rewrite Z.min_l by lia.
      - rewrite Z.min_r by lia. rewrite !take_ge by lia. reflexivity. }
    cbn [length fd_read_loop].
    unfold bind at 1. unfold mem_getUint32 at 1. unfold bind at 1, getMemory, gets, orThrow.
    rewrite Ep. unfold ret at 1.
    unfold bind at 1. unfold mem_getUint32 at 1. unfold bind at 1, getMemory, gets, orThrow.
    rewrite El. unfold ret at 1.
    unfold bind at 1.
    rewrite (call_read_cell c {| data := d; cursor := cur |} ptr len h Hc
               ltac:(simpl; lia) Hptr Hlen).
    cbn [data cursor]. fold n. fold left. rewrite Hchunk.
    cbn [negb Z.eqb]. unfold scatter. cbn [chunks fold_left fst snd]. fold chunk.
    set (m1 := splice (memory h) (Z.to_nat ptr) chunk).
    destruct (Z.ltb_spec n len) as [Hlt|Hge].
    + (* the buffer is not filled: nothing is left *)
      assert (E : drop (Z.to_nat len) left = []) by (apply drop_ge; lia).
      rewrite E. fold (scatter m1 (chunks l [])). rewrite scatter_empty.
      subst K. unfold total in *. cbn [map fold_right snd].
      unfold ret.
      replace (Z.min (len + fold_right Z.add 0 (map snd l)) (byteLength d - cur)) with n by lia.
      reflexivity.
    + assert (Hnl : n = len) by lia.
      assert (L1 : length m1 = length (memory h)).
      { unfold m1. destruct Hk as [E|[Hin _]]; cbn [fst snd] in *.
        - fold chunk in E. rewrite E. now rewrite splice_nil.
        - apply length_splice. unfold byteLength in Hin. lia. }
      set (h1 := with_cells _ _).
      assert (Hc1 : cells h1 !! c = Some {| data := d; cursor := cur + len |}).
      { unfold h1. cbn [cells with_cells]. rewrite Hnl.
        apply list_lookup_insert_eq. now apply lookup_lt_Some in Hc. }
      assert (Hl1 : iovecs_at (memory h1) iovsPtr (i + 1) (length l) = Some l).
      { unfold h1. cbn [memory with_cells with_memory]. fold m1. rewrite <- Er. unfold m1.
        destruct Hk as [E|[Hin Hoff]]; cbn [fst snd] in *.
        - fold chunk in E. rewrite E. now rewrite splice_nil.
        - apply (iovecs_at_splice (memory h) iovsPtr ntotal ptr chunk (length l)).
          + apply in_bounds_spec. unfold byteLength in *. lia.
          + unfold byteLength in Hoff. exact Hoff.
          + lia.
          + cbn [length] in Hn. lia. }
      assert (Hok1 : Forall (chunk_ok (memory h1) iovsPtr ntotal)
                       (chunks l (drop (Z.to_nat (cur + len)) d))).
      { replace (drop (Z.to_nat (cur + len)) d) with (drop (Z.to_nat len) left)
          by (unfold left; rewrite drop_drop; f_equal; lia).
        eapply Forall_impl; [exact Hok|]. intros c'.
        unfold chunk_ok, h1, byteLength. cbn [memory with_cells with_memory]. fold m1.
        now rewrite L1. }
      pose proof (IH (i + 1) (read + n) (cur + len) h1 Hc1 ltac:(lia) ltac:(lia)
                    ltac:(cbn [length] in Hn; lia) Hl1 Hok1) as E.
      cbv zeta in E. rewrite E. clear E.
      subst K. unfold total in *. cbn [map fold_right snd].
      unfold h1. cbn [cells memory with_cells with_memory]. fold m1.
      replace (drop (Z.to_nat (cur + len)) d) with (drop (Z.to_nat len) left)
        by (unfold left; rewrite drop_drop; f_equal; lia).
      rewrite list_insert_insert_eq.
      replace (cur + len + Z.min (fold_right Z.add 0 (map snd l)) (byteLength d - (cur + len)))
        with (cur + Z.min (len + fold_right Z.add 0 (map snd l)) (byteLength d - cur)) by lia.
      replace (read + n + Z.min (fold_right Z.add 0 (map snd l)) (byteLength d - (cur + len)))
        with (read + Z.min (len + fold_right Z.add 0 (map snd l)) (byteLength d - cur)) by lia.
      reflexivity.
Qed.

(** [fd_read] through a descriptor bound to a file made by [createFile],
    for a request whose chunks fit. *)
Lemma fd_read_gather (fd iovsPtr iovsLen readPtr : Z) (h : Host)
    (file : File) (c : nat) (cell : Cell) (l : list (Z * Z)) :
  openFds h !! fd = Some file ->
  read file = readCell c ->
  cells h !! c = Some cell ->
  0 <= cursor cell <= byteLength (data cell) ->
  iovecs_at (memory h) iovsPtr 0 (Z.to_nat iovsLen) = Some l ->
  let left := drop (Z.to_nat (cursor cell)) (data cell) in
  Forall (chunk_ok (memory h) iovsPtr iovsLen) (chunks l left) ->
  in_bounds (memory h) readPtr 4 = true ->
  let K := Z.min (total (map snd l)) (byteLength (data cell) - cursor cell) in
  let m' := splice (scatter (memory h) (chunks l left)) (Z.to_nat readPtr) (le_bytes K) in
  fd_read fd iovsPtr iovsLen readPtr h =
    (Ok 0,
     with_memory m'
       (with_cells (<[c := {| data := data cell; cursor := cursor cell + K |}]> (cells h)) h))
  /\ concat (map snd (chunks l left)) = take (Z.to_nat K) left
  /\ getUint32 m' readPtr = Some (K mod 2 ^ 32).
Proof.
  intros Hfd Hread Hc Hcur Hl left Hok Hout K m'.
  destruct (iovecs_at_range _ _ _ _ _ Hl) as [Ll Hr].
  assert (Ls : length (scatter (memory h) (chunks l left)) = length (memory h))
    by (eapply length_scatter; [now apply chunks_ptrs | exact Hok]).
  assert (Hout' : in_bounds (scatter (memory h) (chunks l left)) readPtr 4 = true).
  { apply in_bounds_spec. apply in_bounds_spec in Hout. unfold byteLength in *.
    rewrite Ls. exact Hout. }
  split; [|split].
  - destruct cell as [d cur]. cbn [data cursor] in *.
    assert (E : fd_read_loop (length l) (readCell c) iovsPtr 0 0 h =
                  (Ok (inr (0 + K)),
                   with_cells (<[c := {| data := d; cursor := cur + K |}]> (cells h))
                     (with_memory (scatter (memory h) (chunks l left)) h))).
    { destruct (Z_lt_le_dec iovsLen 0) as [Hneg|Hpos].
      - destruct l; [|simpl in Ll; lia].
        apply (fd_read_loop_gather c d iovsPtr 0 [] 0 0 cur h Hc Hcur); try reflexivity;
          try lia; constructor.
      - apply (fd_read_loop_gather c d iovsPtr iovsLen l 0 0 cur h Hc Hcur);
          try lia; [now rewrite Ll | exact Hok]. }
    rewrite Ll in E.
    unfold fd_read, bind, gets. rewrite Hfd, Hread, E. rewrite Z.add_0_l. fold K.
    unfold mem_setUint32, bind, getMemory, gets, orThrow, setUint32.
    cbn [memory with_cells with_memory]. fold left. rewrite Hout'. reflexivity.
  - rewrite (concat_chunks l Hr). unfold K, left, byteLength. rewrite length_drop.
    unfold byteLength in Hcur. do 2 f_equal. lia.
  - apply (getUint32_setUint32 (scatter (memory h) (chunks l left))).
    unfold setUint32. now rewrite Hout'.
Qed.




(** ** Invariants of a run *)

Lemma steady_refl (h : Host) : steady h h.
Proof. repeat split. auto. Qed.

Lemma steady_trans (h1 h2 h3 : Host) : steady h1 h2 -> steady h2 h3 -> steady h1 h3.
Proof.
  intros [A1 [B1 [C1 D1]]] [A2 [B2 [C2 D2]]].
  repeat split; try congruence. auto.
Qed.

Lemma table_steady (h h' : Host) : table h' = table h -> steady h h'.
Proof. intros [= A B C]. repeat split; try congruence. Qed.

Lemma steady_preserves {A} (m : M A) (h : Host) :
  preserves table m -> steady h (snd (m h)).
Proof. intros P. apply table_steady, P. Qed.

Lemma host_ok_steady (fileSystem : FileSystemNode File) (h h' : Host) :
  steady h h' -> host_ok fileSystem h -> host_ok fileSystem h'.
Proof.
  intros [A [B [C D]]] [H1 [H2 [H3 H4]]]. unfold host_ok, fds_below, file_ok in *.
  rewrite A, B, C. repeat split; auto.
Qed.

Lemma table_memory (m : DataView) (h : Host) : table (with_memory m h) = table h.
Proof. reflexivity. Qed.

Lemma table_output (o : list (Z * string)) (h : Host) : table (with_output o h) = table h.
Proof. reflexivity. Qed.

Lemma copy_count_bounds (srcBuf dstBuf : DataView) (src dst len : Z) :
  0 <= src <= byteLength srcBuf ->
  0 <= copy_count srcBuf dstBuf src dst len <= byteLength srcBuf - src.
Proof. unfold copy_count. lia. Qed.

(** A read moves one cursor, within its buffer. *)
Lemma call_read_steady (readFn : ReadFn) (ptr len : Z) (h : Host) :
  0 <= ptr -> 0 <= len ->
  steady h (snd (call_read readFn ptr len h)).
Proof.
  intros Hptr Hlen. destruct readFn as [|c]; [apply steady_refl|].
  unfold call_read, bind, orThrow, ret, throw.
  destruct (cells h !! c) as [cell|] eqn:Ec; [|apply steady_refl].
  destruct (Z_lt_le_dec (cursor cell) 0) as [Hneg|Hcur].
  - (* a cursor that is not within its buffer: nothing to keep *)
    unfold mem_copy, modify. destruct (copy _ _ _ _ _) as [[n|e] m']; simpl.
    + split; [reflexivity|]. split; [reflexivity|]. split; [simpl; apply length_insert|].
      intros Hall. exfalso. apply (Forall_lookup_1 _ _ _ _ Hall) in Ec.
      unfold cell_ok in Ec. lia.
    + repeat split. auto.
  - destruct (copy_exact (data cell) (memory h) (cursor cell) ptr len Hcur Hptr) as [Hcopy _].
    destruct (Hcopy Hlen) as [E _].
    unfold mem_copy, modify. rewrite E. simpl.
    split; [reflexivity|]. split; [reflexivity|]. split; [simpl; apply length_insert|].
    intros Hall. apply Forall_insert; [exact Hall|].
    apply (Forall_lookup_1 _ _ _ _ Hall) in Ec. unfold cell_ok in *. simpl.
    pose proof (copy_count_bounds (data cell) (memory h) (cursor cell) ptr len Ec). lia.
Qed.

Lemma fd_read_loop_steady (iters : nat) (readFn : ReadFn) (iovsPtr : Z) :
  forall i read h, steady h (snd (fd_read_loop iters readFn iovsPtr i read h)).
Proof.
  induction iters as [|n IH]; intros i read h; [apply steady_refl|].
  cbn [fd_read_loop]. unfold bind at 1. unfold mem_getUint32 at 1.
  unfold bind at 1, getMemory, gets, orThrow.
  destruct (getUint32 (memory h) (iovsPtr + 8 * i)) as [ptr|] eqn:Ep; [|apply steady_refl].
  unfold ret at 1. unfold bind at 1. unfold mem_getUint32 at 1.
  unfold bind at 1, getMemory, gets, orThrow.
  destruct (getUint32 (memory h) (iovsPtr + 8 * i + 4)) as [len|] eqn:El; [|apply steady_refl].
  unfold ret at 1.
  pose proof (getUint32_range _ _ _ Ep) as Rp.
  pose proof (getUint32_range _ _ _ El) as Rl.
  pose proof (call_read_steady readFn ptr len h ltac:(lia) ltac:(lia)) as S.
  unfold bind at 1.
  destruct (call_read readFn ptr len h) as [[[readThisTime code]|e] h1]; [|exact S].
  simpl in S. destruct (negb (code =? 0)); [exact S|].
  destruct (readThisTime <? len); [exact S|].
  eapply steady_trans; [exact S | apply IH].
Qed.

Lemma fd_read_steady (fd iovsPtr iovsLen readPtr : Z) (h : Host) :
  steady h (snd (fd_read fd iovsPtr iovsLen readPtr h)).
Proof.
  unfold fd_read, bind, gets. destruct (openFds h !! fd) as [file|]; [|apply steady_refl].
  pose proof (fd_read_loop_steady (Z.to_nat iovsLen) (read file) iovsPtr 0 0 h) as S.
  destruct (fd_read_loop _ _ _ _ _ h) as [[[code|read]|e] h1]; simpl in *; try exact S.
  eapply steady_trans; [exact S|].
  pose proof (preserves_mem_setUint32 table table_memory readPtr read h1) as P.
  apply table_steady in P.
  destruct (mem_setUint32 readPtr read h1) as [[[]|e] h2]; exact P.
Qed.

(** The files of a tree that can be opened are its leaves. *)
Lemma children_get_In {T} (children : list (string * FileSystemNode T))
    (name : string) (node : FileSystemNode T) :
  children_get children name = Some node -> exists k, In (k, node) children.
Proof.
  induction children as [|[k n] children IH]; simpl; [discriminate|].
  destruct (String.eqb k name).
  - intros [= ->]. exists k. now left.
  - intros H. destruct (IH H) as [k' Hin]. exists k'. now right.
Qed.

Lemma resolves_leaf (path : string) (fileSystem : FileSystemNode File) (o : Outcome) :
  resolves path fileSystem o ->
  forall file p, o = Opened file -> In file (map snd (leaves p fileSystem)).
Proof.
  induction 1 as [| |? ? ?|? ? ? ? ?|path children entry o Hne Hget Hres IH| |];
    intros file' p Eo; try discriminate.
  - injection Eo as <-. now left.
  - destruct (children_get_In _ _ _ Hget) as [k Hin].
    simpl. rewrite in_map_iff.
    specialize (IH file' (p ++ "/" ++ k)%string Eo). rewrite in_map_iff in IH.
    destruct IH as [leaf [Hl Hin']]. exists leaf. split; [exact Hl|].
    rewrite in_flat_map. exists (k, entry). split; assumption.
Qed.

Lemma openFile_ok (root : FileSystemNode File) (path : string) (h : Host) :
  host_ok root h -> host_ok root (snd (openFile path root h)).
Proof.
  intros [H1 [H2 [H3 H4]]].
  destruct (openFile_resolves path root h) as [o [Hr ->]].
  destruct o as [errno|file|]; [repeat split; assumption| |].
  - pose proof (resolves_leaf _ _ _ Hr file EmptyString eq_refl) as Hin.
    rewrite in_map_iff in Hin. destruct Hin as [leaf [<- Hin]].
    rewrite Forall_forall in H4. apply list_elem_of_In in Hin.
    pose proof (H4 leaf Hin) as Hleaf.
    split; [now apply (fds_below_commit (Opened leaf.2))|].
    split; [exact H2|]. split; [|rewrite Forall_forall; exact H4].
    simpl. apply map_Forall_insert_2; [exact Hleaf | exact H3].
  - split; [now apply (fds_below_commit OpenedUndefined)|].
    split; [exact H2|]. split; [|exact H4].
    simpl. apply map_Forall_delete. exact H3.
Qed.

Lemma host_ok_trace (root : FileSystemNode File) (t : list Event) (h : Host) :
  host_ok root h -> host_ok root (with_trace t h).
Proof. apply host_ok_steady, table_steady. reflexivity. Qed.

(** Every import keeps the invariant. *)
Lemma wasi_unstable_ok (args : list DataView) (root : FileSystemNode File)
    (c : Syscall) (h : Host) :
  host_ok root h ->
  host_ok root (snd (wasi_unstable args root onExit_resolve c h)).
Proof.
  intros Hok. destruct c; simpl.
  - eapply host_ok_steady; [apply fd_read_steady | exact Hok].
  - eapply host_ok_steady; [|exact Hok].
    apply steady_preserves, preserves_fd_write; [apply table_memory | apply table_output].
  - eapply host_ok_steady; [|exact Hok]. apply table_steady.
    unfold proc_exit, bind, resolve, modify, throw. simpl. now destruct (promise h).
  - eapply host_ok_steady; [|exact Hok].
    apply steady_preserves, preserves_args_sizes_get, table_memory.
  - eapply host_ok_steady; [|exact Hok].
    apply steady_preserves, preserves_args_get, table_memory.
  - eapply host_ok_steady; [|exact Hok].
    apply steady_preserves, preserves_fd_prestat_get, table_memory.
  - eapply host_ok_steady; [|exact Hok].
    apply steady_preserves, preserves_fd_prestat_dir_name, table_memory.
  - unfold path_open, bind, getMemory, gets.
    match goal with |- context [openFile ?p root h] =>
      pose proof (openFile_ok root p h Hok) as Hopen;
      destruct (openFile p root h) as [[[fd code]|e] h1]
    end; [|exact Hopen].
    simpl in Hopen.
    pose proof (preserves_mem_setUint32 table table_memory resPtr fd h1) as P.
    apply table_steady in P.
    destruct (mem_setUint32 resPtr fd h1) as [[[]|e] h2];
      eapply host_ok_steady; eauto.
Qed.

(** The invariant holds after every run of a guest. *)
Lemma exec_ok (imports : Imports) :
  imp_onExit imports = onExit_resolve ->
  forall (g : Guest) (h : Host),
    host_ok (imp_fileSystem imports) h ->
    host_ok (imp_fileSystem imports) (snd (exec imports g h)).
Proof.
  intros Hon. induction g as [|f k IH|c k IH]; intros h Hok.
  - exact Hok.
  - simpl. unfold bind, log, modify. simpl. apply IH.
    eapply host_ok_steady; [|exact Hok]. apply table_steady. reflexivity.
  - cbn [exec]. unfold bind at 1. unfold import_call, bind at 1, log, modify. rewrite Hon.
    pose proof (wasi_unstable_ok (imp_args imports) (imp_fileSystem imports) c
                  (with_trace (trace h ++ [EvCall c]) h) (host_ok_trace _ _ _ Hok)) as H1.
    destruct (wasi_unstable _ _ _ c _) as [[r|e] h1]; [|exact H1].
    unfold bind, getMemory, gets. apply IH. exact H1.
Qed.

(** The files of a loaded tree have their closures. *)
Lemma loadFileSystem_ok (fs : FileSystemNode FileLoader) :
  forall (path : string) (h : Host) (root : FileSystemNode File) (h' : Host),
    loadFileSystem path fs h = (Ok (Some root), h') ->
    forall p, Forall (fun leaf => file_ok h' leaf.2) (leaves p root).
Proof.
  induction fs as [file|children IH] using FileSystemNode_ind_nested;
    intros path h root h' Hload p.
  - cbn in Hload. destruct (file path) as [text|]; [|discriminate Hload].
    injection Hload as <- <-. repeat constructor.
    unfold file_ok. simpl. rewrite length_app. simpl. lia.
  - assert (C : forall h rs h',
        map_entries (fun childPath node => loadFileSystem (path ++ "/" ++ childPath) node)
          children h = (Ok rs, h') ->
        forall l p, all_fulfilled rs = Some l ->
          Forall (fun leaf => file_ok h' leaf.2)
            (flat_map (fun '(childPath, node) => leaves (p ++ "/" ++ childPath) node) l)).
    { clear h root h' Hload p.
      induction children as [|[k node] children IHc]; intros h rs h' Hmap l p Hl.
      - injection Hmap as <- <-. injection Hl as <-. constructor.
      - apply Forall_cons_1 in IH. destruct IH as [IHnode IHrest].
        specialize (IHc IHrest). simpl in IHnode.
        cbn [map_entries] in Hmap. unfold bind at 1 in Hmap.
        destruct (loadFileSystem (path ++ "/" ++ k) node h) as [[r|e] h1] eqn:E1;
          [|discriminate Hmap].
        unfold bind at 1 in Hmap.
        match type of Hmap with context [?m h1] => destruct (m h1) as [[rs'|e] h2] eqn:E2 end;
          [|discriminate Hmap].
        injection Hmap as <- <-.
        simpl in Hl. destruct r as [r|]; [|discriminate Hl].
        destruct (all_fulfilled rs') as [l'|] eqn:El; [|discriminate Hl].
        injection Hl as <-. simpl. apply Forall_app. split.
        + (* the closures of the first child are still there *)
          pose proof (IHnode _ _ _ _ E1 (p ++ "/" ++ k)%string) as F1.
          destruct (loadFileSystem_spec (Directory children) path h1) as [x [Hx _]].
          cbn [loadFileSystem] in Hx. unfold bind in Hx. rewrite E2 in Hx.
          injection Hx as _ Hh2.
          eapply Forall_impl; [exact F1|]. intros leaf. unfold file_ok.
          rewrite Hh2. simpl. destruct (read leaf.2); [auto|]. rewrite length_app. lia.
        + now apply (IHc h1 rs' h2 E2 l' p). }
    cbn [loadFileSystem] in Hload. unfold bind in Hload.
    match type of Hload with context [?m h] => destruct (m h) as [[rs|e] h1] eqn:E end;
      [|discriminate Hload].
    injection Hload as Hroot <-.
    destruct (all_fulfilled rs) as [l|] eqn:El; [|discriminate Hroot].
    injection Hroot as <-. simpl. now apply (C h rs h1 E l p).
Qed.

(** Setup establishes the invariant. *)
Lemma prepareWasi_ok (wasmPath : string) (argStrings : list string)
    (fs : FileSystemNode FileLoader) (onExit : option (Z -> M unit))
    (imports : Imports) (h1 : Host) :
  prepareWasi wasmPath argStrings fs onExit host0 = (Ok imports, h1) ->
  host_ok (imp_fileSystem imports) h1.
Proof.
  intros Hsetup. cbv [prepareWasi bind] in Hsetup.
  destruct (loadFileSystem_spec fs "." host0) as [r [Hr _]].
  rewrite Hr in Hsetup. destruct r as [root|]; simpl in Hsetup; [|discriminate Hsetup].
  injection Hsetup as <- <-. simpl.
  pose proof (loadFileSystem_ok fs "." host0 root _ Hr) as Hleaves.
  split; [|split; [|split]].
  - unfold fds_below. simpl.
    repeat (apply map_Forall_insert_2; [lia|]). apply map_Forall_empty.
  - simpl. unfold created. apply Forall_forall. intros cell Hin.
    apply list_elem_of_In, in_map_iff in Hin. destruct Hin as [text [<- _]].
    unfold cell_ok. simpl. unfold byteLength. lia.
  - simpl. repeat (apply map_Forall_insert_2; [exact I|]). apply map_Forall_empty.
  - simpl. rewrite app_nil_r. exact (Hleaves _).
Qed.

(** The invariant holds wherever a run stops. *)
Lemma run_ok (binaryPath : string) (args : list string) (fs : FileSystemNode FileLoader)
    (imports : Imports) (h1 : Host) (mem : DataView) (g : Guest) :
  prepareWasi binaryPath args fs onExit_resolve host0 = (Ok imports, h1) ->
  host_ok (imp_fileSystem imports) (snd (exec imports g (with_memory mem h1))).
Proof.
  intros Hsetup.
  destruct (prepareWasi_spec binaryPath args fs onExit_resolve host0) as [_ [Hok _]].
  destruct (Hok imports h1 Hsetup) as [Hon _].
  apply (exec_ok imports Hon).
  eapply host_ok_steady; [|exact (prepareWasi_ok _ _ _ _ _ _ Hsetup)].
  apply table_steady. reflexivity.
Qed.

(** In a state that satisfies the invariant, the closure of every
    descriptor exists and its cursor lies within its buffer. *)
Lemma host_ok_cell (root : FileSystemNode File) (h : Host) (fd : Z) (file : File) (c : nat) :
  host_ok root h ->
  openFds h !! fd = Some file ->
  read file = readCell c ->
  exists cell, cells h !! c = Some cell /\ cell_ok cell.
Proof.
  intros [_ [Hcells [Hfiles _]]] Hfd Hread.
  apply Hfiles in Hfd. unfold file_ok in Hfd. rewrite Hread in Hfd.
  destruct (lookup_lt_is_Some_2 _ _ Hfd) as [cell Hc].
  exists cell. split; [exact Hc|]. exact (Forall_lookup_1 _ _ _ _ Hcells Hc).
Qed.

(** ** Descriptors and cursors *)

Lemma resolves_Failed_errno (path : string) (fileSystem : FileSystemNode File) (errno : Z) :
  resolves path fileSystem (Failed errno) -> errno <> 0.
Proof.
  intros H. remember (Failed errno) as o eqn:Eo.
  induction H; try (injection Eo as <-; discriminate); try discriminate Eo; auto.
Qed.




(** ** Sample runs *)

Lemma openFile_spec_witness :
  openFile "./lib/a" (imp_fileSystem sample_imports) sample_host
  = (Ok (4, 0),
     with_openFds (<[4 := created_file 1]> (openFds sample_host))
       (with_next_fd 5 sample_host))
  /\ openFile "./lib" (imp_fileSystem sample_imports) sample_host
     = (Ok (0, IS_A_DIRECTORY), sample_host)
  /\ openFile "./lib/b" (imp_fileSystem sample_imports) sample_host
     = (Ok (0, NO_SUCH_FILE_OR_DIRECTORY), sample_host)
  /\ openFile "./main/a" (imp_fileSystem sample_imports) sample_host
     = (Ok (0, NO_SUCH_FILE_OR_DIRECTORY), sample_host)
  /\ openFile "./lib/valueOf/a" (imp_fileSystem sample_imports) sample_host
     = (Ok (0, NO_SUCH_FILE_OR_DIRECTORY), sample_host).
Proof.
  assert (Hb : fds_below sample_host) by (apply (bool_decide_unpack _); vm_compute; exact I).
  split; [|split; [|split; [|split]]].
  - apply (proj1 (proj2 (openFile_spec "./lib/a" _ sample_host Hb)) (Opened (created_file 1))).
    do 3 (eapply resolves_child; [discriminate | vm_compute; reflexivity |]).
    apply resolves_file.
  - apply (proj1 (proj2 (openFile_spec "./lib" _ sample_host Hb)) (Failed IS_A_DIRECTORY)).
    do 2 (eapply resolves_child; [discriminate | vm_compute; reflexivity |]).
    apply resolves_directory.
  - apply (proj1 (proj2 (openFile_spec "./lib/b" _ sample_host Hb))
             (Failed NO_SUCH_FILE_OR_DIRECTORY)).
    do 2 (eapply resolves_child; [discriminate | vm_compute; reflexivity |]).
    apply resolves_no_child; [discriminate | reflexivity | reflexivity].
  - apply (proj1 (proj2 (openFile_spec "./main/a" _ sample_host Hb))
             (Failed NO_SUCH_FILE_OR_DIRECTORY)).
    do 2 (eapply resolves_child; [discriminate | vm_compute; reflexivity |]).
    apply resolves_past_file. discriminate.
  - apply (proj1 (proj2 (openFile_spec "./lib/valueOf/a" _ sample_host Hb))
             (Failed NO_SUCH_FILE_OR_DIRECTORY)).
    do 2 (eapply resolves_child; [discriminate | vm_compute; reflexivity |]).
    apply resolves_past_inherited; [discriminate | reflexivity | reflexivity | discriminate].
Defined.

Lemma openFile_trailing_slash_witness :
  openFile "./lib/a/" (Directory sample_children) sample_host
  = commit (Opened {| read := readCell 1; write := writeNotSupported; prestatName := None |})
      sample_host.
Proof.
  apply (openFile_trailing_slash sample_children "./lib/a"
           {| read := readCell 1; write := writeNotSupported; prestatName := None |}
           sample_host).
  reflexivity.
Defined.

Lemma fd_not_open_witness :
  fd_read 9 8 1 20 sample_opened = (Throw (NotOpen 9), sample_opened).
Proof. apply (fd_not_open 9 8 1 20 sample_opened). reflexivity. Defined.

Lemma runWasi_resolution_witness :
  promise (snd (runWasi (fun _ => Some {| memExport := None; startExport := Some Return |})
                  "watim.wasm" ["./test.watim"%string] sample_fs host0)) = Some None
  /\ promise (snd (runWasi (fun _ => Some (instance_of (guest_read Return)))
                     "watim.wasm" ["./test.watim"%string] sample_fs host0)) = Some (Some 0).
Proof.
  split.
  - apply (runWasi_resolution
             (fun _ => Some {| memExport := None; startExport := Some Return |})
             "watim.wasm" ["./test.watim"%string] sample_fs sample_imports
             {| memExport := None; startExport := Some Return |});
      reflexivity.
  - apply (runWasi_resolution (fun _ => Some (instance_of (guest_read Return)))
             "watim.wasm" ["./test.watim"%string] sample_fs sample_imports
             (instance_of (guest_read Return)));
      reflexivity.
Defined.

Lemma proc_exit_resolves_witness :
  promise (snd (runWasi (fun _ => Some (instance_of guest_exit))
                  "watim.wasm" ["./test.watim"%string] sample_fs host0)) = Some (Some 42).
Proof.
  apply (proc_exit_resolves (fun _ => Some (instance_of guest_exit))
           "watim.wasm" ["./test.watim"%string] sample_fs 42).
  vm_compute. right. right. left. reflexivity.
Defined.

(** C5 as stated fails: the unwind of [proc_exit(42)] is not caught at
    the call of the entry point.  The executor does not complete; it ends
    with the exception, although the promise has been resolved with 42. *)
Lemma proc_exit_counterexample :
  let run := runWasi (fun _ => Some (instance_of guest_exit))
               "watim.wasm" ["./test.watim"%string] sample_fs host0 in
  fst run = Throw (Exit 42)
  /\ fst run <> Ok tt
  /\ promise (snd run) = Some (Some 42).
Proof. vm_compute. repeat split. discriminate. Qed.


(** C1 at the arguments ["a.wasm"], ["x"], ["yz"]: [args_sizes_get]
    stores the count 3 and the size 12, while [args_get] writes the three
    arguments at the offsets 0, 6 and 7 of the buffer, each over the
    terminator of the one before, and one zero byte after the last: ten
    bytes, in which only the last argument is terminated. *)
Theorem args_get_sample :
  let run := runWasi (fun _ => Some (instance_of guest_args))
               "a.wasm" ["x"; "yz"]%string sample_fs host0 in
  let m := memory (snd run) in
  fst run = Ok tt
  /\ getUint32 m 48 = Some 3
  /\ getUint32 m 52 = Some 12
  /\ (getUint32 m 32, getUint32 m 36, getUint32 m 40) = (Some 0, Some 6, Some 7)
  /\ take 12 m = encode "a.wasmxyz" ++ ["000"; "000"; "000"]%byte
  /\ m !! 6%nat = Some "x"%byte.
Proof. vm_compute. repeat split. Qed.

(** * Further properties of the code *)

(** ** Writing *)

Lemma fd_write_loop_sink (tag iovsPtr : Z) (n : nat) :
  forall (i written : Z) (h : Host) (l : list (Z * Z)),
    iovecs_at (memory h) iovsPtr i n = Some l ->
    fd_write_loop n (writeSink tag) iovsPtr i written h =
      (Ok (inr (written + total (map (fun iov => byteLength (iovec_data (memory h) iov)) l))),
       with_output
         (output h ++ map (fun iov => (tag, decode (iovec_data (memory h) iov))) l) h).
Proof.
  induction n as [|n IH]; intros i written h l Hl.
  - injection Hl as <-. simpl. unfold ret. rewrite Z.add_0_r, app_nil_r.
    destruct h; reflexivity.
  - cbn [iovecs_at] in Hl.
    destruct (getUint32 (memory h) (iovsPtr + 8 * i)) as [ptr|] eqn:Ep; [|discriminate Hl].
    destruct (getUint32 (memory h) (iovsPtr + 8 * i + 4)) as [len|] eqn:El;
      [|discriminate Hl].
    destruct (iovecs_at (memory h) iovsPtr (i + 1) n) as [rest|] eqn:Er; [|discriminate Hl].
    injection Hl as <-.
    cbn [fd_write_loop]. unfold bind at 1. unfold mem_getUint32 at 1.
    unfold bind at 1, getMemory, gets, orThrow. rewrite Ep. unfold ret at 1.
    unfold bind at 1. unfold mem_getUint32 at 1.
    unfold bind at 1, getMemory, gets, orThrow. rewrite El. unfold ret at 1.
    unfold bind at 1. unfold bind at 1. cbn [call_write].
    unfold bind at 1, writeOutput, modify, ret at 1. cbn [negb Z.eqb].
    rewrite (IH (i + 1) _ _ rest) by exact Er.
    cbn [memory with_output output map total fold_right iovec_data fst snd].
    unfold total, iovec_data. cbn [fst snd]. f_equal; [do 2 f_equal; lia|].
    unfold with_output. cbn. now rewrite <- app_assoc.
Qed.

(** X1.  A write through a descriptor bound to a sink hands the bytes of
    each iovec, in order and one call each, to [writeOutput] with the tag
    of the sink; what an iovec holds is cut to the part that lies in guest
    memory.  The call returns 0 and stores the number of bytes handed over
    at the out-pointer; nothing else of guest memory changes. *)
Theorem fd_write_sink (fd iovsPtr iovsLen writtenPtr tag : Z) (h : Host)
    (file : File) (l : list (Z * Z)) :
  openFds h !! fd = Some file ->
  write file = writeSink tag ->
  iovecs_at (memory h) iovsPtr 0 (Z.to_nat iovsLen) = Some l ->
  in_bounds (memory h) writtenPtr 4 = true ->
  let chunks := map (iovec_data (memory h)) l in
  fd_write fd iovsPtr iovsLen writtenPtr h =
    (Ok 0,
     with_memory
       (splice (memory h) (Z.to_nat writtenPtr) (le_bytes (total (map byteLength chunks))))
       (with_output (output h ++ map (fun d => (tag, decode d)) chunks) h))
  /\ Forall (fun d => byteLength d <= byteLength (memory h)) chunks.
Proof.
  intros Hfd Hw Hl Hout chunks. split.
  - unfold fd_write, bind at 1, gets. rewrite Hfd, Hw.
    unfold bind at 1. rewrite (fd_write_loop_sink tag iovsPtr _ 0 0 h l Hl).
    unfold mem_setUint32, bind, getMemory, gets, orThrow, setUint32.
    cbn [memory with_output]. rewrite Hout. unfold ret, modify. cbn.
    subst chunks. rewrite !map_map. reflexivity.
  - subst chunks. apply Forall_forall. intros d Hd.
    apply list_elem_of_In, in_map_iff in Hd. destruct Hd as [iov [<- _]].
    unfold iovec_data, slice, byteLength. rewrite length_take, length_drop. lia.
Qed.

Lemma fd_write_loop_range (tag iovsPtr : Z) (k : nat) :
  forall (m : nat) (i written : Z) (h : Host) (l : list (Z * Z)),
    iovecs_at (memory h) iovsPtr i k = Some l ->
    iovecs_at (memory h) iovsPtr (i + Z.of_nat k) 1 = None ->
    fd_write_loop (k + S m) (writeSink tag) iovsPtr i written h =
      (Throw RangeError,
       with_output
         (output h ++ map (fun iov => (tag, decode (iovec_data (memory h) iov))) l) h).
Proof.
  induction k as [|k IH]; intros m i written h l Hl Hbad.
  - injection Hl as <-. rewrite Z.add_0_r in Hbad. cbn [iovecs_at] in Hbad.
    cbn [Nat.add fd_write_loop map]. rewrite app_nil_r.
    unfold bind at 1. unfold mem_getUint32 at 1. unfold bind at 1, getMemory, gets, orThrow.
    destruct (getUint32 (memory h) (iovsPtr + 8 * i)) as [ptr|];
      [|destruct h; reflexivity].
    unfold ret at 1. unfold bind at 1. unfold mem_getUint32 at 1.
    unfold bind at 1, getMemory, gets, orThrow.
    destruct (getUint32 (memory h) (iovsPtr + 8 * i + 4)) as [len|];
      [discriminate Hbad | destruct h; reflexivity].
  - cbn [iovecs_at] in Hl.
    destruct (getUint32 (memory h) (iovsPtr + 8 * i)) as [ptr|] eqn:Ep; [|discriminate Hl].
    destruct (getUint32 (memory h) (iovsPtr + 8 * i + 4)) as [len|] eqn:El;
      [|discriminate Hl].
    destruct (iovecs_at (memory h) iovsPtr (i + 1) k) as [rest|] eqn:Er; [|discriminate Hl].
    injection Hl as <-.
    cbn [Nat.add fd_write_loop]. unfold bind at 1. unfold mem_getUint32 at 1.
    unfold bind at 1, getMemory, gets, orThrow. rewrite Ep. unfold ret at 1.
    unfold bind at 1. unfold mem_getUint32 at 1.
    unfold bind at 1, getMemory, gets, orThrow. rewrite El. unfold ret at 1.
    unfold bind at 1. unfold bind at 1. cbn [call_write].
    unfold bind at 1, writeOutput, modify, ret at 1. cbn [negb Z.eqb].
    rewrite (IH m (i + 1) _ _ rest);
      [|exact Er|cbn [memory with_output]; rewrite <- Hbad; f_equal; lia].
    cbn [memory with_output output map]. f_equal.
    unfold with_output. cbn. now rewrite <- app_assoc.
Qed.

(** X2.  When the iovec array runs past the end of guest memory,
    [fd_write] raises [RangeError] after it has handed the iovecs before
    the unreadable one to the sink: the output produced so far stays, the
    out-pointer is not written. *)
Theorem fd_write_partial (fd iovsPtr iovsLen writtenPtr tag : Z) (h : Host)
    (file : File) (k : nat) (l : list (Z * Z)) :
  openFds h !! fd = Some file ->
  write file = writeSink tag ->
  (k < Z.to_nat iovsLen)%nat ->
  iovecs_at (memory h) iovsPtr 0 k = Some l ->
  iovecs_at (memory h) iovsPtr (Z.of_nat k) 1 = None ->
  fd_write fd iovsPtr iovsLen writtenPtr h =
    (Throw RangeError,
     with_output (output h ++ map (fun iov => (tag, decode (iovec_data (memory h) iov))) l) h).
Proof.
  intros Hfd Hw Hk Hl Hbad.
  unfold fd_write, bind at 1, gets. rewrite Hfd, Hw. unfold bind at 1.
  replace (Z.to_nat iovsLen) with (k + S (Z.to_nat iovsLen - S k))%nat by lia.
  rewrite (fd_write_loop_range tag iovsPtr k _ 0 0 h l Hl); [reflexivity|].
  now rewrite Z.add_0_l.
Qed.

(** ** Unsupported operations and empty requests *)

(** X3.  Reading through a descriptor whose file cannot be read (standard
    input, the sinks, the preopened directory) and writing through one
    whose file cannot be written (standard input, the preopened directory,
    every file of the tree) return errno 58 as soon as there is a first
    iovec to fetch, and change nothing: no memory, no cursor, no output. *)
Theorem not_supported (fd iovsPtr iovsLen outPtr : Z) (h : Host)
    (file : File) (ptr len : Z) :
  openFds h !! fd = Some file ->
  1 <= iovsLen ->
  getUint32 (memory h) iovsPtr = Some ptr ->
  getUint32 (memory h) (iovsPtr + 4) = Some len ->
  (read file = readNotSupported ->
   fd_read fd iovsPtr iovsLen outPtr h = (Ok NOT_SUPPORTED, h))
  /\ (write file = writeNotSupported ->
      fd_write fd iovsPtr iovsLen outPtr h = (Ok NOT_SUPPORTED, h)).
Proof.
  intros Hfd Hn Hptr Hlen.
  destruct (Z.to_nat iovsLen) as [|n] eqn:En; [lia|].
  split; intros Hf.
  - unfold fd_read, bind at 1, gets. rewrite Hfd, Hf. unfold bind at 1. rewrite En.
    cbn [fd_read_loop]. cbv zeta. rewrite Z.mul_0_r, Z.add_0_r.
    unfold mem_getUint32, bind, getMemory, gets, orThrow. rewrite Hptr. unfold ret at 1. rewrite Hlen. reflexivity.
  - unfold fd_write, bind at 1, gets. rewrite Hfd, Hf. unfold bind at 1. rewrite En.
    cbn [fd_write_loop]. cbv zeta. rewrite Z.mul_0_r, Z.add_0_r.
    unfold mem_getUint32, bind, getMemory, gets, orThrow. rewrite Hptr. unfold ret at 1.
    rewrite Hlen. reflexivity.
Qed.

(** X4.  With no iovec (a count of 0 or less) [fd_read] and [fd_write]
    return 0 and store 0 at the out-pointer for every open descriptor,
    also one whose file does not support the operation; no cursor moves
    and nothing is output. *)
Theorem empty_request (fd iovsPtr iovsLen outPtr : Z) (h : Host) (file : File) :
  openFds h !! fd = Some file ->
  iovsLen <= 0 ->
  in_bounds (memory h) outPtr 4 = true ->
  let stored := with_memory (splice (memory h) (Z.to_nat outPtr) (le_bytes 0)) h in
  fd_read fd iovsPtr iovsLen outPtr h = (Ok 0, stored)
  /\ fd_write fd iovsPtr iovsLen outPtr h = (Ok 0, stored)
  /\ getUint32 (memory stored) outPtr = Some 0.
Proof.
  intros Hfd Hn Hout stored.
  split; [|split].
  - unfold fd_read, bind at 1, gets. rewrite Hfd. unfold bind at 1.
    replace (Z.to_nat iovsLen) with O by lia. cbn [fd_read_loop]. unfold ret at 1.
    unfold mem_setUint32, bind, getMemory, gets, orThrow, setUint32. rewrite Hout.
    reflexivity.
  - unfold fd_write, bind at 1, gets. rewrite Hfd. unfold bind at 1.
    replace (Z.to_nat iovsLen) with O by lia. cbn [fd_write_loop]. unfold ret at 1.
    unfold mem_setUint32, bind, getMemory, gets, orThrow, setUint32. rewrite Hout.
    reflexivity.
  - apply (getUint32_setUint32 (memory h) _ outPtr 0).
    unfold setUint32. rewrite Hout. reflexivity.
Qed.

(** ** Reading, continued *)

Lemma chunks_full (l : list (Z * Z)) :
  Forall (fun iov => 0 <= iov.1 /\ 0 <= iov.2) l ->
  forall bytes,
    total (map snd l) <= byteLength bytes ->
    map (fun chunk => byteLength chunk.2) (chunks l bytes) = map snd l.
Proof.
  induction 1 as [|[ptr len] l [_ Hlen] Hrest IH]; intros bytes Hb; [reflexivity|].
  pose proof (total_nonneg l Hrest) as Ht. cbn [snd] in Hlen.
  unfold total in *. cbn [map fold_right snd] in Hb.
  cbn [chunks map snd]. f_equal.
  - unfold byteLength in *. rewrite length_take. lia.
  - apply IH. unfold byteLength in *. rewrite length_drop. lia.
Qed.

(** X5.  A request of [N] bytes, [N] being the sum of the lengths of its
    buffers, through a descriptor bound to a file that has at least [N]
    bytes left past the cursor.  When the iovec array and the out-pointer
    lie in guest memory, and the buffers that are not empty lie in guest
    memory and off the iovec array, the call fills every buffer, in order,
    with the next bytes of the content, advances the cursor by [N], stores
    [N] at the out-pointer and returns 0. *)
Theorem fd_read_exact (fd iovsPtr iovsLen readPtr : Z) (h : Host)
    (file : File) (c : nat) (cell : Cell) (l : list (Z * Z)) :
  openFds h !! fd = Some file ->
  read file = readCell c ->
  cells h !! c = Some cell ->
  0 <= cursor cell <= byteLength (data cell) ->
  iovecs_at (memory h) iovsPtr 0 (Z.to_nat iovsLen) = Some l ->
  let left := drop (Z.to_nat (cursor cell)) (data cell) in
  let N := total (map snd l) in
  N <= byteLength (data cell) - cursor cell ->
  Forall (chunk_ok (memory h) iovsPtr iovsLen) (chunks l left) ->
  in_bounds (memory h) readPtr 4 = true ->
  fd_read fd iovsPtr iovsLen readPtr h =
    (Ok 0,
     with_memory
       (splice (scatter (memory h) (chunks l left)) (Z.to_nat readPtr) (le_bytes N))
       (with_cells (<[c := {| data := data cell; cursor := cursor cell + N |}]> (cells h))
          h))
  /\ map (fun chunk => byteLength chunk.2) (chunks l left) = map snd l
  /\ concat (map snd (chunks l left)) = take (Z.to_nat N) left.
Proof.
  intros Hfd Hread Hc Hcur Hl left N HN Hok Hout.
  destruct (fd_read_gather fd iovsPtr iovsLen readPtr h file c cell l
              Hfd Hread Hc Hcur Hl Hok Hout) as [E [Hcat _]].
  fold left in E, Hcat.
  replace (Z.min (total (map snd l)) (byteLength (data cell) - cursor cell)) with N
    in E, Hcat by (unfold N; lia).
  split; [exact E|]. split; [|exact Hcat].
  destruct (iovecs_at_range _ _ _ _ _ Hl) as [_ Hr].
  apply (chunks_full l Hr).
  unfold left, byteLength in *. rewrite length_drop. fold N. lia.
Qed.

(** X6.  Two reads in a row through the [read] of a file made by
    [createFile] deliver consecutive parts of its content: the second
    starts where the first stopped, and the cursor ends at the sum of what
    the two returned, never past the end of the content. *)
Theorem reads_are_sequential (c : nat) (cell : Cell) (p1 n1 p2 n2 : Z) (h : Host) :
  cells h !! c = Some cell ->
  0 <= cursor cell <= byteLength (data cell) ->
  0 <= p1 -> 0 <= n1 -> 0 <= p2 -> 0 <= n2 ->
  let k1 := copy_count (data cell) (memory h) (cursor cell) p1 n1 in
  let b1 := take (Z.to_nat k1) (drop (Z.to_nat (cursor cell)) (data cell)) in
  let m1 := splice (memory h) (Z.to_nat p1) b1 in
  let k2 := copy_count (data cell) m1 (cursor cell + k1) p2 n2 in
  let b2 := take (Z.to_nat k2) (drop (Z.to_nat (cursor cell + k1)) (data cell)) in
  bind (call_read (readCell c) p1 n1) (fun _ => call_read (readCell c) p2 n2) h =
    (Ok (k2, 0),
     with_cells
       (<[c := {| data := data cell; cursor := cursor cell + k1 + k2 |}]> (cells h))
       (with_memory (splice m1 (Z.to_nat p2) b2) h))
  /\ b1 ++ b2 = take (Z.to_nat (k1 + k2)) (drop (Z.to_nat (cursor cell)) (data cell))
  /\ cursor cell + k1 + k2 <= byteLength (data cell).
Proof.
  intros Hc Hcur Hp1 Hn1 Hp2 Hn2 k1 b1 m1 k2 b2.
  assert (Hk1 : 0 <= k1 <= byteLength (data cell) - cursor cell)
    by (apply copy_count_bounds; lia).
  assert (Hk2 : 0 <= k2 <= byteLength (data cell) - (cursor cell + k1))
    by (apply copy_count_bounds; lia).
  split; [|split; [|lia]].
  - unfold bind.
    rewrite (call_read_cell c cell p1 n1 h Hc ltac:(lia) Hp1 Hn1). fold k1 b1 m1.
    set (h1 := with_cells _ _).
    assert (Hc1 : cells h1 !! c = Some {| data := data cell; cursor := cursor cell + k1 |}).
    { unfold h1. cbn [cells with_cells with_memory].
      apply list_lookup_insert_eq. now apply lookup_lt_Some in Hc. }
    rewrite (call_read_cell c _ p2 n2 h1 Hc1 ltac:(simpl; lia) Hp2 Hn2).
    cbn [data cursor]. unfold h1. cbn [memory cells with_cells with_memory].
    fold k2 b2. rewrite list_insert_insert_eq. reflexivity.
  - unfold b1, b2.
    replace (Z.to_nat (cursor cell + k1)) with (Z.to_nat (cursor cell) + Z.to_nat k1)%nat
      by lia.
    rewrite <- drop_drop. replace (Z.to_nat (k1 + k2)) with (Z.to_nat k1 + Z.to_nat k2)%nat
      by lia.
    apply take_take_drop.
Qed.

(** ** Opening, continued *)

(** X7.  Opening the same path twice in a row gives two consecutive
    descriptors bound alike: both to one and the same file object when the
    path leads to a file, both to [undefined] when its last segment is an
    inherited name; the first binding is as it was after the second
    open. *)
Theorem open_twice (path : string) (fileSystem : FileSystemNode File)
    (h h1 : Host) (fd : Z) :
  openFile path fileSystem h = (Ok (fd, 0), h1) ->
  let again := openFile path fileSystem h1 in
  fst again = Ok (fd + 1, 0)
  /\ next_fd (snd again) = fd + 2
  /\ openFds (snd again) !! (fd + 1) = openFds h1 !! fd
  /\ openFds (snd again) !! fd = openFds h1 !! fd
  /\ (forall file, resolves path fileSystem (Opened file) -> openFds h1 !! fd = Some file)
  /\ (resolves path fileSystem OpenedUndefined -> openFds h1 !! fd = None).
Proof.
  intros Hopen again. subst again.
  destruct (openFile_resolves path fileSystem h) as [o [Hr Ho]].
  rewrite Ho in Hopen.
  destruct (openFile_resolves path fileSystem h1) as [o' [Hr' ->]].
  rewrite (resolves_deterministic _ _ _ _ Hr' Hr).
  destruct o as [errno|file|]; simpl in Hopen.
  - injection Hopen as _ He _. subst errno. now apply resolves_Failed_errno in Hr.
  - injection Hopen as <- <-. cbn.
    split; [reflexivity|]. split; [lia|].
    rewrite !lookup_insert_eq, lookup_insert_ne by lia. rewrite lookup_insert_eq.
    repeat split.
    + intros file' Hr''. pose proof (resolves_deterministic _ _ _ _ Hr'' Hr) as E.
      now injection E as ->.
    + intros Hr''. pose proof (resolves_deterministic _ _ _ _ Hr'' Hr) as E. discriminate E.
  - injection Hopen as <- <-. cbn.
    split; [reflexivity|]. split; [lia|].
    rewrite !lookup_delete_eq, lookup_delete_ne by lia. rewrite lookup_delete_eq.
    repeat split.
    intros file' Hr''. pose proof (resolves_deterministic _ _ _ _ Hr'' Hr) as E. discriminate E.
Qed.

Lemma append_assoc (a b c : string) : ((a ++ b) ++ c = a ++ (b ++ c))%string.
Proof.
  induction a as [|x a IH]; [reflexivity|].
  change (String x ((a ++ b) ++ c) = String x (a ++ (b ++ c)))%string. now rewrite IH.
Qed.

(** X8.  One slash at the end of a path changes nothing: for a path that
    is not empty and does not end in a slash already, [openFile] does on
    the path followed by a slash what it does on the path, whatever the
    node and the state. *)
Theorem trailing_slash_ignored (p : string) :
  p <> EmptyString ->
  (forall q, p <> (q ++ "/")%string) ->
  forall (node : FileSystemNode File) (h : Host),
    openFile (p ++ "/") node h = openFile p node h.
Proof.
  remember (String.length p) as n eqn:Hn. revert p Hn.
  induction n as [n IH] using lt_wf_ind. intros p Hn Hne Hend node h.
  rewrite (openFile_step _ node (append_slash_nonempty p EmptyString)).
  rewrite (openFile_step p node Hne).
  destruct (split_cases p) as [[Hs Ht] | [Hs [Hl Ht]]].
  - destruct (Ht EmptyString) as [-> ->].
    destruct (split_first_segment p) as [rest [Hs' Hj]]. rewrite Hs in Hs'.
    injection Hs' as Hf <-. rewrite <- Hf. simpl in Hj. rewrite <- Hj. reflexivity.
  - destruct (Ht "/"%string) as [-> ->].
    destruct node as [file|children]; [reflexivity|].
    pose proof (first_slash_after p Hs) as Hp.
    assert (Hrest : after_first_segment p <> EmptyString).
    { intros E. rewrite E in Hp. now apply (Hend (first_segment p)). }
    destruct (children_index children (first_segment p)) as [entry| |]; [| |reflexivity].
    + apply (IH (String.length (after_first_segment p)) ltac:(lia) _ eq_refl).
      * exact Hrest.
      * intros q E. rewrite E in Hp.
        apply (Hend (first_segment p ++ String "/" q)%string).
        rewrite Hp at 1. now rewrite append_assoc.
    + rewrite !openFile_inherited_spec.
      destruct (after_first_segment p) as [|c r] eqn:E; [contradiction|].
      reflexivity.
Qed.

(** X9.  The root that [prepareWasi] builds has the loaded tree as its
    only child, under the name ["."]: a path whose first segment is neither
    ["."] nor an inherited name (an absolute path, a bare file name) fails
    with errno 44 and changes nothing, as the empty path does with errno
    31, and ["./" ++ p] is resolved as [p] in the loaded tree. *)
Theorem root_is_dot (root : FileSystemNode File) (path : string) (h : Host) :
  let fileSystem := Directory [("."%string, root)] in
  (path <> EmptyString -> first_segment path <> "."%string ->
   ~ In (first_segment path) inherited_names ->
   openFile path fileSystem h = (Ok (0, NO_SUCH_FILE_OR_DIRECTORY), h))
  /\ openFile EmptyString fileSystem h = (Ok (0, IS_A_DIRECTORY), h)
  /\ openFile ("./" ++ path) fileSystem h = openFile path root h.
Proof.
  intros fileSystem. split; [|split].
  - intros Hne Hseg Hin. unfold fileSystem. rewrite (openFile_step path _ Hne).
    unfold children_index. cbn [children_get].
    destruct (String.eqb_spec "." (first_segment path)) as [E|_].
    + now rewrite <- E in Hseg.
    + rewrite (not_inherited _ Hin). reflexivity.
  - apply openFile_exhausted.
  - unfold fileSystem. rewrite openFile_step by discriminate. reflexivity.
Qed.

(** X10.  [path_open] decodes the path it finds in guest memory, resolves
    it, and returns the errno of the resolution with the descriptor, or 0
    when the resolution failed, stored at the result pointer.  When the
    result pointer is outside guest memory the call raises [RangeError],
    and a descriptor that the resolution allocated stays allocated. *)
Theorem path_open_spec (fileSystem : FileSystemNode File)
    (parentFd dirflags pathPtr pathLen oflags rb ri fdFlags resPtr : Z)
    (o : Outcome) (h : Host) :
  resolves (decode (slice (memory h) pathPtr (pathPtr + pathLen))) fileSystem o ->
  let fd := match o with Failed _ => 0 | _ => next_fd h end in
  let errno := match o with Failed errno => errno | _ => 0 end in
  path_open fileSystem parentFd dirflags pathPtr pathLen oflags rb ri fdFlags resPtr h =
    if in_bounds (memory h) resPtr 4
    then (Ok errno,
          with_memory (splice (memory h) (Z.to_nat resPtr) (le_bytes fd)) (snd (commit o h)))
    else (Throw RangeError, snd (commit o h)).
Proof.
  intros Hr fd errno.
  unfold path_open, bind at 1, getMemory, gets.
  destruct (openFile_resolves (decode (slice (memory h) pathPtr (pathPtr + pathLen)))
              fileSystem h) as [o' [Hr' Ho]].
  rewrite (resolves_deterministic _ _ _ _ Hr' Hr) in Ho.
  unfold bind at 1. rewrite Ho.
  destruct o as [e|file|]; cbn [commit snd];
    unfold mem_setUint32, bind, getMemory, gets, orThrow, setUint32;
    cbn [memory with_openFds with_next_fd];
    destruct (in_bounds (memory h) resPtr 4); reflexivity.
Qed.

(** ** Setup, continued *)

Lemma length_created (path : string) (fs : FileSystemNode FileLoader) :
  all_resolve path fs -> length (created path fs) = length (leaves path fs).
Proof.
  unfold created, all_resolve. rewrite length_map.
  induction 1 as [|leaf l [text Ht] _ IH]; simpl; [reflexivity|].
  rewrite Ht. simpl. f_equal. exact IH.
Qed.

(** The leaves of a loaded tree, in order: the paths of the leaves it
    was loaded from and the files of the closures created for them. *)
Lemma loadFileSystem_leaves (fs : FileSystemNode FileLoader) :
  forall (path : string) (h : Host) (root : FileSystemNode File) (h' : Host),
    loadFileSystem path fs h = (Ok (Some root), h') ->
    map fst (leaves path root) = map fst (leaves path fs)
    /\ map snd (leaves path root) =
         map created_file (seq (length (cells h)) (length (leaves path fs)))
    /\ all_resolve path fs.
Proof.
  induction fs as [file|children IH] using FileSystemNode_ind_nested;
    intros path h root h' Hload.
  - cbn in Hload. destruct (file path) as [text|] eqn:E; [|discriminate Hload].
    injection Hload as <- <-. repeat split.
    repeat constructor. unfold leaf_text. simpl. rewrite E. now eexists.
  - assert (C : forall h rs h' l,
        map_entries (fun childPath node => loadFileSystem (path ++ "/" ++ childPath) node)
          children h = (Ok rs, h') ->
        all_fulfilled rs = Some l ->
        map fst (leaves path (Directory l)) = map fst (leaves path (Directory children))
        /\ map snd (leaves path (Directory l)) =
             map created_file
               (seq (length (cells h)) (length (leaves path (Directory children))))
        /\ all_resolve path (Directory children)).
    { clear h root h' Hload.
      induction children as [|[k node] children IHc]; intros h rs h' l Hmap Hl.
      - injection Hmap as <- <-. injection Hl as <-. repeat split. constructor.
      - apply Forall_cons_1 in IH. destruct IH as [IHnode IHrest].
        specialize (IHc IHrest). simpl in IHnode.
        cbn [map_entries] in Hmap. unfold bind at 1 in Hmap.
        destruct (loadFileSystem (path ++ "/" ++ k) node h) as [[r|e] h1] eqn:E1;
          [|discriminate Hmap].
        unfold bind at 1 in Hmap.
        match type of Hmap with context [?m h1] => destruct (m h1) as [[rs'|e] h2] eqn:E2 end;
          [|discriminate Hmap].
        injection Hmap as <- <-.
        simpl in Hl. destruct r as [r|]; [|discriminate Hl].
        destruct (all_fulfilled rs') as [l'|] eqn:El; [|discriminate Hl].
        injection Hl as <-.
        destruct (IHnode _ _ _ _ E1) as [F1 [S1 A1]].
        destruct (IHc h1 rs' h2 l' E2 El) as [F2 [S2 A2]].
        destruct (loadFileSystem_spec node (path ++ "/" ++ k) h) as [x [Hx _]].
        rewrite E1 in Hx. injection Hx as _ Hh1.
        assert (L1 : length (cells h1) =
                     (length (cells h) + length (leaves (path ++ "/" ++ k) node))%nat).
        { rewrite Hh1. cbn [cells with_trace with_cells].
          rewrite length_app, length_created by exact A1. reflexivity. }
        cbn [leaves flat_map] in *. rewrite !map_app, length_app, seq_app, map_app.
        rewrite F1, F2, S1, S2, L1. repeat split.
        unfold all_resolve in *. cbn [leaves flat_map]. apply Forall_app. now split. }
    cbn [loadFileSystem] in Hload. unfold bind in Hload.
    match type of Hload with context [?m h] => destruct (m h) as [[rs|e] h1] eqn:E end;
      [|discriminate Hload].
    injection Hload as Hroot <-.
    destruct (all_fulfilled rs) as [l|] eqn:El; [|discriminate Hroot].
    injection Hroot as <-. exact (C h rs h1 l E El).
Qed.

(** What a successful [prepareWasi] has done. *)
Lemma prepareWasi_inv (wasmPath : string) (argStrings : list string)
    (fs : FileSystemNode FileLoader) (onExit : option (Z -> M unit))
    (h : Host) (imports : Imports) (h1 : Host) :
  prepareWasi wasmPath argStrings fs onExit h = (Ok imports, h1) ->
  let loaded := with_trace (trace h ++ loads "." fs)
                  (with_cells (cells h ++ created "." fs) h) in
  exists root,
    loadFileSystem "." fs h = (Ok (Some root), loaded)
    /\ imports = {| imp_args := map encode (wasmPath :: argStrings);
                   imp_fileSystem := Directory [("."%string, root)];
                   imp_onExit := onExit |}
    /\ h1 = with_openFds
              (<[3 := readNotSupportedFile (Some "."%string)]>
                 (<[2 := sinkFile STDERR]>
                    (<[1 := sinkFile STDOUT]>
                       (<[0 := readNotSupportedFile None]> ∅))))
              (with_next_fd 4 loaded).
Proof.
  intros Hsetup loaded. cbv [prepareWasi bind] in Hsetup.
  destruct (loadFileSystem_spec fs "." h) as [r [Hr _]]. fold loaded in Hr.
  rewrite Hr in Hsetup. destruct r as [root|]; simpl in Hsetup; [|discriminate Hsetup].
  injection Hsetup as <- <-. exists root. repeat split. exact Hr.
Qed.

(** X11.  After a successful setup the loaded tree has the leaves of the
    tree it was given, at the same paths and in the same order; the i-th
    leaf is a file with a closure of its own, the i-th, whose buffer is the
    encoding of the text the i-th loader resolved with and whose cursor is
    0; the files of the tree cannot be written and are no preopens. *)
Theorem loaded_tree (wasmPath : string) (argStrings : list string)
    (fs : FileSystemNode FileLoader) (onExit : option (Z -> M unit))
    (imports : Imports) (h1 : Host) :
  prepareWasi wasmPath argStrings fs onExit host0 = (Ok imports, h1) ->
  exists root,
    imp_fileSystem imports = Directory [("."%string, root)]
    /\ map fst (leaves "." root) = map fst (leaves "." fs)
    /\ map snd (leaves "." root) = map created_file (seq 0 (length (leaves "." fs)))
    /\ map (fun cell => Some (data cell)) (cells h1)
       = map (fun leaf => option_map encode (leaf_text leaf)) (leaves "." fs)
    /\ Forall (fun cell => cursor cell = 0) (cells h1).
Proof.
  intros Hsetup.
  destruct (prepareWasi_inv _ _ _ _ _ _ _ Hsetup) as [root [Hload [-> ->]]].
  destruct (loadFileSystem_leaves fs "." host0 root _ Hload) as [F [S A]].
  exists root. split; [reflexivity|]. split; [exact F|]. split; [exact S|].
  cbn [cells with_openFds with_next_fd with_trace with_cells host0 app].
  unfold created. split.
  - clear -A. unfold all_resolve in A. rewrite map_map.
    induction A as [|leaf l [text Ht] _ IH]; simpl; [reflexivity|].
    rewrite Ht. simpl. f_equal. exact IH.
  - apply Forall_forall. intros cell Hin.
    apply list_elem_of_In, in_map_iff in Hin. now destruct Hin as [text [<- _]].
Qed.


(** ** The descriptor table during a run *)

(** An import adds at most a binding for the next descriptor. *)
Lemma wasi_unstable_extends (args : list DataView) (root : FileSystemNode File)
    (c : Syscall) (h : Host) :
  host_ok root h ->
  let h' := snd (wasi_unstable args root onExit_resolve c h) in
  next_fd h <= next_fd h'
  /\ forall fd file, openFds h !! fd = Some file -> openFds h' !! fd = Some file.
Proof.
  intros Hok h'. subst h'.
  assert (St : forall h', steady h h' ->
            next_fd h <= next_fd h'
            /\ forall fd file, openFds h !! fd = Some file -> openFds h' !! fd = Some file).
  { intros h' [A [B _]]. rewrite A, B. split; [lia | auto]. }
  destruct c; simpl.
  - apply St, fd_read_steady.
  - apply St, steady_preserves, preserves_fd_write; [apply table_memory | apply table_output].
  - apply St, table_steady.
    unfold proc_exit, bind, resolve, modify, throw. simpl. now destruct (promise h).
  - apply St, steady_preserves, preserves_args_sizes_get, table_memory.
  - apply St, steady_preserves, preserves_args_get, table_memory.
  - apply St, steady_preserves, preserves_fd_prestat_get, table_memory.
  - apply St, steady_preserves, preserves_fd_prestat_dir_name, table_memory.
  - unfold path_open, bind, getMemory, gets.
    match goal with |- context [openFile ?p root h] =>
      destruct (openFile_resolves p root h) as [o [_ Ho]]; rewrite Ho
    end.
    assert (Hc : next_fd h <= next_fd (snd (commit o h))
                 /\ forall fd file, openFds h !! fd = Some file ->
                      openFds (snd (commit o h)) !! fd = Some file).
    { destruct o as [errno|file|]; simpl; [split; [lia | auto]| |].
      - split; [lia|]. intros fd f Hf. rewrite lookup_insert_ne; [exact Hf|].
        destruct Hok as [Hb _]. apply Hb in Hf. simpl in Hf. lia.
      - split; [lia|]. intros fd f Hf. rewrite lookup_delete_ne; [exact Hf|].
        destruct Hok as [Hb _]. apply Hb in Hf. simpl in Hf. lia. }
    destruct (commit o h) as [[[fd code]|e] h1]; [|exact Hc].
    simpl in Hc.
    pose proof (preserves_mem_setUint32 table table_memory resPtr fd h1) as P.
    destruct (mem_setUint32 resPtr fd h1) as [[[]|e] h2]; simpl in *;
      injection P as -> -> _; exact Hc.
Qed.

Lemma exec_Call (imports : Imports) (c : Syscall) (k : Z -> DataView -> Guest) (h : Host) :
  exec imports (Call c k) h =
    match wasi_unstable (imp_args imports) (imp_fileSystem imports) (imp_onExit imports) c
            (with_trace (trace h ++ [EvCall c]) h) with
    | (Ok r, h1) => exec imports (k r (memory h1)) h1
    | (Throw e, h1) => (Throw e, h1)
    end.
Proof.
  cbn [exec]. unfold bind at 1. unfold import_call, bind at 1, log, modify.
  destruct (wasi_unstable _ _ _ c _) as [[r|e] h1]; reflexivity.
Qed.

Lemma exec_Compute (imports : Imports) (f : DataView -> DataView) (k : Guest) (h : Host) :
  exec imports (Compute f k) h =
    exec imports k (with_memory (f (memory h)) (with_trace (trace h ++ [EvCompute]) h)).
Proof. reflexivity. Qed.

Lemma exec_extends (imports : Imports) :
  imp_onExit imports = onExit_resolve ->
  forall (g : Guest) (h : Host),
    host_ok (imp_fileSystem imports) h ->
    let h' := snd (exec imports g h) in
    next_fd h <= next_fd h'
    /\ forall fd file, openFds h !! fd = Some file -> openFds h' !! fd = Some file.
Proof.
  intros Hon. induction g as [|f k IH|c k IH]; intros h Hok.
  - simpl. split; [lia | auto].
  - cbn zeta. rewrite exec_Compute.
    match goal with |- context [exec imports k ?s] =>
      apply (IH s); eapply host_ok_steady; [|exact Hok]; apply table_steady; reflexivity
    end.
  - cbn zeta. rewrite exec_Call, Hon.
    set (h0 := with_trace (trace h ++ [EvCall c]) h).
    pose proof (wasi_unstable_ok (imp_args imports) (imp_fileSystem imports) c h0
                  (host_ok_trace _ _ _ Hok)) as Hok1.
    pose proof (wasi_unstable_extends (imp_args imports) (imp_fileSystem imports) c h0
                  (host_ok_trace _ _ _ Hok)) as E1.
    cbn zeta in E1.
    destruct (wasi_unstable _ _ _ c h0) as [[r|e] h1]; cbn [snd] in *; [|exact E1].
    destruct (IH r (memory h1) h1 Hok1) as [A B]. destruct E1 as [A1 B1].
    split; [cbn in A1; lia | auto].
Qed.

(** X13.  Descriptors are never closed, rebound or reused: whatever the
    guest does from a state of a run on, the counter does not decrease and
    every descriptor of the table stays bound to the file it was bound
    to. *)
Theorem descriptors_stable (imports : Imports) (g : Guest) (h : Host) :
  imp_onExit imports = onExit_resolve ->
  host_ok (imp_fileSystem imports) h ->
  let h' := snd (exec imports g h) in
  next_fd h <= next_fd h'
  /\ (forall fd file, openFds h !! fd = Some file -> openFds h' !! fd = Some file)
  /\ host_ok (imp_fileSystem imports) h'.
Proof.
  intros Hon Hok h'. destruct (exec_extends imports Hon g h Hok) as [A B].
  split; [exact A|]. split; [exact B|]. now apply exec_ok.
Qed.

(** The table keeps its shape. *)
Lemma table_ok_same (root : FileSystemNode File) (h h' : Host) :
  openFds h' = openFds h -> next_fd h' = next_fd h ->
  table_ok root h -> table_ok root h'.
Proof. intros A B [H1 [H2 H3]]. unfold table_ok. rewrite A, B. auto. Qed.

Lemma table_ok_steady (root : FileSystemNode File) (h h' : Host) :
  steady h h' -> table_ok root h -> table_ok root h'.
Proof. intros [A [B _]]. now apply table_ok_same. Qed.

Lemma openFile_table_ok (root : FileSystemNode File) (path : string) (h : Host) :
  table_ok root h -> table_ok root (snd (openFile path root h)).
Proof.
  intros [H1 [H2 H3]].
  destruct (openFile_resolves path root h) as [o [Hr ->]].
  destruct o as [errno|file|]; [repeat split; assumption| |].
  - pose proof (resolves_leaf _ _ _ Hr file EmptyString eq_refl) as Hin.
    rewrite in_map_iff in Hin. destruct Hin as [leaf [<- Hin]].
    rewrite Forall_forall in H3. apply list_elem_of_In in Hin.
    destruct (H3 leaf Hin) as [c Hc].
    split; [|split; [simpl; lia | rewrite Forall_forall; exact H3]].
    simpl. apply map_Forall_insert_2; [|exact H1].
    right. right. right. right. split; [exact H2 | now exists c].
  - split; [|split; [simpl; lia | exact H3]].
    simpl. apply map_Forall_delete. exact H1.
Qed.

Lemma wasi_unstable_table_ok (args : list DataView) (root : FileSystemNode File)
    (c : Syscall) (h : Host) :
  table_ok root h ->
  table_ok root (snd (wasi_unstable args root onExit_resolve c h)).
Proof.
  intros Hok. destruct c; simpl.
  - eapply table_ok_steady; [apply fd_read_steady | exact Hok].
  - eapply table_ok_steady; [|exact Hok].
    apply steady_preserves, preserves_fd_write; [apply table_memory | apply table_output].
  - eapply table_ok_steady; [|exact Hok]. apply table_steady.
    unfold proc_exit, bind, resolve, modify, throw. simpl. now destruct (promise h).
  - eapply table_ok_steady; [|exact Hok].
    apply steady_preserves, preserves_args_sizes_get, table_memory.
  - eapply table_ok_steady; [|exact Hok].
    apply steady_preserves, preserves_args_get, table_memory.
  - eapply table_ok_steady; [|exact Hok].
    apply steady_preserves, preserves_fd_prestat_get, table_memory.
  - eapply table_ok_steady; [|exact Hok].
    apply steady_preserves, preserves_fd_prestat_dir_name, table_memory.
  - unfold path_open, bind, getMemory, gets.
    match goal with |- context [openFile ?p root h] =>
      pose proof (openFile_table_ok root p h Hok) as Hopen;
      destruct (openFile p root h) as [[[fd code]|e] h1]
    end; [|exact Hopen].
    simpl in Hopen.
    pose proof (preserves_mem_setUint32 table table_memory resPtr fd h1) as P.
    apply table_steady in P.
    destruct (mem_setUint32 resPtr fd h1) as [[[]|e] h2];
      eapply table_ok_steady; eauto.
Qed.

Lemma exec_table_ok (imports : Imports) :
  imp_onExit imports = onExit_resolve ->
  forall (g : Guest) (h : Host),
    table_ok (imp_fileSystem imports) h ->
    table_ok (imp_fileSystem imports) (snd (exec imports g h)).
Proof.
  intros Hon. induction g as [|f k IH|c k IH]; intros h Hok.
  - exact Hok.
  - rewrite exec_Compute. apply IH.
    eapply table_ok_same; [| |exact Hok]; reflexivity.
  - rewrite exec_Call, Hon.
    pose proof (wasi_unstable_table_ok (imp_args imports) (imp_fileSystem imports) c
                  (with_trace (trace h ++ [EvCall c]) h)
                  (table_ok_same _ h _ eq_refl eq_refl Hok)) as H1.
    destruct (wasi_unstable _ _ _ c _) as [[r|e] h1]; [exact (IH _ _ _ H1) | exact H1].
Qed.

(** The files at the leaves of a tree do not depend on the path prefix. *)
Lemma leaves_snd {T} (fileSystem : FileSystemNode T) :
  forall p q, map snd (leaves p fileSystem) = map snd (leaves q fileSystem).
Proof.
  induction fileSystem as [file|children IH] using FileSystemNode_ind_nested;
    intros p q; [reflexivity|].
  simpl. induction children as [|[k node] children IHc]; [reflexivity|].
  apply Forall_cons_1 in IH. destruct IH as [IHnode IHrest].
  simpl. rewrite !map_app. f_equal; [apply IHnode | now apply IHc].
Qed.

Lemma prepareWasi_table_ok (wasmPath : string) (argStrings : list string)
    (fs : FileSystemNode FileLoader) (onExit : option (Z -> M unit))
    (imports : Imports) (h1 : Host) :
  prepareWasi wasmPath argStrings fs onExit host0 = (Ok imports, h1) ->
  table_ok (imp_fileSystem imports) h1.
Proof.
  intros Hsetup.
  destruct (prepareWasi_inv _ _ _ _ _ _ _ Hsetup) as [root [Hload [-> ->]]].
  destruct (loadFileSystem_leaves fs "." host0 root _ Hload) as [_ [S _]].
  split; [|split].
  - cbn [openFds with_openFds]. unfold std_binding.
    repeat (apply map_Forall_insert_2; [tauto|]). apply map_Forall_empty.
  - simpl. lia.
  - cbn [imp_fileSystem leaves flat_map]. rewrite app_nil_r.
    apply Forall_forall. intros leaf Hin. apply list_elem_of_In in Hin.
    assert (Hs : In leaf.2 (map snd (leaves (EmptyString ++ "/" ++ ".") root)))
      by (apply in_map; exact Hin).
    rewrite (leaves_snd root _ "."%string), S, in_map_iff in Hs.
    destruct Hs as [c [Hc _]]. now exists c.
Qed.


(** X15.  Wherever a run stops, descriptor 3 is the only preopen:
    [fd_prestat_get] and [fd_prestat_dir_name] return errno 8 for every
    other number, open or not, and leave the state alone, while
    [fd_prestat_get(3, p)] with [p] in guest memory stores the kind 0 and
    the length 1 of the name ["."] and returns 0. *)
Theorem only_preopen_is_3 (binaryPath : string) (args : list string)
    (fs : FileSystemNode FileLoader) (imports : Imports) (h1 : Host)
    (mem : DataView) (g : Guest) :
  prepareWasi binaryPath args fs onExit_resolve host0 = (Ok imports, h1) ->
  let h' := snd (exec imports g (with_memory mem h1)) in
  (forall fd p len, fd <> 3 ->
     fd_prestat_get fd p h' = (Ok 8, h')
     /\ fd_prestat_dir_name fd p len h' = (Ok 8, h'))
  /\ (forall p, in_bounds (memory h') p 8 = true ->
        fd_prestat_get 3 p h' =
          (Ok 0,
           with_memory
             (splice (splice (memory h') (Z.to_nat p) (le_bytes 0))
                (Z.to_nat (p + 4)) (le_bytes 1)) h')).
Proof.
  intros Hsetup h'.
  destruct (prepareWasi_spec binaryPath args fs onExit_resolve host0) as [_ [Hv _]].
  destruct (Hv imports h1 Hsetup) as [Hon _].
  assert (Hok : host_ok (imp_fileSystem imports) (with_memory mem h1)).
  { eapply host_ok_steady; [|exact (prepareWasi_ok _ _ _ _ _ _ Hsetup)].
    apply table_steady. reflexivity. }
  assert (Htab : table_ok (imp_fileSystem imports) (with_memory mem h1)).
  { eapply table_ok_same; [| |exact (prepareWasi_table_ok _ _ _ _ _ _ Hsetup)]; reflexivity. }
  destruct (exec_extends imports Hon g _ Hok) as [_ Hext]. fold h' in Hext.
  pose proof (exec_table_ok imports Hon g _ Htab) as [Hshape _]. fold h' in Hshape.
  split.
  - intros fd p len Hne.
    assert (Hname : forall file, openFds h' !! fd = Some file -> prestatName file = None).
    { intros file Hfd. apply Hshape in Hfd.
      destruct Hfd as [[_ ->]|[[_ ->]|[[_ ->]|[[E _]|[_ [c ->]]]]]];
        try reflexivity. contradiction. }
    unfold fd_prestat_get, fd_prestat_dir_name, bind, gets.
    destruct (openFds h' !! fd) as [file|]; [|split; reflexivity].
    rewrite (Hname file eq_refl). split; reflexivity.
  - intros p Hp.
    assert (H3 : openFds h' !! 3 = Some (readNotSupportedFile (Some "."%string))).
    { apply Hext. destruct (prepareWasi_inv _ _ _ _ _ _ _ Hsetup) as [root [_ [_ ->]]].
      cbn [openFds with_memory with_openFds]. now rewrite lookup_insert_eq. }
    apply in_bounds_spec in Hp.
    assert (B1 : in_bounds (memory h') p 4 = true) by (apply in_bounds_spec; lia).
    assert (L1 : length (splice (memory h') (Z.to_nat p) (le_bytes 0)) = length (memory h')).
    { apply length_splice. unfold byteLength in Hp. simpl. lia. }
    assert (B2 : in_bounds (splice (memory h') (Z.to_nat p) (le_bytes 0)) (p + 4) 4 = true).
    { apply in_bounds_spec. unfold byteLength in *. rewrite L1. lia. }
    unfold fd_prestat_get, bind at 1, gets. rewrite H3. cbn [prestatName readNotSupportedFile].
    unfold mem_setUint32 at 1, bind, getMemory, gets, orThrow, setUint32. rewrite B1.
    unfold ret at 1, modify at 1. unfold mem_setUint32, bind, getMemory, gets, orThrow, setUint32.
    cbn [memory with_memory]. rewrite B2. reflexivity.
Qed.

(** X16.  [fd_prestat_dir_name] on a preopen copies the name to [ptr] cut
    to [len] bytes and to what guest memory can take, and returns 0 also
    when the name was cut; with a negative [len] it copies nothing. *)
Theorem prestat_dir_name_truncates (fd ptr len : Z) (h : Host) (file : File) (name : string) :
  openFds h !! fd = Some file ->
  prestatName file = Some name ->
  0 <= ptr ->
  let n := Z.max 0 (Z.min len (Z.min (byteLength (encode name)) (byteLength (memory h) - ptr))) in
  fd_prestat_dir_name fd ptr len h =
    (Ok 0, with_memory (splice (memory h) (Z.to_nat ptr) (take (Z.to_nat n) (encode name))) h)
  /\ n <= Z.max 0 len.
Proof.
  intros Hfd Hname Hptr n. split; [|lia].
  unfold fd_prestat_dir_name, bind at 1, gets. rewrite Hfd, Hname.
  unfold bind, mem_copy.
  destruct (copy_exact (encode name) (memory h) 0 ptr len ltac:(lia) Hptr) as [Hpos Hneg].
  destruct (Z_lt_le_dec len 0) as [Hl|Hl].
  - rewrite (Hneg Hl). replace n with 0 by lia. simpl. rewrite splice_nil.
    destruct h; reflexivity.
  - destruct (Hpos Hl) as [E _]. rewrite E. unfold copy_count.
    rewrite Z.sub_0_r. fold n. reflexivity.
Qed.

(** ** The output of a run *)

Lemma output_memory (m : DataView) (h : Host) : output (with_memory m h) = output h.
Proof. reflexivity. Qed.

Lemma output_call_read (readFn : ReadFn) (ptr len : Z) :
  preserves output (call_read readFn ptr len).
Proof.
  destruct readFn as [|c]; simpl; [apply preserves_ret|].
  intros h. unfold bind, mem_copy, modify, orThrow, ret, throw.
  destruct (cells h !! c) as [cell|]; [|reflexivity].
  destruct (copy _ _ _ _ _) as [[n|e] m']; reflexivity.
Qed.

Lemma output_openFile (path : string) (fileSystem : FileSystemNode File) :
  preserves output (openFile path fileSystem).
Proof.
  intros h. destruct (openFile_resolves path fileSystem h) as [o [_ ->]].
  destruct o; reflexivity.
Qed.

Lemma fd_write_loop_output_ok (iters : nat) (writeFn : WriteFn) (iovsPtr : Z) :
  (forall tag, writeFn = writeSink tag -> tag = STDOUT \/ tag = STDERR) ->
  forall i written h,
    output_ok h -> output_ok (snd (fd_write_loop iters writeFn iovsPtr i written h)).
Proof.
  intros Htag. induction iters as [|n IH]; intros i written h Hok; [exact Hok|].
  cbn [fd_write_loop]. unfold bind at 1. unfold mem_getUint32 at 1.
  unfold bind at 1, getMemory, gets, orThrow.
  destruct (getUint32 (memory h) (iovsPtr + 8 * i)) as [ptr|]; [|exact Hok].
  unfold ret at 1. unfold bind at 1. unfold mem_getUint32 at 1.
  unfold bind at 1, getMemory, gets, orThrow.
  destruct (getUint32 (memory h) (iovsPtr + 8 * i + 4)) as [len|]; [|exact Hok].
  unfold ret at 1. unfold bind at 1. unfold bind at 1.
  destruct writeFn as [|tag]; cbn [call_write]; [exact Hok|].
  unfold bind at 1, writeOutput, modify, ret at 1. cbn [negb Z.eqb].
  apply IH. unfold output_ok. cbn [output with_output].
  apply Forall_app. split; [exact Hok|]. constructor; [|constructor]. simpl. now apply Htag.
Qed.

Lemma wasi_unstable_output_ok (args : list DataView) (root : FileSystemNode File)
    (c : Syscall) (h : Host) :
  table_ok root h -> output_ok h ->
  output_ok (snd (wasi_unstable args root onExit_resolve c h)).
Proof.
  intros [Hshape _] Hok.
  assert (Same : forall (m : M Z), preserves output m -> output_ok (snd (m h))).
  { intros m P. unfold output_ok. now rewrite (P h). }
  destruct c; simpl.
  - apply Same, preserves_fd_read; [apply output_memory | intros; apply output_call_read].
  - unfold fd_write, bind at 1, gets.
    destruct (openFds h !! fd) as [file|] eqn:Hfd; [|exact Hok].
    unfold bind.
    pose proof (fd_write_loop_output_ok (Z.to_nat iovsLen) (write file) iovsPtr) as L.
    assert (Htag : forall tag, write file = writeSink tag -> tag = STDOUT \/ tag = STDERR).
    { intros tag Hw. apply Hshape in Hfd.
      destruct Hfd as [[_ ->]|[[_ ->]|[[_ ->]|[[_ ->]|[_ [c ->]]]]]];
        simpl in Hw; try discriminate Hw; injection Hw as <-; auto. }
    specialize (L Htag 0 0 h Hok).
    destruct (fd_write_loop _ _ _ _ _ h) as [[[code|written]|e] h1]; simpl in *; try exact L.
    pose proof (preserves_mem_setUint32 output output_memory writtenPtr written h1) as P.
    destruct (mem_setUint32 writtenPtr written h1) as [[[]|e] h2]; simpl in *;
      unfold output_ok; rewrite P; exact L.
  - unfold proc_exit, bind, resolve, modify, throw. simpl. now destruct (promise h).
  - apply Same, preserves_args_sizes_get, output_memory.
  - apply Same, preserves_args_get, output_memory.
  - apply Same, preserves_fd_prestat_get, output_memory.
  - apply Same, preserves_fd_prestat_dir_name, output_memory.
  - apply Same, preserves_path_open; [apply output_memory | intros; apply output_openFile].
Qed.

Lemma exec_output_ok (imports : Imports) :
  imp_onExit imports = onExit_resolve ->
  forall (g : Guest) (h : Host),
    table_ok (imp_fileSystem imports) h -> output_ok h ->
    output_ok (snd (exec imports g h)).
Proof.
  intros Hon. induction g as [|f k IH|c k IH]; intros h Htab Hok.
  - exact Hok.
  - rewrite exec_Compute. apply IH; [|exact Hok].
    eapply table_ok_same; [| |exact Htab]; reflexivity.
  - rewrite exec_Call, Hon.
    set (h0 := with_trace (trace h ++ [EvCall c]) h).
    assert (Htab0 : table_ok (imp_fileSystem imports) h0)
      by (eapply table_ok_same; [| |exact Htab]; reflexivity).
    pose proof (wasi_unstable_table_ok (imp_args imports) _ c h0 Htab0) as T1.
    pose proof (wasi_unstable_output_ok (imp_args imports) _ c h0 Htab0 Hok) as O1.
    destruct (wasi_unstable _ _ _ c h0) as [[r|e] h1]; [exact (IH _ _ _ T1 O1) | exact O1].
Qed.

(** X17.  Whatever the module, the arguments and the tree, every call of
    [writeOutput] made during a run is tagged 1 or 2. *)
Theorem output_tags (loadWasm : Imports -> option Instance)
    (binaryPath : string) (args : list string) (fs : FileSystemNode FileLoader) :
  Forall (fun entry => entry.1 = 1 \/ entry.1 = 2)
    (output (snd (runWasi loadWasm binaryPath args fs host0))).
Proof.
  change (output_ok (snd (runWasi loadWasm binaryPath args fs host0))).
  assert (R : forall v h, output_ok h -> output_ok (snd (resolve v h))).
  { intros v h Hok. unfold resolve, modify. simpl. now destruct (promise h). }
  destruct (prepareWasi binaryPath args fs onExit_resolve host0) as [[imports|e] h1] eqn:Es.
  - rewrite (runWasi_after_setup _ _ _ _ _ _ Es).
    pose proof (prepareWasi_table_ok _ _ _ _ _ _ Es) as Htab.
    destruct (prepareWasi_spec binaryPath args fs onExit_resolve host0) as [_ [Hv _]].
    destruct (Hv imports h1 Es) as [Hon _].
    assert (Hout : output_ok h1).
    { destruct (prepareWasi_inv _ _ _ _ _ _ _ Es) as [root [_ [_ ->]]]. constructor. }
    destruct (loadWasm imports) as [instance|]; [|exact Hout].
    destruct (memExport instance) as [mem|]; [|now apply R].
    destruct (startExport instance) as [start|]; [|now apply R].
    pose proof (exec_output_ok imports Hon start (with_memory mem h1)
                  (table_ok_same _ h1 _ eq_refl eq_refl Htab) Hout) as O.
    destruct (exec imports start (with_memory mem h1)) as [[[]|e] h2]; [now apply R | exact O].
  - rewrite (runWasi_setup_failed _ _ _ _ _ _ Es).
    destruct (prepareWasi_spec binaryPath args fs onExit_resolve host0) as [_ [_ Hfail]].
    rewrite (Hfail e h1 Es). constructor.
Qed.

(** X18.  An exception that leaves the executor and is not the unwind of
    [proc_exit] leaves the promise handed to the caller pending: the run
    neither resolves nor rejects, and no [proc_exit] was called. *)
Theorem fatal_error_pending (loadWasm : Imports -> option Instance)
    (binaryPath : string) (args : list string) (fs : FileSystemNode FileLoader) (e : Error) :
  let run := runWasi loadWasm binaryPath args fs host0 in
  fst run = Throw e ->
  (forall code, e <> Exit code) ->
  promise (snd run) = None
  /\ forall code, ~ In (EvCall (call_proc_exit code)) (trace (snd run)).
Proof.
  intros run. subst run.
  destruct (prepareWasi binaryPath args fs onExit_resolve host0) as [[imports|e'] h1] eqn:Es.
  - rewrite (runWasi_after_setup _ _ _ _ _ _ Es).
    destruct (setup_view _ _ _ _ _ Es) as [Hon [Hp [Ht [_ Hno]]]].
    destruct (loadWasm imports) as [instance|]; [|intros _ _; split; assumption].
    destruct (memExport instance) as [mem|].
    2: { destruct (resolve_spec None h1) as [-> _]. discriminate. }
    destruct (startExport instance) as [start|].
    2: { destruct (resolve_spec None (with_memory mem h1)) as [-> _]. discriminate. }
    destruct (exec_course imports Hon start (with_memory mem h1) Hp Hno)
      as [_ [_ [[Hp2 Hno2]|[c [before [Hthrow _]]]]]].
    + destruct (exec imports start (with_memory mem h1)) as [[[]|e''] h2]; cbn [fst snd] in *.
      * destruct (resolve_spec (Some 0) h2) as [-> _]. discriminate.
      * intros _ _. split; assumption.
    + destruct (exec imports start (with_memory mem h1)) as [r h2]; cbn [fst snd] in *.
      subst r. intros [= <-] Hne. now destruct (Hne c).
  - rewrite (runWasi_setup_failed _ _ _ _ _ _ Es). simpl. intros _ _.
    destruct (prepareWasi_spec binaryPath args fs onExit_resolve host0) as [_ [_ Hfail]].
    rewrite (Hfail e' h1 Es). simpl. split; [reflexivity|].
    intros code. unfold loads. rewrite in_map_iff. intros [leaf [Heq _]]. discriminate.
Qed.

(** ** Trees of the page *)

Lemma leaves_mapFileSystemNode {A B : Type} (f : A -> B) (entry : FileSystemNode A) :
  forall path,
    leaves path (mapFileSystemNode f entry)
    = map (fun leaf => (leaf.1, f leaf.2)) (leaves path entry).
Proof.
  induction entry as [file|children IH] using FileSystemNode_ind_nested; intros path.
  - reflexivity.
  - cbn [mapFileSystemNode leaves].
    induction children as [|[k node] children IHc]; [reflexivity|].
    apply Forall_cons_1 in IH. destruct IH as [IHnode IHrest].
    cbn [map flat_map]. rewrite map_app. f_equal; [|exact (IHc IHrest)].
    apply (IHnode (path ++ "/" ++ k)%string).
Qed.

(** X19.  [mapFileSystemNode] keeps the shape of the tree: the leaves of
    the result are those of the argument, at the same paths and in the same
    order, each with the image of its file; mapping twice is mapping with
    the composition. *)
Theorem mapFileSystemNode_shape {A B C : Type} (f : A -> B) (g : B -> C)
    (entry : FileSystemNode A) (path : string) :
  map fst (leaves path (mapFileSystemNode f entry)) = map fst (leaves path entry)
  /\ map snd (leaves path (mapFileSystemNode f entry)) = map f (map snd (leaves path entry))
  /\ mapFileSystemNode g (mapFileSystemNode f entry) = mapFileSystemNode (fun a => g (f a)) entry.
Proof.
  rewrite leaves_mapFileSystemNode, !map_map. split; [reflexivity|]. split; [reflexivity|].
  clear path.
  induction entry as [file|children IH] using FileSystemNode_ind_nested; [reflexivity|].
  cbn [mapFileSystemNode]. f_equal.
  induction children as [|[k node] children IHc]; [reflexivity|].
  apply Forall_cons_1 in IH. destruct IH as [IHnode IHrest].
  cbn [map]. f_equal; [|exact (IHc IHrest)].
  f_equal. exact IHnode.
Qed.

Lemma leaves_loaders_of (fetchFile : FileLoader) (files : FileSystemNode (option string))
    (path : string) :
  map fst (leaves path (loaders_of fetchFile files)) = map fst (leaves path files)
  /\ map leaf_text (leaves path (loaders_of fetchFile files))
     = map (page_text fetchFile) (leaves path files).
Proof.
  unfold loaders_of. rewrite (leaves_mapFileSystemNode (B := FileLoader)), !map_map.
  split; [reflexivity|].
  apply map_ext. intros [p [text|]]; reflexivity.
Qed.

(** X20.  The tree the page hands to the run has a loader at each file of
    the page's tree: it resolves with the text the page holds for the file,
    and for a file without text with what [fetchFile] gives at the path of
    the file, [./dir/name].  Setup succeeds exactly when [fetchFile]
    resolves at each file without text. *)
Theorem page_loaders (fetchFile : FileLoader) (files : FileSystemNode (option string))
    (wasmPath : string) (argStrings : list string) (onExit : option (Z -> M unit)) :
  let fs := loaders_of fetchFile files in
  map fst (leaves "." fs) = map fst (leaves "." files)
  /\ map leaf_text (leaves "." fs) = map (page_text fetchFile) (leaves "." files)
  /\ (Forall (fun leaf => leaf.2 = None -> is_Some (fetchFile leaf.1)) (leaves "." files)
      <-> exists imports h1,
            prepareWasi wasmPath argStrings fs onExit host0 = (Ok imports, h1)).
Proof.
  intros fs. destruct (leaves_loaders_of fetchFile files ".") as [Hp Ht].
  split; [exact Hp|]. split; [exact Ht|].
  assert (E : all_resolve "." fs
              <-> Forall (fun leaf => leaf.2 = None -> is_Some (fetchFile leaf.1))
                    (leaves "." files)).
  { unfold all_resolve.
    rewrite <- (List.Forall_map leaf_text (fun t : option string => is_Some t)).
    fold fs in Ht. rewrite Ht, List.Forall_map.
    apply Forall_iff. intros [p [text|]]; unfold page_text; simpl.
    - split; [intros _ H; discriminate H | intros _; now eexists].
    - split; [intros H _; exact H | intros H; now apply H]. }
  rewrite <- E. split.
  - intros Hall.
    destruct (prepareWasi_spec wasmPath argStrings fs onExit host0) as [Hok _].
    destruct (Hok Hall) as [root Hroot]. eauto.
  - intros [imports [h1 Hsetup]].
    destruct (prepareWasi_inv _ _ _ _ _ _ _ Hsetup) as [root [Hl _]].
    now destruct (loadFileSystem_leaves fs "." host0 root _ Hl) as [_ [_ A]].
Qed.

(** ** The cache of the page *)

Lemma cached_all_spec (f : FileLoader) (requests : list string) :
  forall cache,
    (forall k v, cache !! k = Some v -> f k = Some v) ->
    let '(answers, cache', calls) := cached_all f requests cache in
    answers = map f requests
    /\ (forall k v, cache' !! k = Some v -> f k = Some v)
    /\ (forall k, is_Some (cache !! k) -> is_Some (cache' !! k))
    /\ (forall k, is_Some (cache !! k) -> ~ In k calls)
    /\ (forall k, In k calls -> In k requests)
    /\ (forall k, is_Some (f k) -> In k requests -> is_Some (cache' !! k))
    /\ (forall k, is_Some (f k) -> (count_occ string_dec calls k <= 1)%nat)
    /\ (forall k, f k = None -> count_occ string_dec calls k = count_occ string_dec requests k)
    /\ (forall k, is_Some (cache' !! k) -> is_Some (cache !! k) \/ In k calls).
Proof.
  induction requests as [|i rest IH]; intros cache Hsub.
  - simpl. repeat split; try tauto; try (intros; simpl; lia).
  - cbn [cached_all]. unfold cached.
    destruct (cache !! i) as [v|] eqn:Ei.
    + specialize (IH cache Hsub).
      destruct (cached_all f rest cache) as [[answers cache2] calls2].
      destruct IH as (Ha & Hs & Hk & Hn & Hc & Hr & H1 & H0 & Hb).
      cbn [app map]. rewrite (Hsub i v Ei), Ha.
      repeat split; try assumption.
      * intros k Hin. right. now apply Hc.
      * intros k Hf [<-|Hin]; [apply Hk; now rewrite Ei | now apply Hr].
      * intros k Hf. cbn [count_occ].
        destruct (string_dec i k) as [<-|]; [|now apply H0].
        rewrite (Hsub i v Ei) in Hf. discriminate Hf.
    + destruct (f i) as [nv|] eqn:Ef.
      * assert (Hsub1 : forall k v, <[i := nv]> cache !! k = Some v -> f k = Some v).
        { intros k v. destruct (decide (i = k)) as [<-|Hne].
          - rewrite lookup_insert_eq. now intros [= <-].
          - rewrite lookup_insert_ne by exact Hne. apply Hsub. }
        specialize (IH (<[i := nv]> cache) Hsub1).
        destruct (cached_all f rest (<[i := nv]> cache)) as [[answers cache2] calls2].
        destruct IH as (Ha & Hs & Hk & Hn & Hc & Hr & H1 & H0 & Hb).
        assert (Hup : forall k, is_Some (cache !! k) -> is_Some (<[i := nv]> cache !! k)).
        { intros k Hk'. destruct (decide (i = k)) as [<-|Hne].
          - rewrite lookup_insert_eq. now eexists.
          - now rewrite lookup_insert_ne. }
        assert (Hi : is_Some (<[i := nv]> cache !! i))
          by (rewrite lookup_insert_eq; now eexists).
        cbn [app map]. rewrite Ef, Ha.
        repeat split; try assumption.
        -- intros k Hk'. apply Hk, Hup, Hk'.
        -- intros k Hk' [<-|Hin]; [rewrite Ei in Hk'; now destruct Hk' |].
           now apply (Hn k (Hup k Hk')).
        -- intros k [<-|Hin]; [now left | right; now apply Hc].
        -- intros k Hf [<-|Hin]; [now apply Hk | now apply Hr].
        -- intros k Hf. cbn [count_occ].
           destruct (string_dec i k) as [<-|]; [|now apply H1].
           assert (count_occ string_dec calls2 i = 0%nat)
             by (apply count_occ_not_In; now apply Hn).
           lia.
        -- intros k Hf. cbn [count_occ].
           destruct (string_dec i k) as [<-|]; [congruence | now apply H0].
        -- intros k Hk'. destruct (Hb k Hk') as [Hin|Hin]; [|right; now right].
           destruct (decide (i = k)) as [<-|Hne]; [right; now left|].
           rewrite lookup_insert_ne in Hin by exact Hne. now left.
      * specialize (IH cache Hsub).
        destruct (cached_all f rest cache) as [[answers cache2] calls2].
        destruct IH as (Ha & Hs & Hk & Hn & Hc & Hr & H1 & H0 & Hb).
        cbn [app map]. rewrite Ef, Ha.
        repeat split; try assumption.
        -- intros k Hk' [<-|Hin]; [rewrite Ei in Hk'; now destruct Hk' | now apply (Hn k)].
        -- intros k [<-|Hin]; [now left | right; now apply Hc].
        -- intros k Hf [<-|Hin]; [rewrite Ef in Hf; now destruct Hf | now apply Hr].
        -- intros k Hf. cbn [count_occ].
           destruct (string_dec i k) as [<-|]; [rewrite Ef in Hf; now destruct Hf | now apply H1].
        -- intros k Hf. cbn [count_occ].
           destruct (string_dec i k) as [<-|]; [f_equal|]; now apply H0.
        -- intros k Hk'. destruct (Hb k Hk') as [Hin|Hin]; [now left | right; now right].
Qed.

(** X21.  For a loader whose answer depends on the path only, the function
    [cached] returns answers every request as the loader would; it calls
    the loader only for paths that are requested, once at most for a path
    at which the loader resolves, and once for each request of a path at
    which it rejects: a rejection is not remembered. *)
Theorem cached_transparent (f : FileLoader) (requests : list string) :
  let '(answers, cache, calls) := cached_all f requests ∅ in
  answers = map f requests
  /\ (forall k v, cache !! k = Some v <-> In k requests /\ f k = Some v)
  /\ (forall k, In k calls -> In k requests)
  /\ (forall k, is_Some (f k) ->
        count_occ string_dec calls k = Nat.min 1 (count_occ string_dec requests k))
  /\ (forall k, f k = None -> count_occ string_dec calls k = count_occ string_dec requests k).
Proof.
  pose proof (cached_all_spec f requests ∅) as H.
  destruct (cached_all f requests ∅) as [[answers cache] calls].
  destruct H as (Ha & Hs & Hk & Hn & Hc & Hr & H1 & H0 & Hb).
  { intros k v Hk. rewrite lookup_empty in Hk. discriminate Hk. }
  assert (Hcalled : forall k, is_Some (cache !! k) -> In k calls).
  { intros k Hk'. destruct (Hb k Hk') as [He|Hin]; [|exact Hin].
    rewrite lookup_empty in He. now destruct He. }
  split; [exact Ha|]. split; [|split; [exact Hc|split; [|exact H0]]].
  - intros k v. split.
    + intros Hk'. split; [|now apply Hs]. apply Hc, Hcalled. exists v. exact Hk'.
    + intros [Hin Hf]. destruct (Hr k) as [w Hw]; [exists v; exact Hf | exact Hin |].
      rewrite Hw. f_equal. apply Hs in Hw. congruence.
  - intros k Hf. specialize (H1 k Hf).
    destruct (in_dec string_dec k requests) as [Hin|Hnot].
    + assert (count_occ string_dec calls k > 0)%nat
        by (apply count_occ_In, Hcalled, Hr; assumption).
      assert (count_occ string_dec requests k > 0)%nat by (now apply count_occ_In).
      lia.
    + assert (count_occ string_dec requests k = 0%nat) by (now apply count_occ_not_In).
      assert (count_occ string_dec calls k = 0%nat)
        by (apply count_occ_not_In; intros Hin; now apply Hnot, Hc).
      lia.
Qed.

(** ** The argument sizes *)

Lemma args_size_total (l : list DataView) :
  args_size l = total (map byteLength l) + Z.of_nat (length l).
Proof.
  unfold args_size.
  assert (G : forall acc, fold_left Z.add (map (fun s => byteLength s + 1) l) acc
                          = acc + total (map byteLength l) + Z.of_nat (length l)).
  { induction l as [|s l IH]; intros acc; [simpl; unfold total; simpl; lia|].
    cbn [map fold_left]. rewrite IH. unfold total. cbn [map fold_right length]. lia. }
  rewrite G. lia.
Qed.

(** X22.  With both words inside the memory, [args_sizes_get] returns 0
    and changes these two words only: the second holds the sum of the
    lengths of the arguments plus one byte for each, and the first, when
    the two do not overlap, the number of arguments. *)
Theorem args_sizes_get_spec (args : list DataView) (number sizePtr : Z) (h : Host) :
  in_bounds (memory h) number 4 = true ->
  in_bounds (memory h) sizePtr 4 = true ->
  exists m',
    args_sizes_get args number sizePtr h = (Ok 0, with_memory m' h)
    /\ byteLength m' = byteLength (memory h)
    /\ getUint32 m' sizePtr
       = Some ((total (map byteLength args) + Z.of_nat (length args)) mod 2 ^ 32)
    /\ (number + 4 <= sizePtr \/ sizePtr + 4 <= number ->
        getUint32 m' number = Some (Z.of_nat (length args) mod 2 ^ 32))
    /\ (forall off, (off + 4 <= number \/ number + 4 <= off) ->
                    (off + 4 <= sizePtr \/ sizePtr + 4 <= off) ->
                    getUint32 m' off = getUint32 (memory h) off).
Proof.
  intros Bn Bs.
  set (m1 := splice (memory h) (Z.to_nat number) (le_bytes (Z.of_nat (length args)))).
  assert (L1 : length m1 = length (memory h)).
  { apply length_splice. apply in_bounds_spec in Bn. unfold byteLength in Bn. simpl. lia. }
  assert (Bs1 : in_bounds m1 sizePtr 4 = true).
  { apply in_bounds_spec. apply in_bounds_spec in Bs. unfold byteLength in *. rewrite L1. exact Bs. }
  set (m2 := splice m1 (Z.to_nat sizePtr) (le_bytes (args_size args))).
  assert (L2 : length m2 = length m1).
  { apply length_splice. apply in_bounds_spec in Bs1. unfold byteLength in Bs1. simpl. lia. }
  exists m2. split; [|split; [|split; [|split]]].
  - unfold args_sizes_get, bind, mem_setUint32, bind, getMemory, gets, orThrow, modify, ret,
      setUint32.
    cbn [fst snd]. rewrite Bn. cbn [memory with_memory]. fold m1. rewrite Bs1.
    destruct h; reflexivity.
  - unfold byteLength. now rewrite L2, L1.
  - rewrite <- args_size_total.
    apply (getUint32_setUint32 m1). unfold setUint32. now rewrite Bs1.
  - intros D. unfold m2.
    rewrite getUint32_splice_other by (try exact Bs1; simpl; lia).
    apply (getUint32_setUint32 (memory h)). unfold setUint32. now rewrite Bn.
  - intros off D1 D2. unfold m2, m1.
    rewrite getUint32_splice_other by (try exact Bs1; simpl; lia).
    apply getUint32_splice_other; [exact Bn | simpl; lia].
Qed.

(** ** The files during a run *)

(** X23.  The files of the tree are read-only for the guest: wherever a
    run stops, every buffer holds the encoding of the text it was loaded
    with, no closure was added or dropped, every cursor lies within its
    buffer, and the file of every descriptor that can be read has its
    closure. *)
Theorem files_read_only (binaryPath : string) (args : list string)
    (fs : FileSystemNode FileLoader) (imports : Imports) (h1 : Host)
    (mem : DataView) (g : Guest) :
  prepareWasi binaryPath args fs onExit_resolve host0 = (Ok imports, h1) ->
  let h' := snd (exec imports g (with_memory mem h1)) in
  map (fun cell => Some (data cell)) (cells h')
  = map (fun leaf => option_map encode (leaf_text leaf)) (leaves "." fs)
  /\ Forall (fun cell => 0 <= cursor cell <= byteLength (data cell)) (cells h')
  /\ (forall fd file c,
        openFds h' !! fd = Some file -> read file = readCell c ->
        exists cell leaf,
          cells h' !! c = Some cell
          /\ leaves "." fs !! c = Some leaf
          /\ option_map encode (leaf_text leaf) = Some (data cell)).
Proof.
  intros Hsetup h'.
  destruct (setup_view _ _ _ _ _ Hsetup) as [Hon [Hp [Ht [_ Hno]]]].
  destruct (exec_course imports Hon g (with_memory mem h1) Hp Hno) as [_ [Hb _]].
  fold h' in Hb. unfold buffers in Hb. cbn [cells with_memory] in Hb.
  pose proof (run_ok binaryPath args fs imports h1 mem g Hsetup) as Hok. fold h' in Hok.
  assert (Htexts : map (fun cell => Some (data cell)) (cells h')
                   = map (fun leaf => option_map encode (leaf_text leaf)) (leaves "." fs)).
  { destruct (prepareWasi_inv _ _ _ _ _ _ _ Hsetup) as [root [Hload [_ Hh1]]].
    destruct (loadFileSystem_leaves fs "." host0 root _ Hload) as [_ [_ A]].
    rewrite <- (map_map data (fun d => Some d)), Hb, Hh1.
    cbn [cells with_openFds with_next_fd with_trace with_cells host0 app].
    unfold created. rewrite !map_map. clear -A. unfold all_resolve in A.
    induction A as [|leaf l [text Htext] _ IH]; simpl; [reflexivity|].
    rewrite Htext. simpl. f_equal. exact IH. }
  split; [exact Htexts|]. split; [exact (proj1 (proj2 Hok))|].
  intros fd file c Hfd Hread.
  destruct (host_ok_cell _ _ _ _ _ Hok Hfd Hread) as [cell [Hc _]].
  apply (f_equal (fun l => l !! c)) in Htexts.
  change (map (fun leaf => option_map encode (leaf_text leaf)))
    with (fmap (M := list) (fun leaf => option_map encode (leaf_text leaf))) in Htexts.
  change (map (fun cell => Some (data cell)))
    with (fmap (M := list) (fun cell => Some (data cell))) in Htexts.
  rewrite !list_lookup_fmap, Hc in Htexts. simpl in Htexts.
  destruct (leaves "." fs !! c) as [leaf|]; simpl in Htexts; [|discriminate Htexts].
  exists cell, leaf. split; [exact Hc|]. split; [reflexivity|]. congruence.
Qed.

(** ** Sample runs of the further properties *)

Lemma fd_write_sink_witness :
  fst (fd_write 1 8 2 32 sample_write) = Ok 0
  /\ output (snd (fd_write 1 8 2 32 sample_write)) = [(1, "hi!"%string); (1, "i!"%string)]
  /\ getUint32 (memory (snd (fd_write 1 8 2 32 sample_write))) 32 = Some 5.
Proof.
  destruct (fd_write_sink 1 8 2 32 1 sample_write (sinkFile STDOUT) [(0, 3); (1, 2)])
    as [H _]; try (vm_compute; reflexivity).
  rewrite H. vm_compute. repeat split.
Defined.

Lemma fd_write_partial_witness :
  fst (fd_write 2 56 2 32 sample_write) = Throw RangeError
  /\ output (snd (fd_write 2 56 2 32 sample_write)) = [(2, "hi!"%string)].
Proof.
  rewrite (fd_write_partial 2 56 2 32 2 sample_write (sinkFile STDERR) 1 [(0, 3)]);
    try (vm_compute; reflexivity).
  vm_compute. split; reflexivity.
Defined.

Lemma not_supported_witness :
  fd_read 0 8 1 32 sample_write = (Ok 58, sample_write)
  /\ fd_write 3 8 1 32 sample_write = (Ok 58, sample_write).
Proof.
  split.
  - apply (not_supported 0 8 1 32 sample_write (readNotSupportedFile None) 0 3);
      try (vm_compute; reflexivity). lia.
  - apply (not_supported 3 8 1 32 sample_write (readNotSupportedFile (Some "."%string)) 0 3);
      try (vm_compute; reflexivity). lia.
Defined.

Lemma empty_request_witness :
  fd_read 0 8 0 32 sample_write
  = (Ok 0, with_memory (splice (memory sample_write) 32 (le_bytes 0)) sample_write).
Proof.
  apply (empty_request 0 8 0 32 sample_write (readNotSupportedFile None));
    try (vm_compute; reflexivity). lia.
Defined.

Lemma fd_read_exact_witness :
  let after := snd (fd_read 4 8 2 24 sample_exact) in
  fst (fd_read 4 8 2 24 sample_exact) = Ok 0
  /\ take 2 (drop 32 (memory after)) = encode "ab"
  /\ take 1 (drop 40 (memory after)) = encode "c"
  /\ getUint32 (memory after) 24 = Some 3
  /\ cells after !! 1%nat = Some {| data := encode "abc"; cursor := 3 |}.
Proof.
  intros after. subst after.
  destruct (fd_read_exact 4 8 2 24 sample_exact (created_file 1) 1
              {| data := encode "abc"; cursor := 0 |} [(32, 2); (40, 1)])
    as [E _]; try (vm_compute; reflexivity).
  - vm_compute. split; discriminate.
  - vm_compute. discriminate.
  - apply List.Forall_cons; [|apply List.Forall_cons; [|apply List.Forall_nil]];
      right; vm_compute; (split; [discriminate | right; discriminate]).
  - rewrite E. vm_compute. repeat split.
Defined.

Lemma reads_are_sequential_witness :
  fst (bind (call_read (readCell 1) 32 2) (fun _ => call_read (readCell 1) 40 5) sample_write)
  = Ok (1, 0).
Proof.
  pose proof (reads_are_sequential 1 {| data := encode "abc"; cursor := 0 |} 32 2 40 5
                sample_write ltac:(vm_compute; reflexivity)
                ltac:(vm_compute; split; discriminate)
                ltac:(lia) ltac:(lia) ltac:(lia) ltac:(lia)) as H.
  cbv zeta in H. destruct H as [H _]. rewrite H. reflexivity.
Defined.

Lemma open_twice_witness :
  let h1 := snd (openFile "./lib/a" (imp_fileSystem sample_imports) sample_write) in
  let h2 := snd (openFile "./lib/a" (imp_fileSystem sample_imports) h1) in
  fst (openFile "./lib/a" (imp_fileSystem sample_imports) h1) = Ok (5, 0)
  /\ openFds h2 !! 5 = Some (created_file 1)
  /\ openFds h2 !! 4 = Some (created_file 1).
Proof.
  intros h1 h2.
  destruct (open_twice "./lib/a" (imp_fileSystem sample_imports) sample_write h1 4
              ltac:(vm_compute; reflexivity)) as [H [_ [H5 [H4 [Hfile _]]]]].
  assert (E : openFds h1 !! 4 = Some (created_file 1)).
  { apply Hfile.
    do 3 (eapply resolves_child; [discriminate | vm_compute; reflexivity |]).
    apply resolves_file. }
  change (4 + 1) with 5 in H5.
  split; [exact H|]. unfold h2. rewrite H5, H4. split; exact E.
Defined.

Lemma trailing_slash_ignored_witness :
  openFile "./lib/" (imp_fileSystem sample_imports) sample_write
  = openFile "./lib" (imp_fileSystem sample_imports) sample_write.
Proof.
  apply (trailing_slash_ignored "./lib"); [discriminate|].
  intros q H.
  do 5 (destruct q as [|? q]; [discriminate H|]; injection H as _ H).
  destruct q; discriminate H.
Defined.

Lemma root_is_dot_witness :
  let root := Directory [("a"%string, FileEntry (created_file 1))] in
  openFile "a" (Directory [("."%string, root)]) sample_write
  = (Ok (0, NO_SUCH_FILE_OR_DIRECTORY), sample_write)
  /\ openFile "./a" (Directory [("."%string, root)]) sample_write
     = openFile "a" root sample_write.
Proof.
  intros root.
  destruct (root_is_dot root "a" sample_write) as [H [_ H']].
  split; [|exact H'].
  apply H; [discriminate | vm_compute; discriminate |].
  vm_compute. intros Hin. repeat (destruct Hin as [Hin|Hin]; [discriminate Hin|]).
  exact Hin.
Defined.

Lemma path_open_spec_witness :
  path_open (imp_fileSystem sample_imports) 3 0 0 7 0 0 0 0 16 sample_path
  = (Ok 0,
     with_memory (splice (memory sample_path) 16 (le_bytes 4))
       (with_openFds (<[4 := created_file 1]> (openFds sample_path))
          (with_next_fd 5 sample_path))).
Proof.
  apply (path_open_spec (imp_fileSystem sample_imports) 3 0 0 7 0 0 0 0 16
           (Opened (created_file 1)) sample_path).
  change (decode (slice (memory sample_path) 0 (0 + 7))) with "./lib/a"%string.
  do 3 (eapply resolves_child; [discriminate | vm_compute; reflexivity |]).
  apply resolves_file.
Defined.

Lemma loaded_tree_witness :
  exists root,
    imp_fileSystem sample_imports = Directory [("."%string, root)]
    /\ map fst (leaves "." root) = ["./main"; "./lib/a"]%string
    /\ map snd (leaves "." root) = [created_file 0; created_file 1].
Proof.
  destruct (loaded_tree "watim.wasm" ["./test.watim"%string] sample_fs onExit_resolve
              sample_imports (snd sample_setup)) as [root [Hr [Hp [Hf _]]]];
    [vm_compute; reflexivity|].
  exists root. split; [exact Hr|]. split; [exact Hp | exact Hf].
Defined.


Lemma descriptors_stable_witness :
  next_fd sample_host <= next_fd sample_opened
  /\ openFds sample_opened !! 1 = Some (sinkFile STDOUT).
Proof.
  destruct (descriptors_stable sample_imports (guest_read Return) sample_host)
    as [Hn [Hk _]].
  - reflexivity.
  - exact (run_ok "watim.wasm" ["./test.watim"%string] sample_fs sample_imports
             (snd sample_setup) (repeat "000"%byte 64) Return ltac:(vm_compute; reflexivity)).
  - split; [exact Hn|]. apply Hk. vm_compute. reflexivity.
Defined.

Lemma only_preopen_is_3_witness :
  fd_prestat_get 4 0 sample_opened = (Ok 8, sample_opened)
  /\ fst (fd_prestat_get 3 0 sample_opened) = Ok 0.
Proof.
  destruct (only_preopen_is_3 "watim.wasm" ["./test.watim"%string] sample_fs sample_imports
              (snd sample_setup) (repeat "000"%byte 64) (guest_read Return))
    as [Hother H3]; [vm_compute; reflexivity|].
  split.
  - exact (proj1 (Hother 4 0 0 ltac:(discriminate))).
  - exact (f_equal fst (H3 0 ltac:(vm_compute; reflexivity))).
Defined.

Lemma prestat_dir_name_truncates_witness :
  fst (fd_prestat_dir_name 3 0 5 sample_write) = Ok 0
  /\ take 3 (memory (snd (fd_prestat_dir_name 3 0 5 sample_write))) = encode ".i!".
Proof.
  pose proof (prestat_dir_name_truncates 3 0 5 sample_write
                (readNotSupportedFile (Some "."%string)) "."
                ltac:(vm_compute; reflexivity) ltac:(reflexivity) ltac:(lia)) as H.
  cbv zeta in H. destruct H as [H _]. rewrite H. vm_compute. split; reflexivity.
Defined.

Lemma fatal_error_pending_witness :
  promise (snd (runWasi (fun _ => Some (instance_of guest_bad))
                  "watim.wasm" ["./test.watim"%string] sample_fs host0)) = None.
Proof.
  apply (fatal_error_pending (fun _ => Some (instance_of guest_bad))
           "watim.wasm" ["./test.watim"%string] sample_fs (NotOpen 9)).
  - vm_compute. reflexivity.
  - discriminate.
Defined.

Lemma page_loaders_witness :
  exists imports h1,
    prepareWasi "watim.wasm" ["./test.watim"%string]
      (loaders_of sample_fetch (transform sample_page)) onExit_resolve host0
    = (Ok imports, h1).
Proof.
  apply (page_loaders sample_fetch (transform sample_page) "watim.wasm"
           ["./test.watim"%string] onExit_resolve).
  repeat constructor.
  - discriminate.
  - intros _. vm_compute. eexists. reflexivity.
Defined.

Lemma cached_transparent_witness :
  (cached_all sample_fetch ["./std/io.watim"; "./x"; "./std/io.watim"; "./x"]%string ∅).1.1
  = [Some "io"; None; Some "io"; None]%string
  /\ count_occ string_dec
       (cached_all sample_fetch ["./std/io.watim"; "./x"; "./std/io.watim"; "./x"]%string ∅).2
       "./std/io.watim"%string = 1%nat
  /\ count_occ string_dec
       (cached_all sample_fetch ["./std/io.watim"; "./x"; "./std/io.watim"; "./x"]%string ∅).2
       "./x"%string = 2%nat.
Proof.
  pose proof (cached_transparent sample_fetch
                ["./std/io.watim"; "./x"; "./std/io.watim"; "./x"]%string) as H.
  destruct (cached_all sample_fetch _ ∅) as [[answers cache] calls].
  destruct H as (Ha & _ & _ & H1 & H0).
  split; [exact Ha|]. split.
  - cbn [snd]. rewrite H1 by (eexists; reflexivity). reflexivity.
  - cbn [snd]. rewrite H0 by reflexivity. reflexivity.
Defined.

Lemma args_sizes_get_spec_witness :
  fst (args_sizes_get (imp_args sample_imports) 48 52 sample_write) = Ok 0
  /\ getUint32 (memory (snd (args_sizes_get (imp_args sample_imports) 48 52 sample_write))) 52
     = Some 24.
Proof.
  destruct (args_sizes_get_spec (imp_args sample_imports) 48 52 sample_write)
    as [m' [H [_ [Hs _]]]]; try (vm_compute; reflexivity).
  rewrite H. split; [reflexivity|]. cbn [snd memory with_memory]. rewrite Hs. vm_compute. reflexivity.
Defined.

Lemma files_read_only_witness :
  map (fun cell => Some (data cell)) (cells sample_opened)
  = [Some (encode "fn"); Some (encode "abc")]
  /\ Forall (fun cell => 0 <= cursor cell <= byteLength (data cell)) (cells sample_opened).
Proof.
  destruct (files_read_only "watim.wasm" ["./test.watim"%string] sample_fs sample_imports
              (snd sample_setup) (repeat "000"%byte 64) (guest_read Return))
    as [Ht [Hc _]]; [vm_compute; reflexivity|].
  split; [exact Ht | exact Hc].
Defined.
